(** * Portable Text: decode / encode / validate / traverse

    A shallow embedding of the Go package [portabletext] (type
    declarations, [Decode], [Encode], [Walk], [Filter], [Validate],
    [ValidateWithOptions], the [parse*] helpers, the [MarshalJSON]
    methods and the deep-copy helpers) together with the properties the
    specification states about them.

    Modelling decisions.

    - The lexical layer belongs to [encoding/json], not to the package.
      A byte stream accepted by the tokenizer is represented by the JSON
      value it denotes ([json]); the same type is the Go [any] that a
      decoder with [UseNumber] produces (nil, bool, [json.Number],
      string, [[]any], [map[string]any]).  A [json.Number] keeps its
      literal text.
    - A Go [map[string]any] is a [gmap string json]; a nil map and an
      empty map are identified (the code only ranges over, or writes to
      freshly made, maps).  Go leaves the iteration order of a map
      unspecified; the loops of the parsers run over [map_to_list].
    - A pointer field ([*string], [*int]) is an [option]; a slice whose
      nil-ness the code observes ([Children], [MarkDefs], [Marks],
      [Document]) is an [option (list _)], [None] being the nil slice.
    - Go [int] is 64 bits wide; [Level] is a [Z] that the parser keeps
      within the [int64] range.
    - The aliasing claims about [Clone] and [Filter] are settled on a
      separate store model, module [Mem], in which pointers, slices and
      maps are locations of a heap. *)

From Stdlib Require Import ZArith Lia Ascii String.
From Stdlib Require Import DecimalString DecimalZ DecimalNat DecimalPos.
From Stdlib.Strings Require Import Byte.
From stdpp Require Import gmap strings list fin_maps.

Local Open Scope Z_scope.
Set Warnings "-clear-no-such-hyp".

(** ** JSON values *)

#[warnings="-register-all"]
Inductive json : Type :=
| JNull
| JBool (b : bool)
| JNumber (lit : string)
| JString (s : string)
| JArray (l : list json)
| JObject (m : gmap string json).

(** ** Results of fallible code: [(T, error)] pairs *)

Inductive result (E A : Type) : Type :=
| Ok (a : A)
| Err (e : E).
Arguments Ok {E A} a.
Arguments Err {E A} e.

#[global] Instance result_bind {E} : MBind (result E) := λ A B k r,
  match r with
  | Ok a => k a
  | Err e => Err e
  end.

Definition is_Ok {E A} (r : result E A) : Prop := ∃ a, r = Ok a.
Definition is_Err {E A} (r : result E A) : Prop := ∃ e, r = Err e.

(** ** Integers on the wire *)

Definition min_int64 : Z := - 2 ^ 63.
Definition max_int64 : Z := 2 ^ 63 - 1.

(** [strconv.ParseInt(s, 10, 64)]: an optional sign, at least one decimal
    digit, nothing else, and a value that fits 64 bits. *)
Definition ParseInt (s : string) : option Z :=
  let '(neg, ds) :=
    match s with
    | String "-"%char r => (true, r)
    | String "+"%char r => (false, r)
    | _ => (false, s)
    end in
  match ds with
  | EmptyString => None
  | _ =>
      match NilEmpty.uint_of_string ds with
      | None => None
      | Some u =>
          let z := if neg : bool then - Z.of_uint u else Z.of_uint u in
          if (min_int64 <=? z) && (z <=? max_int64) then Some z else None
      end
  end.

(** [json.Number.Int64]. *)
Definition Number_Int64 (lit : string) : option Z := ParseInt lit.

(** The decimal text [encoding/json] writes for a Go [int]. *)
Definition FormatInt (z : Z) : string := NilZero.string_of_int (Z.to_int z).

(** [%d] of a non-negative index. *)
Definition itoa (n : nat) : string := NilZero.string_of_uint (Nat.to_uint n).

(** ** Errors *)

Inductive ErrKind : Type :=
| ErrMissingType
| ErrInvalidType
| ErrExpectedObject
| ErrExpectedArray
| ErrInvalidMarks
| ErrInvalidNumber
| ErrUnexpectedToken
| ErrUnmarshalType (* encoding/json refusing a non-object where a map is wanted *).

Record Error : Type := mkError {
  Op : string;
  Path : string;
  Err_ : ErrKind
}.

Definition wrap (op path : string) (err : ErrKind) : Error :=
  {| Op := op; Path := path; Err_ := err |}.

(** ** Entities *)

Record Span : Type := mkSpan {
  span_Type : string;
  span_Text : option string;
  span_Marks : option (list string);
  span_Raw : gmap string json
}.

Record MarkDef : Type := mkMarkDef {
  md_Key : string;
  md_Type : string;
  md_Raw : gmap string json
}.

Record Node : Type := mkNode {
  node_Type : string;
  node_Key : string;
  node_Style : option string;
  node_Children : option (list Span);
  node_MarkDefs : option (list MarkDef);
  node_ListItem : option string;
  node_Level : option Z;
  node_Raw : gmap string json
}.

(** [Document] is a slice of nodes; [None] is the nil slice. *)
Definition Document : Type := option (list Node).

(** [range] over a slice, and [append]. *)
Definition elems {A} (s : option (list A)) : list A := default [] s.
Definition append {A} (s : option (list A)) (x : A) : option (list A) :=
  Some (elems s ++ [x]).

Record ValidationOptions : Type := mkOpts {
  RequireKeys : bool;
  CheckMarkDefRefs : bool;
  AllowEmptyText : bool
}.

(** Field updates, one per assignment form of the source. *)
Definition span_set_Text (t : string) (s : Span) : Span :=
  mkSpan (span_Type s) (Some t) (span_Marks s) (span_Raw s).
Definition span_set_Marks (ms : list string) (s : Span) : Span :=
  mkSpan (span_Type s) (span_Text s) (Some ms) (span_Raw s).
Definition span_set_Raw (k : string) (v : json) (s : Span) : Span :=
  mkSpan (span_Type s) (span_Text s) (span_Marks s) (<[k:=v]> (span_Raw s)).

Definition md_set_Key (k : string) (md : MarkDef) : MarkDef :=
  mkMarkDef k (md_Type md) (md_Raw md).
Definition md_set_Raw (k : string) (v : json) (md : MarkDef) : MarkDef :=
  mkMarkDef (md_Key md) (md_Type md) (<[k:=v]> (md_Raw md)).

Definition node_set_Key (k : string) (n : Node) : Node :=
  mkNode (node_Type n) k (node_Style n) (node_Children n) (node_MarkDefs n)
         (node_ListItem n) (node_Level n) (node_Raw n).
Definition node_set_Style (s : string) (n : Node) : Node :=
  mkNode (node_Type n) (node_Key n) (Some s) (node_Children n) (node_MarkDefs n)
         (node_ListItem n) (node_Level n) (node_Raw n).
Definition node_set_Children (c : list Span) (n : Node) : Node :=
  mkNode (node_Type n) (node_Key n) (node_Style n) (Some c) (node_MarkDefs n)
         (node_ListItem n) (node_Level n) (node_Raw n).
Definition node_set_MarkDefs (m : list MarkDef) (n : Node) : Node :=
  mkNode (node_Type n) (node_Key n) (node_Style n) (node_Children n) (Some m)
         (node_ListItem n) (node_Level n) (node_Raw n).
Definition node_set_ListItem (s : string) (n : Node) : Node :=
  mkNode (node_Type n) (node_Key n) (node_Style n) (node_Children n) (node_MarkDefs n)
         (Some s) (node_Level n) (node_Raw n).
Definition node_set_Level (l : Z) (n : Node) : Node :=
  mkNode (node_Type n) (node_Key n) (node_Style n) (node_Children n) (node_MarkDefs n)
         (node_ListItem n) (Some l) (node_Raw n).
Definition node_set_Raw (k : string) (v : json) (n : Node) : Node :=
  mkNode (node_Type n) (node_Key n) (node_Style n) (node_Children n) (node_MarkDefs n)
         (node_ListItem n) (node_Level n) (<[k:=v]> (node_Raw n)).

(** ** Parsing (path aware) *)

(** [decodeObjectUseNumber]: the bytes must hold a JSON object.  The
    literal [null] leaves the map nil ([ErrExpectedObject]); any other
    value is refused by [encoding/json] itself. *)
Definition decodeObjectUseNumber (b : json) : result ErrKind (gmap string json) :=
  match b with
  | JObject obj => Ok obj
  | JNull => Err ErrExpectedObject
  | _ => Err ErrUnmarshalType
  end.

(** [for k, v := range obj { ... }] with a body that may [return] an
    error: the members are visited one by one, the entity under
    construction is threaded through, and the first error ends the loop. *)
Fixpoint range_obj {T} (body : string → json → T → result Error T)
    (kvs : list (string * json)) (t : T) : result Error T :=
  match kvs with
  | [] => Ok t
  | (k, v) :: rest =>
      t' ← body k v t;
      range_obj body rest t'
  end.

(** The discriminator check shared by the three parsers. *)
Definition check_type (op path : string) (obj : gmap string json)
  : result Error string :=
  match obj !! "_type" with
  | None => Err (wrap op path ErrMissingType)
  | Some (JString ts) =>
      if decide (ts = "") then Err (wrap op path ErrInvalidType) else Ok ts
  | Some _ => Err (wrap op path ErrInvalidType)
  end.

(** The inner loop of [parseSpan] over the elements of [marks]. *)
Fixpoint parseMarks (a : list json) (marks : list string) : option (list string) :=
  match a with
  | [] => Some marks
  | JString ms :: rest => parseMarks rest (marks ++ [ms])
  | _ :: _ => None
  end.

(** One iteration of the [for k, v := range obj] loop of [parseSpan]. *)
Definition parseSpan_field (path k : string) (v : json) (s : Span)
  : result Error Span :=
  if decide (k = "_type") then Ok s
  else if decide (k = "text") then
    match v with
    | JNull => Ok (span_set_Raw k JNull s)
    | JString str => Ok (span_set_Text str s)
    | _ => Ok (span_set_Raw k v s)
    end
  else if decide (k = "marks") then
    match v with
    | JNull => Ok (span_set_Raw k JNull s)
    | JArray a =>
        match parseMarks a [] with
        | Some marks => Ok (span_set_Marks marks s)
        | None => Err (wrap "span" (path +:+ ".marks") ErrInvalidMarks)
        end
    | _ => Err (wrap "span" (path +:+ ".marks") ErrInvalidMarks)
    end
  else Ok (span_set_Raw k v s).

Definition parseSpan (b : json) (path : string) : result Error Span :=
  match decodeObjectUseNumber b with
  | Err err => Err (wrap "span" path err)
  | Ok obj =>
      ts ← check_type "span" path obj;
      range_obj (parseSpan_field path) (map_to_list obj) (mkSpan ts None None ∅)
  end.

(** The element loop of [parseSpanArray]; [json.Marshal(item)] followed by
    the decode in [parseSpan] hands the element over unchanged. *)
Fixpoint parseSpanArray_loop (path : string) (i : nat) (arr : list json)
    (out : list Span) : result Error (list Span) :=
  match arr with
  | [] => Ok out
  | item :: rest =>
      s ← parseSpan item (path +:+ "[" +:+ itoa i +:+ "]");
      parseSpanArray_loop path (S i) rest (out ++ [s])
  end.

(** [parseSpanArray]: the result is never the nil slice. *)
Definition parseSpanArray (v : json) (path : string) : result Error (list Span) :=
  match v with
  | JArray arr =>
      match arr with
      | [] => Ok []
      | _ => parseSpanArray_loop path 0 arr []
      end
  | _ => Err (wrap "node" path ErrExpectedArray)
  end.

(** [parseMarkDef]: [_key] is classified first, then every other member
    goes to [Raw]; the loop body of [parseMarkDef] cannot fail. *)
Definition parseMarkDef_key (obj : gmap string json) (md : MarkDef) : MarkDef :=
  match obj !! "_key" with
  | None => md
  | Some JNull => md_set_Raw "_key" JNull md
  | Some (JString ks) => md_set_Key ks md
  | Some k => md_set_Raw "_key" k md
  end.

Definition parseMarkDef_field (k : string) (v : json) (md : MarkDef)
  : result Error MarkDef :=
  if decide (k = "_type") then Ok md
  else if decide (k = "_key") then Ok md
  else Ok (md_set_Raw k v md).

Definition parseMarkDef (b : json) (path : string) : result Error MarkDef :=
  match decodeObjectUseNumber b with
  | Err err => Err (wrap "markDef" path err)
  | Ok obj =>
      ts ← check_type "markDef" path obj;
      range_obj parseMarkDef_field (map_to_list obj)
        (parseMarkDef_key obj (mkMarkDef "" ts ∅))
  end.

Fixpoint parseMarkDefArray_loop (path : string) (i : nat) (arr : list json)
    (out : list MarkDef) : result Error (list MarkDef) :=
  match arr with
  | [] => Ok out
  | item :: rest =>
      md ← parseMarkDef item (path +:+ "[" +:+ itoa i +:+ "]");
      parseMarkDefArray_loop path (S i) rest (out ++ [md])
  end.

Definition parseMarkDefArray (v : json) (path : string)
  : result Error (list MarkDef) :=
  match v with
  | JArray arr =>
      match arr with
      | [] => Ok []
      | _ => parseMarkDefArray_loop path 0 arr []
      end
  | _ => Err (wrap "node" path ErrExpectedArray)
  end.

(** One iteration of the [for k, v := range obj] loop of [parseNode]. *)
Definition parseNode_field (path k : string) (v : json) (n : Node)
  : result Error Node :=
  if decide (k = "_type") then Ok n
  else if decide (k = "_key") then
    match v with
    | JNull => Ok (node_set_Raw k JNull n)
    | JString s => Ok (node_set_Key s n)
    | _ => Ok (node_set_Raw k v n)
    end
  else if decide (k = "style") then
    match v with
    | JNull => Ok (node_set_Raw k JNull n)
    | JString s => Ok (node_set_Style s n)
    | _ => Ok (node_set_Raw k v n)
    end
  else if decide (k = "children") then
    match v with
    | JNull => Ok (node_set_Raw k JNull n)
    | _ =>
        children ← parseSpanArray v (path +:+ ".children");
        Ok (node_set_Children children n)
    end
  else if decide (k = "markDefs") then
    match v with
    | JNull => Ok (node_set_Raw k JNull n)
    | _ =>
        mds ← parseMarkDefArray v (path +:+ ".markDefs");
        Ok (node_set_MarkDefs mds n)
    end
  else if decide (k = "listItem") then
    match v with
    | JNull => Ok (node_set_Raw k JNull n)
    | JString s => Ok (node_set_ListItem s n)
    | _ => Ok (node_set_Raw k v n)
    end
  else if decide (k = "level") then
    match v with
    | JNull => Ok (node_set_Raw k JNull n)
    | JNumber x =>
        match Number_Int64 x with
        | None => Err (wrap "node" (path +:+ ".level") ErrInvalidNumber)
        | Some iv => Ok (node_set_Level iv n)
        end
    | _ => Ok (node_set_Raw k v n)
    end
  else Ok (node_set_Raw k v n).

Definition parseNode (b : json) (path : string) : result Error Node :=
  match decodeObjectUseNumber b with
  | Err err => Err (wrap "node" path err)
  | Ok obj =>
      ts ← check_type "node" path obj;
      range_obj (parseNode_field path) (map_to_list obj)
        (mkNode ts "" None None None None None ∅)
  end.

(** ** Public API: Decode and Encode *)

(** The element loop of [Decode]; [doc] starts as the nil slice. *)
Fixpoint Decode_loop (i : nat) (items : list json) (doc : Document)
  : result Error Document :=
  match items with
  | [] => Ok doc
  | rm :: rest =>
      n ← parseNode rm ("[" +:+ itoa i +:+ "]");
      Decode_loop (S i) rest (append doc n)
  end.

(** [Decode]: the first token must open an array. *)
Definition Decode (r : json) : result Error Document :=
  match r with
  | JArray items => Decode_loop 0 items None
  | _ => Err (wrap "decode" "" ErrUnexpectedToken)
  end.

(** The map [m] the [MarshalJSON] methods fill: the raw members first,
    then the typed members laid over them; [json.Marshal(m)] writes the
    object with these members. *)
Definition Span_members (s : Span) : gmap string json :=
  let m := span_Raw s in
  let m := <["_type" := JString (span_Type s)]> m in
  let m := match span_Text s with
           | Some t => <["text" := JString t]> m
           | None => m
           end in
  let m := match span_Marks s with
           | Some ms => <["marks" := JArray (JString <$> ms)]> m
           | None => m
           end in
  m.

Definition Span_MarshalJSON (s : Span) : json := JObject (Span_members s).

Definition MarkDef_members (md : MarkDef) : gmap string json :=
  let m := md_Raw md in
  let m := <["_type" := JString (md_Type md)]> m in
  let m := if decide (md_Key md = "") then m
           else <["_key" := JString (md_Key md)]> m in
  m.

Definition MarkDef_MarshalJSON (md : MarkDef) : json :=
  JObject (MarkDef_members md).

Definition Node_members (n : Node) : gmap string json :=
  let m := node_Raw n in
  let m := <["_type" := JString (node_Type n)]> m in
  let m := if decide (node_Key n = "") then m
           else <["_key" := JString (node_Key n)]> m in
  let m := match node_Style n with
           | Some s => <["style" := JString s]> m
           | None => m
           end in
  let m := match node_Children n with
           | Some c => <["children" := JArray (Span_MarshalJSON <$> c)]> m
           | None => m
           end in
  let m := match node_MarkDefs n with
           | Some mds => <["markDefs" := JArray (MarkDef_MarshalJSON <$> mds)]> m
           | None => m
           end in
  let m := match node_ListItem n with
           | Some s => <["listItem" := JString s]> m
           | None => m
           end in
  let m := match node_Level n with
           | Some l => <["level" := JNumber (FormatInt l)]> m
           | None => m
           end in
  m.

Definition Node_MarshalJSON (n : Node) : json := JObject (Node_members n).

(** [Encode]: [encoding/json] writes a nil slice as [null] and any other
    slice as the array of its elements' [MarshalJSON]. *)
Definition Encode (doc : Document) : json :=
  match doc with
  | None => JNull
  | Some nodes => JArray (Node_MarshalJSON <$> nodes)
  end.

(** ** Traversal *)

(** [Walk].  The callback receives [&doc[i]]: it reads the node, may
    update it in place, may update the state [S] its closure captures,
    and returns an error or nil.  [Walk_loop] carries the nodes already
    visited, the nodes still to visit and the closure state. *)
Section Walk.
Context {St E : Type}.

Definition callback : Type := Node → St → Node * St * option E.

Fixpoint Walk_loop (fn : callback) (visited rest : list Node) (s : St)
  : list Node * St * option E :=
  match rest with
  | [] => (visited, s, None)
  | n :: rest' =>
      let '(n', s', err) := fn n s in
      match err with
      | Some e => (visited ++ n' :: rest', s', Some e)
      | None => Walk_loop fn (visited ++ [n']) rest' s'
      end
  end.

Definition Walk (doc : Document) (fn : callback) (s : St)
  : list Node * St * option E :=
  Walk_loop fn [] (elems doc) s.
End Walk.

(** A callback instrumented with the log of the nodes it was handed. *)
Definition traced {St E} (fn : @callback St E) : @callback (St * list Node) E :=
  λ n '(s, log),
    let '(n', s', err) := fn n s in (n', (s', log ++ [n]), err).

(** ** Validation *)

(** A diagnostic; [ve_Node] is the index [i] of the node [&doc[i]] the
    diagnostic points to. *)
Record ValidationError : Type := mkVErr {
  ve_Path : string;
  ve_Message : string;
  ve_Node : nat
}.

(** The [markDefMap] of a block: [markDefMap[md.Key] = true] for every
    mark definition; a missing key reads as [false]. *)
Definition build_markDefMap (mds : list MarkDef) : gmap string bool :=
  foldl (λ m md, <[md_Key md := true]> m) ∅ mds.

Definition markDefMap_get (m : gmap string bool) (mark : string) : bool :=
  default false (m !! mark).

Fixpoint validate_marks (cpath : string) (i : nat) (markDefMap : gmap string bool)
    (marks : list string) (errs : list ValidationError) : list ValidationError :=
  match marks with
  | [] => errs
  | mark :: rest =>
      let errs :=
        if markDefMap_get markDefMap mark then errs
        else errs ++ [mkVErr cpath
                        ("mark '" +:+ mark +:+ "' not found in markDefs") i] in
      validate_marks cpath i markDefMap rest errs
  end.

(** The body of the loop over [n.Children]. *)
Definition validate_child (opts : ValidationOptions) (path : string) (i : nat)
    (markDefMap : gmap string bool) (j : nat) (c : Span)
    (errs : list ValidationError) : list ValidationError :=
  let cpath := path +:+ ".children[" +:+ itoa j +:+ "]" in
  if decide (span_Type c = "") then
    errs ++ [mkVErr cpath "missing _type" i]
  else if decide (span_Type c = "span") then
    let errs :=
      match span_Text c with
      | None => errs ++ [mkVErr cpath "span missing text" i]
      | Some t =>
          if negb (AllowEmptyText opts) && bool_decide (t = "")
          then errs ++ [mkVErr cpath "span has empty text" i]
          else errs
      end in
    if CheckMarkDefRefs opts
    then validate_marks cpath i markDefMap (elems (span_Marks c)) errs
    else errs
  else errs.

Fixpoint validate_children (opts : ValidationOptions) (path : string) (i : nat)
    (markDefMap : gmap string bool) (j : nat) (cs : list Span)
    (errs : list ValidationError) : list ValidationError :=
  match cs with
  | [] => errs
  | c :: rest =>
      validate_children opts path i markDefMap (S j) rest
        (validate_child opts path i markDefMap j c errs)
  end.

(** The body of the loop over [n.MarkDefs]. *)
Definition validate_markDef (path : string) (i j : nat) (md : MarkDef)
    (errs : list ValidationError) : list ValidationError :=
  let mdpath := path +:+ ".markDefs[" +:+ itoa j +:+ "]" in
  let errs := if decide (md_Type md = "")
              then errs ++ [mkVErr mdpath "markDef missing _type" i] else errs in
  let errs := if decide (md_Key md = "")
              then errs ++ [mkVErr mdpath "markDef missing _key" i] else errs in
  errs.

Fixpoint validate_markDefs (path : string) (i j : nat) (mds : list MarkDef)
    (errs : list ValidationError) : list ValidationError :=
  match mds with
  | [] => errs
  | md :: rest =>
      validate_markDefs path i (S j) rest (validate_markDef path i j md errs)
  end.

(** The body of the loop over the document. *)
Definition validate_node (opts : ValidationOptions) (i : nat) (n : Node)
    (errs : list ValidationError) : list ValidationError :=
  let path := "[" +:+ itoa i +:+ "]" in
  if decide (node_Type n = "") then
    errs ++ [mkVErr path "missing _type" i]
  else
    let errs :=
      if RequireKeys opts && bool_decide (node_Key n = "")
      then errs ++ [mkVErr path "missing _key" i] else errs in
    if decide (node_Type n = "block") then
      let markDefMap :=
        if CheckMarkDefRefs opts
        then build_markDefMap (elems (node_MarkDefs n)) else ∅ in
      let errs :=
        validate_children opts path i markDefMap 0 (elems (node_Children n)) errs in
      validate_markDefs path i 0 (elems (node_MarkDefs n)) errs
    else errs.

Fixpoint validate_nodes (opts : ValidationOptions) (i : nat) (ns : list Node)
    (errs : list ValidationError) : list ValidationError :=
  match ns with
  | [] => errs
  | n :: rest => validate_nodes opts (S i) rest (validate_node opts i n errs)
  end.

Definition ValidateWithOptions (doc : Document) (opts : ValidationOptions)
  : list ValidationError :=
  validate_nodes opts 0 (elems doc) [].

(** [ValidationOptions{}]: every flag is the zero value [false]. *)
Definition zero_options : ValidationOptions := mkOpts false false false.

Definition Validate (doc : Document) : list ValidationError :=
  ValidateWithOptions doc zero_options.

(** ** Node and Span methods, builders *)

(** [IsBlock], on a receiver that may be nil. *)
Definition IsBlock (n : option Node) : bool :=
  match n with
  | None => false
  | Some n => bool_decide (node_Type n = "block")
  end.

Definition GetStyle (n : Node) : string :=
  match node_Style n with
  | Some s => s
  | None => "normal"
  end.

(** [GetText]: the loop writes the text of every child that has one. *)
Fixpoint GetText_loop (cs : list Span) (buf : string) : string :=
  match cs with
  | [] => buf
  | child :: rest =>
      match span_Text child with
      | Some t => GetText_loop rest (buf +:+ t)
      | None => GetText_loop rest buf
      end
  end.

Definition GetText (n : Node) : string :=
  GetText_loop (elems (node_Children n)) "".

Definition GetListLevel (n : Node) : Z :=
  match node_Level n with
  | Some l => l
  | None => 1
  end.

(** [AddSpan]; [marks] is the variadic parameter as the callee sees it:
    the nil slice when no mark is passed. *)
Definition AddSpan (n : Node) (text : string) (marks : option (list string))
  : Node :=
  let span := mkSpan "span" (Some text) marks ∅ in
  mkNode (node_Type n) (node_Key n) (node_Style n)
         (append (node_Children n) span) (node_MarkDefs n)
         (node_ListItem n) (node_Level n) (node_Raw n).

(** [AddMarkDef]; a nil [raw] is replaced by an empty map, which the model
    of maps does not tell apart. *)
Definition AddMarkDef (n : Node) (key markType : string)
    (raw : gmap string json) : Node :=
  let md := mkMarkDef key markType raw in
  mkNode (node_Type n) (node_Key n) (node_Style n)
         (node_Children n) (append (node_MarkDefs n) md)
         (node_ListItem n) (node_Level n) (node_Raw n).

(** [HasMark]: the loop returns at the first match. *)
Fixpoint HasMark_loop (ms : list string) (mark : string) : bool :=
  match ms with
  | [] => false
  | m :: rest => if decide (m = mark) then true else HasMark_loop rest mark
  end.

Definition HasMark (s : Span) (mark : string) : bool :=
  HasMark_loop (elems (span_Marks s)) mark.

Definition NewBlock (style : string) : Node :=
  mkNode "block" "" (Some style) (Some []) (Some []) None None ∅.

Definition NewNode (nodeType : string) : Node :=
  mkNode nodeType "" None None None None None ∅.

(** [ValidationError.Error]. *)
Definition ValidationError_Error (e : ValidationError) : string :=
  ve_Path e +:+ ": " +:+ ve_Message e.

(** ** WalkWithContext *)

(** [Parent] is always nil and [Depth] always 0: only top-level nodes are
    walked. *)
Record WalkContext : Type := mkWalkContext {
  ctx_Index : nat;
  ctx_Parent : option Node;
  ctx_Depth : nat;
  ctx_BlockCount : nat
}.

Section WalkWithContext.
Context {St E : Type}.

Definition ctx_callback : Type :=
  Node → WalkContext → St → Node * St * option E.

(** The context is built, and the block counted, before the callback
    runs. *)
Fixpoint WalkWithContext_loop (fn : ctx_callback) (i blockCount : nat)
    (visited rest : list Node) (s : St) : list Node * St * option E :=
  match rest with
  | [] => (visited, s, None)
  | n :: rest' =>
      let ctx := mkWalkContext i None 0 blockCount in
      let blockCount := if IsBlock (Some n) then S blockCount else blockCount in
      let '(n', s', err) := fn n ctx s in
      match err with
      | Some e => (visited ++ n' :: rest', s', Some e)
      | None =>
          WalkWithContext_loop fn (S i) blockCount (visited ++ [n']) rest' s'
      end
  end.

Definition WalkWithContext (doc : Document) (fn : ctx_callback) (s : St)
  : list Node * St * option E :=
  WalkWithContext_loop fn 0 0 [] (elems doc) s.
End WalkWithContext.

(** A context callback instrumented with the log of the contexts it was
    handed. *)
Definition traced_ctx {St E} (fn : @ctx_callback St E)
  : @ctx_callback (St * list WalkContext) E :=
  λ n ctx '(s, log),
    let '(n', s', err) := fn n ctx s in (n', (s', log ++ [ctx]), err).

(** The number of blocks among the nodes. *)
Definition count_blocks (ns : list Node) : nat :=
  length (List.filter (λ n, IsBlock (Some n)) ns).

(** ** Release 0.1.0

    The earlier variant of the package kept beside the current one: its
    [Node] has no [Key], and its [Validate] takes no options and returns
    formatted messages. *)
Module V010.

Record Node : Type := mkNode {
  node_Type : string;
  node_Style : option string;
  node_Children : option (list Span);
  node_MarkDefs : option (list MarkDef);
  node_ListItem : option string;
  node_Level : option Z;
  node_Raw : gmap string json
}.

Definition validate_child (path : string) (j : nat) (c : Span)
    (errs : list string) : list string :=
  let cpath := path +:+ ".children[" +:+ itoa j +:+ "]" in
  if decide (span_Type c = "") then errs ++ [cpath +:+ ": missing _type"]
  else if decide (span_Type c = "span") then
    match span_Text c with
    | None => errs ++ [cpath +:+ ": span missing text"]
    | Some _ => errs
    end
  else errs.

Fixpoint validate_children (path : string) (j : nat) (cs : list Span)
    (errs : list string) : list string :=
  match cs with
  | [] => errs
  | c :: rest => validate_children path (S j) rest (validate_child path j c errs)
  end.

Definition validate_markDef (path : string) (j : nat) (md : MarkDef)
    (errs : list string) : list string :=
  let mdpath := path +:+ ".markDefs[" +:+ itoa j +:+ "]" in
  let errs := if decide (md_Type md = "")
              then errs ++ [mdpath +:+ ": markDef missing _type"] else errs in
  let errs := if decide (md_Key md = "")
              then errs ++ [mdpath +:+ ": markDef missing _key"] else errs in
  errs.

Fixpoint validate_markDefs (path : string) (j : nat) (mds : list MarkDef)
    (errs : list string) : list string :=
  match mds with
  | [] => errs
  | md :: rest => validate_markDefs path (S j) rest (validate_markDef path j md errs)
  end.

Definition validate_node (i : nat) (n : Node) (errs : list string)
  : list string :=
  let path := "[" +:+ itoa i +:+ "]" in
  if decide (node_Type n = "") then errs ++ [path +:+ ": missing _type"]
  else if decide (node_Type n = "block") then
    let errs := validate_children path 0 (elems (node_Children n)) errs in
    validate_markDefs path 0 (elems (node_MarkDefs n)) errs
  else errs.

Fixpoint validate_nodes (i : nat) (ns : list Node) (errs : list string)
  : list string :=
  match ns with
  | [] => errs
  | n :: rest => validate_nodes (S i) rest (validate_node i n errs)
  end.

Definition Validate (doc : option (list Node)) : list string :=
  validate_nodes 0 (elems doc) [].

End V010.

(** A current node as release 0.1.0 holds it. *)
Definition to_V010 (n : Node) : V010.Node :=
  V010.mkNode (node_Type n) (node_Style n) (node_Children n) (node_MarkDefs n)
    (node_ListItem n) (node_Level n) (node_Raw n).

(** ** Where a member ends up

    The routing the parsers implement, read off their [switch]
    statements: [*_to_raw k v] tells whether member [k] with value [v] is
    stored in [Raw]. *)
Definition is_JString (v : json) : bool :=
  match v with JString _ => true | _ => false end.
Definition is_JNull (v : json) : bool :=
  match v with JNull => true | _ => false end.
Definition is_JNumber (v : json) : bool :=
  match v with JNumber _ => true | _ => false end.
Definition is_JArray (v : json) : bool :=
  match v with JArray _ => true | _ => false end.

Definition node_to_raw (k : string) (v : json) : bool :=
  if decide (k = "_type") then false
  else if decide (k = "_key") then negb (is_JString v)
  else if decide (k = "style") then negb (is_JString v)
  else if decide (k = "children") then is_JNull v
  else if decide (k = "markDefs") then is_JNull v
  else if decide (k = "listItem") then negb (is_JString v)
  else if decide (k = "level") then negb (is_JNumber v)
  else true.

Definition span_to_raw (k : string) (v : json) : bool :=
  if decide (k = "_type") then false
  else if decide (k = "text") then negb (is_JString v)
  else if decide (k = "marks") then is_JNull v
  else true.

Definition md_to_raw (k : string) (v : json) : bool :=
  if decide (k = "_type") then false
  else if decide (k = "_key") then negb (is_JString v)
  else true.

(** ** What a decoded entity looks like

    The state the parsers leave an entity in: a non-empty discriminator,
    a raw store holding only what the routing sends there, no member held
    both in a typed slot and in the raw store, a level within the range of
    [int64].  These are the documents the round trip is stated for. *)
Definition span_ok (s : Span) : Prop :=
  span_Type s ≠ ""
  ∧ (∀ k v, span_Raw s !! k = Some v → span_to_raw k v = true)
  ∧ (is_Some (span_Text s) → span_Raw s !! "text" = None)
  ∧ (is_Some (span_Marks s) → span_Raw s !! "marks" = None).

Definition md_ok (md : MarkDef) : Prop :=
  md_Type md ≠ ""
  ∧ (∀ k v, md_Raw md !! k = Some v → md_to_raw k v = true)
  ∧ (md_Key md ≠ "" → md_Raw md !! "_key" = None).

Definition node_ok (n : Node) : Prop :=
  node_Type n ≠ ""
  ∧ (∀ k v, node_Raw n !! k = Some v → node_to_raw k v = true)
  ∧ (node_Key n ≠ "" → node_Raw n !! "_key" = None)
  ∧ (is_Some (node_Style n) → node_Raw n !! "style" = None)
  ∧ (is_Some (node_Children n) → node_Raw n !! "children" = None)
  ∧ (is_Some (node_MarkDefs n) → node_Raw n !! "markDefs" = None)
  ∧ (is_Some (node_ListItem n) → node_Raw n !! "listItem" = None)
  ∧ (is_Some (node_Level n) → node_Raw n !! "level" = None)
  ∧ (∀ l, node_Level n = Some l → min_int64 ≤ l ≤ max_int64)
  ∧ Forall span_ok (elems (node_Children n))
  ∧ Forall md_ok (elems (node_MarkDefs n)).

(** What [Decode] returns: the nil slice when the array has no element,
    otherwise a non-empty slice of nodes in the state the parser leaves
    them in. *)
Definition decoded (doc : Document) : Prop :=
  match doc with
  | None => True
  | Some ns => ns ≠ [] ∧ Forall node_ok ns
  end.

(** ** The input the decoder accepts

    What the parsers require of their input, collected from their error
    returns: the discriminator check, the loop over [marks], the two array
    parsers and the [level] case. *)
Definition accepts_type (obj : gmap string json) : bool :=
  match obj !! "_type" with
  | Some (JString ts) => bool_decide (ts ≠ "")
  | _ => false
  end.

Definition accepts_marks (v : option json) : bool :=
  match v with
  | None | Some JNull => true
  | Some (JArray a) => forallb is_JString a
  | Some _ => false
  end.

Definition accepts_span (b : json) : bool :=
  match b with
  | JObject obj => accepts_type obj && accepts_marks (obj !! "marks")
  | _ => false
  end.

Definition accepts_markDef (b : json) : bool :=
  match b with
  | JObject obj => accepts_type obj
  | _ => false
  end.

Definition accepts_array (elem : json → bool) (v : option json) : bool :=
  match v with
  | None | Some JNull => true
  | Some (JArray a) => forallb elem a
  | Some _ => false
  end.

Definition accepts_level (v : option json) : bool :=
  match v with
  | Some (JNumber lit) => bool_decide (is_Some (Number_Int64 lit))
  | _ => true
  end.

Definition accepts_node (b : json) : bool :=
  match b with
  | JObject obj =>
      accepts_type obj
      && accepts_array accepts_span (obj !! "children")
      && accepts_array accepts_markDef (obj !! "markDefs")
      && accepts_level (obj !! "level")
  | _ => false
  end.

Definition accepts_document (r : json) : bool :=
  match r with
  | JArray items => forallb accepts_node items
  | _ => false
  end.

(** The members one iteration of the loops of [parseSpan] and [parseNode]
    lets pass. *)
Definition span_field_ok (k : string) (v : json) : bool :=
  if decide (k = "marks") then accepts_marks (Some v) else true.

Definition node_field_ok (k : string) (v : json) : bool :=
  if decide (k = "children") then accepts_array accepts_span (Some v)
  else if decide (k = "markDefs") then accepts_array accepts_markDef (Some v)
  else if decide (k = "level") then accepts_level (Some v)
  else true.

(** ** What the validator checks

    The checks of [ValidateWithOptions], one conjunct per [append] of the
    source: a node passes when none of them fires. *)
Definition child_valid (opts : ValidationOptions) (mds : list MarkDef)
    (c : Span) : Prop :=
  span_Type c ≠ ""
  ∧ (span_Type c = "span" →
       (∃ t, span_Text c = Some t ∧ (AllowEmptyText opts = false → t ≠ ""))
       ∧ (CheckMarkDefRefs opts = true →
            ∀ mark, mark ∈ elems (span_Marks c) → mark ∈ md_Key <$> mds)).

Definition markDef_valid (md : MarkDef) : Prop :=
  md_Type md ≠ "" ∧ md_Key md ≠ "".

Definition node_valid (opts : ValidationOptions) (n : Node) : Prop :=
  node_Type n ≠ ""
  ∧ (RequireKeys opts = true → node_Key n ≠ "")
  ∧ (node_Type n = "block" →
       Forall (child_valid opts (elems (node_MarkDefs n))) (elems (node_Children n))
       ∧ Forall markDef_valid (elems (node_MarkDefs n))).

(** The diagnostic of an unresolved mark. *)
Definition mark_not_found (cpath : string) (i : nat) (mark : string)
  : ValidationError :=
  mkVErr cpath ("mark '" +:+ mark +:+ "' not found in markDefs") i.

(** A current document as release 0.1.0 holds it. *)
Definition doc_to_V010 (doc : Document) : option (list V010.Node) :=
  match doc with
  | Some ns => Some (to_V010 <$> ns)
  | None => None
  end.

(** ** The store model: pointers, slices and maps as locations

    [Clone] and [Filter] are about sharing, so this module keeps what Go
    keeps behind a reference in a heap: the target of a [*string] or
    [*int], the backing array of a slice, a map.  A reference is an
    [option loc], [None] being nil.  A slice is the reference to a cell
    holding exactly its elements (no spare capacity, no sub-slicing: the
    code makes none).  The values of a raw store are the ones the decoder
    produces and [deepCopyAny] names in its cases: nil, bool, string,
    [json.Number], [[]any], [map[string]any], [json.RawMessage] and
    [[]byte].

    A computation is a function of the heap that returns a value and a new
    heap, or nothing when it reads a location that holds no cell of the
    expected kind or when the fuel of a recursive copy runs out. *)
Module Mem.

Abbreviation loc := positive (only parsing).

Inductive any : Type :=
| ANil
| ABool (b : bool)
| ANumber (lit : string)
| AString (s : string)
| ASlice (p : option loc)
| AMap (p : option loc)
| ARawMessage (p : option loc)
| ABytes (p : option loc).

Record Span : Type := mkSpan {
  span_Type : string;
  span_Text : option loc;
  span_Marks : option loc;
  span_Raw : option loc
}.

Record MarkDef : Type := mkMarkDef {
  md_Key : string;
  md_Type : string;
  md_Raw : option loc
}.

Record Node : Type := mkNode {
  node_Type : string;
  node_Key : string;
  node_Style : option loc;
  node_Children : option loc;
  node_MarkDefs : option loc;
  node_ListItem : option loc;
  node_Level : option loc;
  node_Raw : option loc
}.

Inductive cell : Type :=
| CString (s : string)
| CInt (z : Z)
| CStrings (l : list string)
| CBytes (l : list Byte.byte)
| CAnys (l : list any)
| CMap (m : gmap string any)
| CSpans (l : list Span)
| CMarkDefs (l : list MarkDef)
| CNodes (l : list Node).

Abbreviation heap := (gmap loc cell) (only parsing).

(** *** Computations on the heap *)

Definition M (A : Type) : Type := heap → option (A * heap).

Definition ret {A} (a : A) : M A := λ h, Some (a, h).

Definition bind {A B} (m : M A) (k : A → M B) : M B :=
  λ h, match m h with
       | Some (a, h') => k a h'
       | None => None
       end.

Definition fail {A} : M A := λ _, None.

Notation "'let*' x ':=' m 'in' k" := (bind m (λ x, k))
  (at level 10, x name, m at level 100, k at level 200,
   only parsing).

(** [new] / [make] / [&x]: a cell at an address not in use. *)
Definition alloc (c : cell) : M loc :=
  λ h, let l := fresh (dom h) in Some (l, <[l := c]> h).

Definition read (l : loc) : M cell :=
  λ h, match h !! l with
       | Some c => Some (c, h)
       | None => None
       end.

Definition read_string (l : loc) : M string :=
  let* c := read l in match c with CString s => ret s | _ => fail end.
Definition read_int (l : loc) : M Z :=
  let* c := read l in match c with CInt z => ret z | _ => fail end.
Definition read_strings (l : loc) : M (list string) :=
  let* c := read l in match c with CStrings x => ret x | _ => fail end.
Definition read_bytes (l : loc) : M (list Byte.byte) :=
  let* c := read l in match c with CBytes x => ret x | _ => fail end.
Definition read_anys (l : loc) : M (list any) :=
  let* c := read l in match c with CAnys x => ret x | _ => fail end.
Definition read_map (l : loc) : M (gmap string any) :=
  let* c := read l in match c with CMap x => ret x | _ => fail end.
Definition read_spans (l : loc) : M (list Span) :=
  let* c := read l in match c with CSpans x => ret x | _ => fail end.
Definition read_markDefs (l : loc) : M (list MarkDef) :=
  let* c := read l in match c with CMarkDefs x => ret x | _ => fail end.
Definition read_nodes (l : loc) : M (list Node) :=
  let* c := read l in match c with CNodes x => ret x | _ => fail end.

(** [for i := range x { out[i] = f(x[i]) }] *)
Fixpoint for_each {A B} (f : A → M B) (xs : list A) : M (list B) :=
  match xs with
  | [] => ret []
  | x :: rest =>
      let* y := f x in
      let* ys := for_each f rest in
      ret (y :: ys)
  end.

(** [for k, v := range m { out[k] = f(v) }] *)
Fixpoint for_each_entry (f : any → M any) (kvs : list (string * any))
    (out : gmap string any) : M (gmap string any) :=
  match kvs with
  | [] => ret out
  | (k, v) :: rest =>
      let* v' := f v in
      for_each_entry f rest (<[k := v']> out)
  end.

(** *** Deep copy helpers (for Clone) *)

(** [deepCopyMap], over the copy function for the values.  The new cell
    is put on the heap once its contents are known; Go allocates it
    first and fills it, which gives other addresses and the same
    sharing. *)
Definition deepCopyMap_with (copy : any → M any) (m : option loc)
  : M (option loc) :=
  match m with
  | None => ret None
  | Some l =>
      let* x := read_map l in
      let* out := for_each_entry copy (map_to_list x) ∅ in
      let* q := alloc (CMap out) in
      ret (Some q)
  end.

(** A nil slice has no element to read. *)
Definition slice_elems {A} (rd : loc → M (list A)) (p : option loc)
  : M (list A) :=
  match p with
  | None => ret []
  | Some l => rd l
  end.

(** [deepCopyAny]; the recursion follows the references of the heap, so
    it is driven by [fuel].  [make] gives a non-nil slice also for no
    element. *)
Fixpoint deepCopyAny (fuel : nat) (v : any) : M any :=
  match fuel with
  | O => fail
  | S fuel' =>
      match v with
      | AMap x =>
          let* q := deepCopyMap_with (deepCopyAny fuel') x in
          ret (AMap q)
      | ASlice x =>
          let* xs := slice_elems read_anys x in
          let* out := for_each (deepCopyAny fuel') xs in
          let* q := alloc (CAnys out) in
          ret (ASlice (Some q))
      | ARawMessage x =>
          let* bs := slice_elems read_bytes x in
          let* q := alloc (CBytes bs) in
          ret (ARawMessage (Some q))
      | ABytes x =>
          let* bs := slice_elems read_bytes x in
          let* q := alloc (CBytes bs) in
          ret (ABytes (Some q))
      | _ => ret v
      end
  end.

Definition deepCopyMap (fuel : nat) (m : option loc) : M (option loc) :=
  deepCopyMap_with (deepCopyAny fuel) m.

(** [if p != nil { s := *p; out = &s }] *)
Definition copy_string_ptr (p : option loc) : M (option loc) :=
  match p with
  | None => ret None
  | Some l =>
      let* s := read_string l in
      let* q := alloc (CString s) in
      ret (Some q)
  end.

Definition copy_int_ptr (p : option loc) : M (option loc) :=
  match p with
  | None => ret None
  | Some l =>
      let* z := read_int l in
      let* q := alloc (CInt z) in
      ret (Some q)
  end.

(** [append([]string(nil), marks...)]: appending no element to the nil
    slice returns the nil slice; otherwise a new backing array. *)
Definition append_to_nil (marks : list string) : M (option loc) :=
  match marks with
  | [] => ret None
  | _ =>
      let* q := alloc (CStrings marks) in
      ret (Some q)
  end.

(** The body of the loop of [cloneSpans]. *)
Definition cloneSpan (fuel : nat) (s : Span) : M Span :=
  let* text := copy_string_ptr (span_Text s) in
  let* marks :=
    match span_Marks s with
    | None => ret None
    | Some l =>
        let* ms := read_strings l in
        append_to_nil ms
    end in
  let* raw := deepCopyMap fuel (span_Raw s) in
  ret (mkSpan (span_Type s) text marks raw).

Definition cloneSpans (fuel : nat) (inp : option loc) : M (option loc) :=
  match inp with
  | None => ret None
  | Some l =>
      let* xs := read_spans l in
      let* out := for_each (cloneSpan fuel) xs in
      let* q := alloc (CSpans out) in
      ret (Some q)
  end.

Definition cloneMarkDef (fuel : nat) (md : MarkDef) : M MarkDef :=
  let* raw := deepCopyMap fuel (md_Raw md) in
  ret (mkMarkDef (md_Key md) (md_Type md) raw).

Definition cloneMarkDefs (fuel : nat) (inp : option loc) : M (option loc) :=
  match inp with
  | None => ret None
  | Some l =>
      let* xs := read_markDefs l in
      let* out := for_each (cloneMarkDef fuel) xs in
      let* q := alloc (CMarkDefs out) in
      ret (Some q)
  end.

(** [Clone], on the node the receiver points to; the result is the node
    [*out]. *)
Definition Clone (fuel : nat) (n : Node) : M Node :=
  let* style := copy_string_ptr (node_Style n) in
  let* listItem := copy_string_ptr (node_ListItem n) in
  let* level := copy_int_ptr (node_Level n) in
  let* children := cloneSpans fuel (node_Children n) in
  let* markDefs := cloneMarkDefs fuel (node_MarkDefs n) in
  let* raw := deepCopyMap fuel (node_Raw n) in
  ret (mkNode (node_Type n) (node_Key n) style children markDefs
         listItem level raw).

(** [Filter].  The predicate inspects the node through the heap.  The
    result slice is laid down once: the arrays [append] abandons while
    it grows are not kept. *)
Fixpoint Filter_loop (fuel : nat) (pred : heap → Node → bool)
    (ns : list Node) (result : list Node) : M (list Node) :=
  match ns with
  | [] => ret result
  | n :: rest =>
      λ h, if pred h n
           then (let* c := Clone fuel n in
                 Filter_loop fuel pred rest (result ++ [c])) h
           else Filter_loop fuel pred rest result h
  end.

Definition Filter (fuel : nat) (doc : option loc) (pred : heap → Node → bool)
  : M (option loc) :=
  let* ns := slice_elems read_nodes doc in
  let* result := Filter_loop fuel pred ns [] in
  let* q := alloc (CNodes result) in
  ret (Some q).

(** [Transform].  The callback receives the pointer to the clone; what
    it does to the clone and what it returns (nil, the clone, another
    node) is a computation on the heap that returns the node to append,
    if any. *)
Fixpoint Transform_loop (fuel : nat) (fn : Node → M (option Node))
    (ns : list Node) (result : list Node) : M (list Node) :=
  match ns with
  | [] => ret result
  | n :: rest =>
      let* c := Clone fuel n in
      let* transformed := fn c in
      match transformed with
      | Some t => Transform_loop fuel fn rest (result ++ [t])
      | None => Transform_loop fuel fn rest result
      end
  end.

Definition Transform (fuel : nat) (doc : option loc)
    (fn : Node → M (option Node)) : M (option loc) :=
  let* ns := slice_elems read_nodes doc in
  let* result := Transform_loop fuel fn ns [] in
  let* q := alloc (CNodes result) in
  ret (Some q).

(** *** The references a value holds *)

Definition locs_ref (p : option loc) : gset loc :=
  match p with
  | None => ∅
  | Some l => {[ l ]}
  end.

Definition locs_any (v : any) : gset loc :=
  match v with
  | ASlice p | AMap p | ARawMessage p | ABytes p => locs_ref p
  | _ => ∅
  end.

Definition locs_span (s : Span) : gset loc :=
  locs_ref (span_Text s) ∪ locs_ref (span_Marks s) ∪ locs_ref (span_Raw s).

Definition locs_markDef (md : MarkDef) : gset loc := locs_ref (md_Raw md).

Definition locs_node (n : Node) : gset loc :=
  locs_ref (node_Style n) ∪ locs_ref (node_Children n)
  ∪ locs_ref (node_MarkDefs n) ∪ locs_ref (node_ListItem n)
  ∪ locs_ref (node_Level n) ∪ locs_ref (node_Raw n).

Definition locs_list {A} (f : A → gset loc) (xs : list A) : gset loc :=
  ⋃ (f <$> xs).

Definition locs_cell (c : cell) : gset loc :=
  match c with
  | CAnys l => locs_list locs_any l
  | CMap m => locs_list locs_any (snd <$> map_to_list m)
  | CSpans l => locs_list locs_span l
  | CMarkDefs l => locs_list locs_markDef l
  | CNodes l => locs_list locs_node l
  | _ => ∅
  end.

(** [reach h X l]: [l] is one of the roots [X] or is referred to by a
    cell at a reachable location. *)
Inductive reach (h : heap) (X : gset loc) : loc → Prop :=
| reach_root l : l ∈ X → reach h X l
| reach_step l0 c l :
    reach h X l0 → h !! l0 = Some c → l ∈ locs_cell c → reach h X l.

(** [extends h0 h]: [h] keeps every cell of [h0] as it is, and the cells
    it adds refer to added cells only. *)
Definition extends (h0 h : heap) : Prop :=
  h0 ⊆ h
  ∧ ∀ l c, h !! l = Some c → h0 !! l = None → locs_cell c ⊆ dom h ∖ dom h0.

(** What a copying computation guarantees, relative to a base heap [h0]:
    the heap still extends [h0], it has only grown, and the references of
    the result are cells added since [h0]. *)
Definition copies {A} (locs : A → gset loc) (m : M A) : Prop :=
  ∀ h0 h a h', extends h0 h → m h = Some (a, h') →
    extends h0 h' ∧ h ⊆ h' ∧ locs a ⊆ dom h' ∖ dom h0.

(** *** Heaps a copy terminates on

    [typed_any d h v]: the references in [v] lead, within depth [d], to
    cells of the kind their type announces. *)
Fixpoint typed_any (d : nat) (h : heap) (v : any) : Prop :=
  match d with
  | O => False
  | S d' =>
      match v with
      | AMap (Some l) =>
          ∃ m, h !! l = Some (CMap m)
               ∧ Forall (typed_any d' h) (snd <$> map_to_list m)
      | ASlice (Some l) =>
          ∃ xs, h !! l = Some (CAnys xs) ∧ Forall (typed_any d' h) xs
      | ARawMessage (Some l) | ABytes (Some l) =>
          ∃ bs, h !! l = Some (CBytes bs)
      | _ => True
      end
  end.

Definition typed_raw (d : nat) (h : heap) (p : option loc) : Prop :=
  typed_any (S d) h (AMap p).

Definition typed_string_ptr (h : heap) (p : option loc) : Prop :=
  match p with
  | None => True
  | Some l => ∃ s, h !! l = Some (CString s)
  end.

Definition typed_int_ptr (h : heap) (p : option loc) : Prop :=
  match p with
  | None => True
  | Some l => ∃ z, h !! l = Some (CInt z)
  end.

Definition typed_span (d : nat) (h : heap) (s : Span) : Prop :=
  typed_string_ptr h (span_Text s)
  ∧ match span_Marks s with
    | None => True
    | Some l => ∃ ms, h !! l = Some (CStrings ms)
    end
  ∧ typed_raw d h (span_Raw s).

Definition typed_markDef (d : nat) (h : heap) (md : MarkDef) : Prop :=
  typed_raw d h (md_Raw md).

Definition typed_node (d : nat) (h : heap) (n : Node) : Prop :=
  typed_string_ptr h (node_Style n)
  ∧ typed_string_ptr h (node_ListItem n)
  ∧ typed_int_ptr h (node_Level n)
  ∧ match node_Children n with
    | None => True
    | Some l => ∃ xs, h !! l = Some (CSpans xs) ∧ Forall (typed_span d h) xs
    end
  ∧ match node_MarkDefs n with
    | None => True
    | Some l => ∃ xs, h !! l = Some (CMarkDefs xs)
                      ∧ Forall (typed_markDef d h) xs
    end
  ∧ typed_raw d h (node_Raw n).

Definition typed_doc (d : nat) (h : heap) (doc : option loc)
    (ns : list Node) : Prop :=
  match doc with
  | None => ns = []
  | Some l => h !! l = Some (CNodes ns)
  end
  ∧ Forall (typed_node d h) ns.

End Mem.

(* ====================================================================== *)
(** * Properties *)
(* ====================================================================== *)

(** ** Validation: diagnostics accumulate *)

Section ValidationFacts.
Implicit Types (opts : ValidationOptions) (errs : list ValidationError).

Lemma validate_marks_acc cpath i m marks errs :
  validate_marks cpath i m marks errs = errs ++ validate_marks cpath i m marks [].
Proof.
  revert errs. induction marks as [|mark rest IH]; intros errs; simpl.
  - by rewrite app_nil_r.
  - destruct (markDefMap_get m mark).
    + apply IH.
    + rewrite IH. rewrite (IH [_]). by rewrite app_assoc.
Qed.

Lemma validate_child_acc opts path i m j c errs :
  validate_child opts path i m j c errs
  = errs ++ validate_child opts path i m j c [].
Proof.
  unfold validate_child.
  repeat case_decide; try done; try by rewrite app_nil_r.
  destruct (CheckMarkDefRefs opts), (span_Text c) as [t|];
    try destruct (negb (AllowEmptyText opts) && bool_decide (t = ""));
    simpl; rewrite ?app_nil_r; try done;
    rewrite validate_marks_acc; symmetry; rewrite validate_marks_acc;
    by rewrite ?app_assoc, ?app_nil_r.
Qed.

Lemma validate_children_acc opts path i m j cs errs :
  validate_children opts path i m j cs errs
  = errs ++ validate_children opts path i m j cs [].
Proof.
  revert j errs. induction cs as [|c rest IH]; intros j errs; simpl.
  - by rewrite app_nil_r.
  - rewrite IH, validate_child_acc. symmetry. rewrite IH. by rewrite app_assoc.
Qed.

Lemma validate_markDef_acc path i j md errs :
  validate_markDef path i j md errs = errs ++ validate_markDef path i j md [].
Proof.
  unfold validate_markDef.
  repeat case_decide; rewrite ?app_nil_r, <-?app_assoc; done.
Qed.

Lemma validate_markDefs_acc path i j mds errs :
  validate_markDefs path i j mds errs = errs ++ validate_markDefs path i j mds [].
Proof.
  revert j errs. induction mds as [|md rest IH]; intros j errs; simpl.
  - by rewrite app_nil_r.
  - rewrite IH, validate_markDef_acc. symmetry. rewrite IH. by rewrite app_assoc.
Qed.

Lemma validate_node_acc opts i n errs :
  validate_node opts i n errs = errs ++ validate_node opts i n [].
Proof.
  unfold validate_node.
  destruct (decide (node_Type n = "")) as [|_]; [done|].
  destruct (decide (node_Type n = "block")) as [_|_].
  - rewrite validate_markDefs_acc, validate_children_acc.
    symmetry. rewrite validate_markDefs_acc, validate_children_acc.
    destruct (RequireKeys opts && bool_decide (node_Key n = ""));
      by rewrite ?app_nil_l, ?app_nil_r, ?app_assoc.
  - destruct (RequireKeys opts && bool_decide (node_Key n = ""));
      by rewrite ?app_nil_l, ?app_nil_r.
Qed.

Lemma validate_nodes_acc opts i ns errs :
  validate_nodes opts i ns errs = errs ++ validate_nodes opts i ns [].
Proof.
  revert i errs. induction ns as [|n rest IH]; intros i errs; simpl.
  - by rewrite app_nil_r.
  - rewrite IH, validate_node_acc. symmetry. rewrite IH. by rewrite app_assoc.
Qed.

(** The diagnostics of a run of nodes starting at index [i] are the
    per-node diagnostics, concatenated in document order. *)
Lemma validate_nodes_concat opts i ns :
  validate_nodes opts i ns []
  = concat (imap (λ j n, validate_node opts (i + j) n []) ns).
Proof.
  revert i. induction ns as [|n rest IH]; intros i; simpl; [done|].
  rewrite validate_nodes_acc, IH, Nat.add_0_r. f_equal. f_equal.
  apply imap_ext. intros j x _. simpl. f_equal. lia.
Qed.
End ValidationFacts.

(** C9.  [Validate] is [ValidateWithOptions] at the zero-value options,
    all three flags false: the two return the same diagnostics, in the same
    order, with the same paths and messages. *)
Theorem Validate_is_zero_options (doc : Document) :
  Validate doc = ValidateWithOptions doc (mkOpts false false false).
Proof. reflexivity. Qed.

(** C5.  Validation is total and never stops at a finding: the result for
    a document is the concatenation, in document order, of what each node
    contributes on its own.  A node with an empty discriminator next to a
    block whose only child is a span without text gives exactly two
    diagnostics. *)
Theorem validate_accumulates (opts : ValidationOptions) (ns : list Node)
    (n0 n1 : Node) (c : Span) :
  node_Type n0 = "" →
  node_Type n1 = "block" →
  node_Children n1 = Some [c] →
  span_Type c = "span" →
  span_Text c = None →
  elems (node_MarkDefs n1) = [] →
  RequireKeys opts = false ∨ node_Key n1 ≠ "" →
  CheckMarkDefRefs opts = false ∨ elems (span_Marks c) = [] →
  ValidateWithOptions (Some ns) opts
    = concat (imap (λ i n, validate_node opts i n []) ns)
  ∧ ValidateWithOptions (Some [n0; n1]) opts
    = [mkVErr "[0]" "missing _type" 0;
       mkVErr "[1].children[0]" "span missing text" 1]
  ∧ length (Validate (Some [n0; n1])) = 2%nat.
Proof.
  intros Ht0 Ht1 Hc Hct Htx Hmd Hk Hm.
  assert (Hgen : ∀ o, RequireKeys o = false ∨ node_Key n1 ≠ "" →
             CheckMarkDefRefs o = false ∨ elems (span_Marks c) = [] →
             ValidateWithOptions (Some [n0; n1]) o
             = [mkVErr "[0]" "missing _type" 0;
                mkVErr "[1].children[0]" "span missing text" 1]).
  { intros o Hk' Hm'. unfold ValidateWithOptions. simpl.
    unfold validate_node. rewrite Ht0, Ht1, Hc, Hmd. simpl.
    unfold validate_child. rewrite Hct, Htx. simpl.
    assert (RequireKeys o && bool_decide (node_Key n1 = "") = false) as ->.
    { destruct Hk' as [->|Hne]; [done|].
      rewrite bool_decide_eq_false_2 by done. apply andb_false_r. }
    destruct Hm' as [->| ->]; [done|]. by destruct (CheckMarkDefRefs o). }
  split; [|split].
  - unfold ValidateWithOptions. simpl. by rewrite validate_nodes_concat.
  - by apply Hgen.
  - unfold Validate. rewrite Hgen; [done|by left|by left].
Qed.

Lemma validate_accumulates_witness :
  let n0 := mkNode "" "" None None None None None ∅ in
  let c := mkSpan "span" None None ∅ in
  let n1 := mkNode "block" "" None (Some [c]) None None None ∅ in
  length (Validate (Some [n0; n1])) = 2%nat.
Proof.
  intros n0 c n1.
  apply (validate_accumulates zero_options [] n0 n1 c);
    first [reflexivity | by left].
Defined.

(** C6.  With [CheckMarkDefRefs] switched on, a block with no mark
    definitions and one span with non-empty text and marks [["link1"]]
    gives exactly one diagnostic, naming the unresolved mark; with the
    mark definition of key ["link1"] in place there is none. *)
Theorem mark_reference_check (n : Node) (c : Span) (t : string) (a : bool)
    (md : MarkDef) :
  node_Type n = "block" →
  node_Children n = Some [c] →
  span_Type c = "span" →
  span_Text c = Some t →
  t ≠ "" →
  span_Marks c = Some ["link1"] →
  (elems (node_MarkDefs n) = [] →
     ValidateWithOptions (Some [n]) (mkOpts false true a)
     = [mkVErr "[0].children[0]" "mark 'link1' not found in markDefs" 0])
  ∧ (node_MarkDefs n = Some [md] → md_Key md = "link1" → md_Type md = "link" →
     ValidateWithOptions (Some [n]) (mkOpts false true a) = []).
Proof.
  intros Ht Hc Hct Htx Hne Hm.
  assert (Hempty : negb a && bool_decide (t = "") = false).
  { rewrite bool_decide_eq_false_2 by done. apply andb_false_r. }
  split.
  - intros Hmd. unfold ValidateWithOptions. simpl.
    unfold validate_node. rewrite Ht, Hc, Hmd. simpl.
    unfold validate_child. rewrite Hct, Htx, Hm. simpl.
    by rewrite Hempty.
  - intros Hmd Hk Hty. unfold ValidateWithOptions. simpl.
    unfold validate_node. rewrite Ht, Hc, Hmd. simpl.
    unfold validate_child, validate_markDef. rewrite Hct, Htx, Hm, Hk, Hty. simpl.
    assert (markDefMap_get (build_markDefMap [md]) "link1" = true) as ->.
    { unfold markDefMap_get, build_markDefMap. simpl.
      rewrite Hk. by rewrite lookup_insert_eq. }
    by rewrite Hempty.
Qed.

Lemma mark_reference_check_witness :
  let c := mkSpan "span" (Some "Hi") (Some ["link1"]) ∅ in
  let md := mkMarkDef "link1" "link" ∅ in
  ValidateWithOptions
    (Some [mkNode "block" "" None (Some [c]) (Some []) None None ∅])
    (mkOpts false true false)
  = [mkVErr "[0].children[0]" "mark 'link1' not found in markDefs" 0]
  ∧ ValidateWithOptions
      (Some [mkNode "block" "" None (Some [c]) (Some [md]) None None ∅])
      (mkOpts false true false)
    = [].
Proof.
  intros c md. split.
  - apply (mark_reference_check
             (mkNode "block" "" None (Some [c]) (Some []) None None ∅)
             c "Hi" false md); done.
  - apply (mark_reference_check
             (mkNode "block" "" None (Some [c]) (Some [md]) None None ∅)
             c "Hi" false md); done.
Defined.

(** C4, as stated, fails: the zero-value options have [AllowEmptyText]
    false, and a block whose span has present but empty text is flagged
    by [Validate]. *)
Lemma default_options_flag_empty_text :
  let c := mkSpan "span" (Some "") None ∅ in
  let n := mkNode "block" "" None (Some [c]) None None None ∅ in
  AllowEmptyText zero_options = false
  ∧ Validate (Some [n]) = [mkVErr "[0].children[0]" "span has empty text" 0]
  ∧ ¬ (∀ (b : Node) (s : Span),
         node_Type b = "block" → node_Children b = Some [s] →
         span_Type s = "span" → span_Text s = Some "" →
         Validate (Some [b]) = []).
Proof.
  intros c n. split; [done|]. split; [done|].
  intros H. specialize (H n c eq_refl eq_refl eq_refl eq_refl). discriminate H.
Qed.

(** C4, amended.  [RequireKeys] and [CheckMarkDefRefs] default to off, but
    [AllowEmptyText] defaults to false, its strict setting: with the default
    options a block whose span child has present but zero-length text gets
    exactly one diagnostic for that span, and it is the non-default
    [AllowEmptyText = true] that leaves such a span unflagged. *)
Theorem default_options_empty_text (n : Node) (c : Span) :
  node_Type n = "block" →
  node_Children n = Some [c] →
  span_Type c = "span" →
  span_Text c = Some "" →
  elems (node_MarkDefs n) = [] →
  RequireKeys zero_options = false
  ∧ CheckMarkDefRefs zero_options = false
  ∧ AllowEmptyText zero_options = false
  ∧ Validate (Some [n]) = [mkVErr "[0].children[0]" "span has empty text" 0]
  ∧ ValidateWithOptions (Some [n]) (mkOpts false false true) = [].
Proof.
  intros Ht Hc Hct Htx Hmd. repeat split.
  - unfold Validate, ValidateWithOptions. simpl.
    unfold validate_node. rewrite Ht, Hc, Hmd. simpl.
    unfold validate_child. by rewrite Hct, Htx.
  - unfold ValidateWithOptions. simpl.
    unfold validate_node. rewrite Ht, Hc, Hmd. simpl.
    unfold validate_child. by rewrite Hct, Htx.
Qed.

Lemma default_options_empty_text_witness :
  let c := mkSpan "span" (Some "") None ∅ in
  let n := mkNode "block" "k" None (Some [c]) None None None ∅ in
  Validate (Some [n]) = [mkVErr "[0].children[0]" "span has empty text" 0]
  ∧ ValidateWithOptions (Some [n]) (mkOpts false false true) = [].
Proof.
  intros c n.
  destruct (default_options_empty_text n c) as (_ & _ & _ & H1 & H2);
    [reflexivity..|].
  exact (conj H1 H2).
Defined.

(** ** Walk *)

(** What a traced run of [Walk_loop] leaves behind: the log grows by the
    nodes handed to the callback, a prefix of the nodes still to visit;
    the nodes after that prefix are untouched; without an error the prefix
    is everything, and an error is the one the callback returned for the
    last node of the prefix. *)
Lemma Walk_loop_traced {St E} (fn : @callback St E) rest :
  ∀ visited s log doc' s' log' err,
    Walk_loop (traced fn) visited rest (s, log) = (doc', (s', log'), err) →
    ∃ k, (k ≤ length rest)%nat
      ∧ log' = log ++ take k rest
      ∧ drop (length visited + k) doc' = drop k rest
      ∧ match err with
        | None => k = length rest
        | Some e => ∃ n sb n', (0 < k)%nat ∧ rest !! (k - 1)%nat = Some n
                               ∧ fn n sb = (n', s', Some e)
        end.
Proof.
  induction rest as [|n rest IH]; intros visited s log doc' s' log' err Hw.
  - simpl in Hw. inversion Hw; subst. exists 0%nat.
    rewrite app_nil_r, Nat.add_0_r, drop_all. done.
  - simpl in Hw. destruct (fn n s) as [[n1 s1] [e|]] eqn:Hfn.
    + inversion Hw; subst. exists 1%nat. simpl. split; [lia|].
      split; [by rewrite take_0|]. split.
      * by rewrite drop_app_add, drop_0.
      * exists n, s, n1. split; [lia|]. split; done.
    + apply IH in Hw as (k & Hk & Hlog & Hdrop & Herr).
      exists (S k). simpl. split; [lia|]. split.
      { by rewrite Hlog, <-app_assoc. }
      split.
      { rewrite length_app in Hdrop. simpl in Hdrop.
        by replace (length visited + S k)%nat with (length visited + 1 + k)%nat by lia. }
      destruct err as [e|]; [|by rewrite Herr].
      destruct Herr as (n' & sb & n'' & Hpos & Hlk & Hfn').
      exists n', sb, n''. split; [lia|]. split; [|done].
      rewrite Nat.sub_0_r. destruct k; [lia|]. simpl in Hlk.
      by rewrite Nat.sub_0_r in Hlk.
Qed.

(** C7.  [Walk] hands the nodes to the callback in document order and
    stops at the first error, which it returns unchanged.  On a document
    of three nodes, a callback that returns nil for the first node and an
    error for the second is invoked exactly twice; the third node is
    neither handed to it nor changed. *)
Theorem Walk_early_exit {St E} (fn : @callback St E) (doc : Document) (s : St)
    (n1 n2 n3 n1' n2' : Node) (s0 s1 s2 : St) (e : E) :
  fn n1 s0 = (n1', s1, None) →
  fn n2 s1 = (n2', s2, Some e) →
  (∀ doc' s' log err,
     Walk doc (traced fn) (s, []) = (doc', (s', log), err) →
     ∃ k, (k ≤ length (elems doc))%nat
       ∧ log = take k (elems doc)
       ∧ drop k doc' = drop k (elems doc)
       ∧ match err with
         | None => k = length (elems doc)
         | Some e' => ∃ n sb n', (0 < k)%nat ∧ elems doc !! (k - 1)%nat = Some n
                                 ∧ fn n sb = (n', s', Some e')
         end)
  ∧ Walk (Some [n1; n2; n3]) (traced fn) (s0, [])
    = ([n1'; n2'; n3], (s2, [n1; n2]), Some e).
Proof.
  intros H1 H2. split.
  - intros doc' s' log err Hw. unfold Walk in Hw.
    apply Walk_loop_traced in Hw as (k & Hk & Hlog & Hdrop & Herr).
    exists k. done.
  - unfold Walk, traced. simpl. rewrite H1. simpl. rewrite H2. done.
Qed.

Lemma Walk_early_exit_witness :
  let fn : @callback nat string :=
    λ n count, (n, S count, if decide (S count = 2%nat) then Some "stop" else None) in
  let h k := mkNode "block" "" (Some k) (Some []) (Some []) None None ∅ in
  Walk (Some [h "h1"; h "h2"; h "h3"]) (traced fn) (0%nat, [])
  = ([h "h1"; h "h2"; h "h3"], (2%nat, [h "h1"; h "h2"]), Some "stop").
Proof.
  intros fn h.
  apply (Walk_early_exit fn None 0%nat (h "h1") (h "h2") (h "h3")
           (h "h1") (h "h2") 0%nat 1%nat 2%nat "stop"); reflexivity.
Defined.

(** ** The member loop of the parsers *)

Section RangeObj.
Context {T : Type} (body : string → json → T → result Error T).

(** The loop succeeds when every member can be processed. *)
Lemma range_obj_is_Ok kvs t :
  (∀ k v t0, (k, v) ∈ kvs → is_Ok (body k v t0)) →
  is_Ok (range_obj body kvs t).
Proof.
  revert t. induction kvs as [|[k v] rest IH]; intros t Hall; simpl.
  - by eexists.
  - destruct (Hall k v t) as [t1 ->]; [left|]. simpl.
    apply IH. intros k' v' t0 Hin. apply Hall. by right.
Qed.

(** A member that cannot be processed makes the loop fail. *)
Lemma range_obj_is_Err kvs t k v :
  (k, v) ∈ kvs →
  (∀ t0, is_Err (body k v t0)) →
  is_Err (range_obj body kvs t).
Proof.
  revert t. induction kvs as [|[k' v'] rest IH]; intros t Hin Hbad.
  - by apply elem_of_nil in Hin.
  - simpl. destruct (body k' v' t) as [t1|e] eqn:Hb; simpl; [|by eexists].
    apply elem_of_cons in Hin as [Heq|Hin]; [|by apply IH].
    inversion Heq; subst. destruct (Hbad t) as [e He]. congruence.
Qed.

(** When one member alone can fail, the loop returns that member's
    error, whatever the order of the members. *)
Lemma range_obj_Err_unique kvs t k v e :
  NoDup kvs.*1 →
  (k, v) ∈ kvs →
  (∀ t0, body k v t0 = Err e) →
  (∀ k' v' t0, (k', v') ∈ kvs → k' ≠ k → is_Ok (body k' v' t0)) →
  range_obj body kvs t = Err e.
Proof.
  revert t. induction kvs as [|[k' v'] rest IH]; intros t Hnd Hin Hbad Hothers.
  - by apply elem_of_nil in Hin.
  - simpl. rewrite fmap_cons in Hnd. apply NoDup_cons in Hnd as [Hk Hnd].
    apply elem_of_cons in Hin as [Heq|Hin].
    + inversion Heq; subst. by rewrite Hbad.
    + assert (k' ≠ k) as Hne.
      { intros ->. apply Hk. simpl. apply list_elem_of_fmap. by exists (k, v). }
      destruct (Hothers k' v' t) as [t1 ->]; [left|done|]. simpl.
      apply IH; [done..|]. intros k2 v2 t0 Hin2. apply Hothers. by right.
Qed.

(** An observation [obs] of the entity that only member [k0] can change,
    and changes by [g]. *)
Context {X : Type} (obs : T → X) (k0 : string) (g : json → X → X).
Hypothesis frame :
  ∀ k v t t', k ≠ k0 → body k v t = Ok t' → obs t' = obs t.
Hypothesis effect :
  ∀ v t t', body k0 v t = Ok t' → obs t' = g v (obs t).

Lemma range_obj_obs kvs t t' :
  NoDup kvs.*1 →
  range_obj body kvs t = Ok t' →
  (k0 ∉ kvs.*1 → obs t' = obs t) ∧ (∀ v, (k0, v) ∈ kvs → obs t' = g v (obs t)).
Proof.
  revert t. induction kvs as [|[k v] rest IH]; intros t Hnd Hrun.
  - simpl in Hrun. inversion Hrun; subst. split; [done|].
    intros v Hin. by apply elem_of_nil in Hin.
  - simpl in Hrun. destruct (body k v t) as [t1|e] eqn:Hb; [|done].
    simpl in Hrun. rewrite fmap_cons in Hnd. apply NoDup_cons in Hnd as [Hk Hnd].
    destruct (IH t1 Hnd Hrun) as [IH1 IH2]. split.
    + intros Hnot. rewrite fmap_cons in Hnot. apply not_elem_of_cons in Hnot as [Hne Hnot].
      simpl in Hne. rewrite IH1 by done. eapply frame; [|done]. congruence.
    + intros v0 Hin. apply elem_of_cons in Hin as [Heq|Hin].
      * inversion Heq; subst. rewrite IH1 by done. by eapply effect.
      * rewrite (IH2 v0 Hin). f_equal. eapply frame; [|done].
        intros ->. apply Hk. simpl.
        apply list_elem_of_fmap. by exists (k0, v0).
Qed.

(** The same for the members of an object. *)
Lemma range_obj_map_obs (obj : gmap string json) t t' :
  range_obj body (map_to_list obj) t = Ok t' →
  obs t' = match obj !! k0 with Some v => g v (obs t) | None => obs t end.
Proof.
  intros Hrun.
  destruct (range_obj_obs _ _ _ (NoDup_fst_map_to_list obj) Hrun) as [H1 H2].
  destruct (obj !! k0) as [v|] eqn:Hlk.
  - apply H2. by apply elem_of_map_to_list.
  - apply H1. intros Hin. apply list_elem_of_fmap in Hin as [[k v] [-> Hin]].
    apply elem_of_map_to_list in Hin. simpl in Hlk. congruence.
Qed.
End RangeObj.

(** ** What the parsers store where *)

Local Ltac field_cases :=
  repeat match goal with
    | H : context [decide (?a = ?b)] |- _ => destruct (decide (a = b)); simplify_eq
    | |- context [decide (?a = ?b)] => destruct (decide (a = b)); simplify_eq
    | H : match ?v with _ => _ end = Ok _ |- _ => destruct v eqn:?; simplify_eq
    | H : mbind _ ?r = Ok _ |- _ => destruct r eqn:?; simpl in H; simplify_eq
    end;
  simpl; rewrite ?lookup_insert_eq, ?lookup_insert_ne by done; try done.

Local Ltac by_obs body obs k0 g Hrun :=
  rewrite (range_obj_map_obs body obs k0 g
             ltac:(intros ? ? ? ? ? Hb;
                   unfold parseNode_field, parseSpan_field, parseMarkDef_field in Hb;
                   field_cases)
             ltac:(intros ? ? ? Hb;
                   unfold parseNode_field, parseSpan_field, parseMarkDef_field in Hb;
                   unfold node_to_raw, span_to_raw, md_to_raw;
                   field_cases)
             _ _ _ Hrun).

Section NodeFields.
Variable path : string.
Implicit Types (n : Node) (obj : gmap string json).

Let run obj n := range_obj (parseNode_field path) (map_to_list obj) n.

Lemma parseNode_loop_Type obj n n' :
  run obj n = Ok n' → node_Type n' = node_Type n.
Proof.
  intros Hrun. by_obs (parseNode_field path) node_Type "_type" (λ (_ : json) (x : string), x) Hrun.
  by destruct (obj !! "_type").
Qed.

Lemma parseNode_loop_Key obj n n' :
  run obj n = Ok n' →
  node_Key n' = match obj !! "_key" with
                | Some (JString s) => s
                | _ => node_Key n
                end.
Proof.
  intros Hrun.
  by_obs (parseNode_field path) node_Key "_key"
    (λ v x, match v with JString s => s | _ => x end) Hrun.
  by destruct (obj !! "_key") as [[]|].
Qed.

Lemma parseNode_loop_Style obj n n' :
  run obj n = Ok n' →
  node_Style n' = match obj !! "style" with
                  | Some (JString s) => Some s
                  | _ => node_Style n
                  end.
Proof.
  intros Hrun.
  by_obs (parseNode_field path) node_Style "style"
    (λ v x, match v with JString s => Some s | _ => x end) Hrun.
  by destruct (obj !! "style") as [[]|].
Qed.

Lemma parseNode_loop_ListItem obj n n' :
  run obj n = Ok n' →
  node_ListItem n' = match obj !! "listItem" with
                     | Some (JString s) => Some s
                     | _ => node_ListItem n
                     end.
Proof.
  intros Hrun.
  by_obs (parseNode_field path) node_ListItem "listItem"
    (λ v x, match v with JString s => Some s | _ => x end) Hrun.
  by destruct (obj !! "listItem") as [[]|].
Qed.

Lemma parseNode_loop_Level obj n n' :
  run obj n = Ok n' →
  node_Level n' = match obj !! "level" with
                  | Some (JNumber lit) =>
                      match Number_Int64 lit with
                      | Some iv => Some iv
                      | None => node_Level n
                      end
                  | _ => node_Level n
                  end.
Proof.
  intros Hrun.
  by_obs (parseNode_field path) node_Level "level"
    (λ v x, match v with
            | JNumber lit =>
                match Number_Int64 lit with Some iv => Some iv | None => x end
            | _ => x
            end) Hrun.
  by destruct (obj !! "level") as [[]|].
Qed.

Lemma parseNode_loop_Children obj n n' :
  run obj n = Ok n' →
  node_Children n' = match obj !! "children" with
                     | Some JNull | None => node_Children n
                     | Some v =>
                         match parseSpanArray v (path +:+ ".children") with
                         | Ok c => Some c
                         | Err _ => node_Children n
                         end
                     end.
Proof.
  intros Hrun.
  by_obs (parseNode_field path) node_Children "children"
    (λ v x, match v with
            | JNull => x
            | _ => match parseSpanArray v (path +:+ ".children") with
                   | Ok c => Some c
                   | Err _ => x
                   end
            end) Hrun.
  by destruct (obj !! "children") as [[]|].
Qed.

Lemma parseNode_loop_MarkDefs obj n n' :
  run obj n = Ok n' →
  node_MarkDefs n' = match obj !! "markDefs" with
                     | Some JNull | None => node_MarkDefs n
                     | Some v =>
                         match parseMarkDefArray v (path +:+ ".markDefs") with
                         | Ok c => Some c
                         | Err _ => node_MarkDefs n
                         end
                     end.
Proof.
  intros Hrun.
  by_obs (parseNode_field path) node_MarkDefs "markDefs"
    (λ v x, match v with
            | JNull => x
            | _ => match parseMarkDefArray v (path +:+ ".markDefs") with
                   | Ok c => Some c
                   | Err _ => x
                   end
            end) Hrun.
  by destruct (obj !! "markDefs") as [[]|].
Qed.

Lemma parseNode_loop_Raw obj n n' k :
  run obj n = Ok n' →
  node_Raw n' !! k = match obj !! k with
                     | Some v => if node_to_raw k v then Some v else node_Raw n !! k
                     | None => node_Raw n !! k
                     end.
Proof.
  intros Hrun.
  by_obs (parseNode_field path) (λ n, node_Raw n !! k) k
    (λ v x, if node_to_raw k v then Some v else x) Hrun.
  done.
Qed.
End NodeFields.

Section SpanFields.
Variable path : string.
Implicit Types (s : Span) (obj : gmap string json).

Let run obj s := range_obj (parseSpan_field path) (map_to_list obj) s.

Lemma parseSpan_loop_Type obj s s' :
  run obj s = Ok s' → span_Type s' = span_Type s.
Proof.
  intros Hrun.
  by_obs (parseSpan_field path) span_Type "_type" (λ (_ : json) (x : string), x) Hrun.
  by destruct (obj !! "_type").
Qed.

Lemma parseSpan_loop_Text obj s s' :
  run obj s = Ok s' →
  span_Text s' = match obj !! "text" with
                 | Some (JString str) => Some str
                 | _ => span_Text s
                 end.
Proof.
  intros Hrun.
  by_obs (parseSpan_field path) span_Text "text"
    (λ v x, match v with JString str => Some str | _ => x end) Hrun.
  by destruct (obj !! "text") as [[]|].
Qed.

Lemma parseSpan_loop_Marks obj s s' :
  run obj s = Ok s' →
  span_Marks s' = match obj !! "marks" with
                  | Some (JArray a) =>
                      match parseMarks a [] with
                      | Some marks => Some marks
                      | None => span_Marks s
                      end
                  | _ => span_Marks s
                  end.
Proof.
  intros Hrun.
  by_obs (parseSpan_field path) span_Marks "marks"
    (λ v x, match v with
            | JArray a =>
                match parseMarks a [] with Some marks => Some marks | None => x end
            | _ => x
            end) Hrun.
  by destruct (obj !! "marks") as [[]|].
Qed.

Lemma parseSpan_loop_Raw obj s s' k :
  run obj s = Ok s' →
  span_Raw s' !! k = match obj !! k with
                     | Some v => if span_to_raw k v then Some v else span_Raw s !! k
                     | None => span_Raw s !! k
                     end.
Proof.
  intros Hrun.
  by_obs (parseSpan_field path) (λ s, span_Raw s !! k) k
    (λ v x, if span_to_raw k v then Some v else x) Hrun.
  done.
Qed.
End SpanFields.

Section MarkDefFields.
Implicit Types (md : MarkDef) (obj : gmap string json).

Let run obj md := range_obj parseMarkDef_field (map_to_list obj) md.

Lemma parseMarkDef_loop_total obj md : is_Ok (run obj md).
Proof.
  apply range_obj_is_Ok. intros k v t _. unfold parseMarkDef_field.
  repeat case_decide; by eexists.
Qed.

Lemma parseMarkDef_loop_Type obj md md' :
  run obj md = Ok md' → md_Type md' = md_Type md.
Proof.
  intros Hrun.
  by_obs parseMarkDef_field md_Type "_type" (λ (_ : json) (x : string), x) Hrun.
  by destruct (obj !! "_type").
Qed.

Lemma parseMarkDef_loop_Key obj md md' :
  run obj md = Ok md' → md_Key md' = md_Key md.
Proof.
  intros Hrun.
  by_obs parseMarkDef_field md_Key "_key" (λ (_ : json) (x : string), x) Hrun.
  by destruct (obj !! "_key").
Qed.

Lemma parseMarkDef_loop_Raw obj md md' k :
  run obj md = Ok md' →
  md_Raw md' !! k = match obj !! k with
                    | Some v =>
                        if decide (k = "_type") then md_Raw md !! k
                        else if decide (k = "_key") then md_Raw md !! k
                        else Some v
                    | None => md_Raw md !! k
                    end.
Proof.
  intros Hrun.
  by_obs parseMarkDef_field (λ md, md_Raw md !! k) k
    (λ (v : json) (x : option json),
       if decide (k = "_type") then x
       else if decide (k = "_key") then x else Some v) Hrun.
  done.
Qed.
End MarkDefFields.

(** ** What a successful parse returns *)

Lemma check_type_Ok op path obj ts :
  check_type op path obj = Ok ts ↔ obj !! "_type" = Some (JString ts) ∧ ts ≠ "".
Proof.
  unfold check_type.
  destruct (obj !! "_type") as [v|]; [|split; [done|by intros [? _]]].
  destruct v; try (split; [done|by intros [? _]]).
  destruct (decide (s = "")) as [->|Hne].
  - split; [done|]. by intros [[= <-] ?].
  - split; [by intros [= <-]|]. by intros [[= <-] _].
Qed.

Lemma parseSpan_inv b path s :
  parseSpan b path = Ok s →
  ∃ obj, b = JObject obj
    ∧ obj !! "_type" = Some (JString (span_Type s)) ∧ span_Type s ≠ ""
    ∧ span_Text s = match obj !! "text" with
                    | Some (JString str) => Some str
                    | _ => None
                    end
    ∧ span_Marks s = match obj !! "marks" with
                     | Some (JArray a) => parseMarks a []
                     | _ => None
                     end
    ∧ ∀ k, span_Raw s !! k = match obj !! k with
                             | Some v => if span_to_raw k v then Some v else None
                             | None => None
                             end.
Proof.
  unfold parseSpan. destruct b; simpl; try done. intros Hp. exists m.
  destruct (check_type "span" path m) as [ts|] eqn:Hts; [|done]. simpl in Hp.
  apply check_type_Ok in Hts as [Hts Hne].
  pose proof (parseSpan_loop_Type _ _ _ _ Hp) as HT.
  pose proof (parseSpan_loop_Text _ _ _ _ Hp) as HX.
  pose proof (parseSpan_loop_Marks _ _ _ _ Hp) as HM.
  simpl in *. rewrite HT. repeat split; try done.
  - rewrite HM. destruct (m !! "marks") as [[]|]; try done.
    by destruct (parseMarks l []).
  - intros k. rewrite (parseSpan_loop_Raw _ _ _ _ k Hp). simpl.
    rewrite lookup_empty. done.
Qed.

Lemma parseMarkDef_inv b path md :
  parseMarkDef b path = Ok md →
  ∃ obj, b = JObject obj
    ∧ obj !! "_type" = Some (JString (md_Type md)) ∧ md_Type md ≠ ""
    ∧ md_Key md = match obj !! "_key" with
                  | Some (JString ks) => ks
                  | _ => ""
                  end
    ∧ ∀ k, md_Raw md !! k = match obj !! k with
                            | Some v => if md_to_raw k v then Some v else None
                            | None => None
                            end.
Proof.
  unfold parseMarkDef. destruct b; simpl; try done. intros Hp. exists m.
  destruct (check_type "markDef" path m) as [ts|] eqn:Hts; [|done]. simpl in Hp.
  apply check_type_Ok in Hts as [Hts Hne].
  pose proof (parseMarkDef_loop_Type _ _ _ Hp) as HT.
  pose proof (parseMarkDef_loop_Key _ _ _ Hp) as HK.
  assert (md_Type (parseMarkDef_key m (mkMarkDef "" ts ∅)) = ts) as HT0.
  { unfold parseMarkDef_key. by destruct (m !! "_key") as [[]|]. }
  rewrite HT0 in HT. rewrite HT. repeat split; try done.
  - rewrite HK. unfold parseMarkDef_key. by destruct (m !! "_key") as [[]|].
  - intros k. rewrite (parseMarkDef_loop_Raw _ _ _ k Hp).
    unfold parseMarkDef_key, md_to_raw.
    destruct (decide (k = "_type")) as [->|?].
    { rewrite Hts. destruct (m !! "_key") as [[]|]; simpl;
        rewrite ?lookup_insert_ne by done; by rewrite lookup_empty. }
    destruct (decide (k = "_key")) as [->|?].
    { destruct (m !! "_key") as [[]|]; simpl;
        rewrite ?lookup_insert_eq; by rewrite ?lookup_empty. }
    destruct (m !! k) as [v|]; [done|].
    destruct (m !! "_key") as [[]|]; simpl;
      rewrite ?lookup_insert_ne by done; by rewrite lookup_empty.
Qed.

Lemma parseNode_inv b path n :
  parseNode b path = Ok n →
  ∃ obj, b = JObject obj
    ∧ obj !! "_type" = Some (JString (node_Type n)) ∧ node_Type n ≠ ""
    ∧ node_Key n = match obj !! "_key" with
                   | Some (JString s) => s
                   | _ => ""
                   end
    ∧ node_Style n = match obj !! "style" with
                     | Some (JString s) => Some s
                     | _ => None
                     end
    ∧ node_Children n = match obj !! "children" with
                        | Some JNull | None => None
                        | Some v =>
                            match parseSpanArray v (path +:+ ".children") with
                            | Ok c => Some c
                            | Err _ => None
                            end
                        end
    ∧ node_MarkDefs n = match obj !! "markDefs" with
                        | Some JNull | None => None
                        | Some v =>
                            match parseMarkDefArray v (path +:+ ".markDefs") with
                            | Ok c => Some c
                            | Err _ => None
                            end
                        end
    ∧ node_ListItem n = match obj !! "listItem" with
                        | Some (JString s) => Some s
                        | _ => None
                        end
    ∧ node_Level n = match obj !! "level" with
                     | Some (JNumber lit) => Number_Int64 lit
                     | _ => None
                     end
    ∧ ∀ k, node_Raw n !! k = match obj !! k with
                             | Some v => if node_to_raw k v then Some v else None
                             | None => None
                             end.
Proof.
  unfold parseNode. destruct b; simpl; try done. intros Hp. exists m.
  destruct (check_type "node" path m) as [ts|] eqn:Hts; [|done]. simpl in Hp.
  apply check_type_Ok in Hts as [Hts Hne].
  pose proof (parseNode_loop_Type _ _ _ _ Hp) as HT.
  pose proof (parseNode_loop_Key _ _ _ _ Hp) as HK.
  pose proof (parseNode_loop_Style _ _ _ _ Hp) as HS.
  pose proof (parseNode_loop_Children _ _ _ _ Hp) as HC.
  pose proof (parseNode_loop_MarkDefs _ _ _ _ Hp) as HM.
  pose proof (parseNode_loop_ListItem _ _ _ _ Hp) as HL.
  pose proof (parseNode_loop_Level _ _ _ _ Hp) as HV.
  simpl in *. rewrite HT. repeat split; try done.
  - rewrite HV. destruct (m !! "level") as [[]|]; try done.
    by destruct (Number_Int64 lit).
  - intros k. rewrite (parseNode_loop_Raw _ _ _ _ k Hp). simpl.
    rewrite lookup_empty. done.
Qed.

(** ** Explicit nulls *)

(** C3.  Decoding
    [[{"_type":"block","style":null,"children":null,"markDefs":null}]]
    succeeds; the node's raw store maps ["style"], ["children"] and
    ["markDefs"] to an explicit null and the three typed slots stay unset.
    In general a known member of a node ([_key], [style], [children],
    [markDefs], [listItem], [level]), of a span ([text], [marks]) or of a
    mark definition ([_key]) that arrives as [null] is found in the raw
    store of the parsed entity, as [null], and its typed slot is unset. *)
Theorem explicit_null_preserved :
  (∃ n,
     Decode (JArray [JObject (list_to_map
                        [("_type", JString "block"); ("style", JNull);
                         ("children", JNull); ("markDefs", JNull)])])
       = Ok (Some [n])
     ∧ node_Raw n !! "style" = Some JNull ∧ node_Style n = None
     ∧ node_Raw n !! "children" = Some JNull ∧ node_Children n = None
     ∧ node_Raw n !! "markDefs" = Some JNull ∧ node_MarkDefs n = None)
  ∧ (∀ obj path n, parseNode (JObject obj) path = Ok n →
       (obj !! "_key" = Some JNull →
          node_Raw n !! "_key" = Some JNull ∧ node_Key n = "")
     ∧ (obj !! "style" = Some JNull →
          node_Raw n !! "style" = Some JNull ∧ node_Style n = None)
     ∧ (obj !! "children" = Some JNull →
          node_Raw n !! "children" = Some JNull ∧ node_Children n = None)
     ∧ (obj !! "markDefs" = Some JNull →
          node_Raw n !! "markDefs" = Some JNull ∧ node_MarkDefs n = None)
     ∧ (obj !! "listItem" = Some JNull →
          node_Raw n !! "listItem" = Some JNull ∧ node_ListItem n = None)
     ∧ (obj !! "level" = Some JNull →
          node_Raw n !! "level" = Some JNull ∧ node_Level n = None))
  ∧ (∀ obj path s, parseSpan (JObject obj) path = Ok s →
       (obj !! "text" = Some JNull →
          span_Raw s !! "text" = Some JNull ∧ span_Text s = None)
     ∧ (obj !! "marks" = Some JNull →
          span_Raw s !! "marks" = Some JNull ∧ span_Marks s = None))
  ∧ (∀ obj path md, parseMarkDef (JObject obj) path = Ok md →
       obj !! "_key" = Some JNull →
       md_Raw md !! "_key" = Some JNull ∧ md_Key md = "").
Proof.
  split; [|split; [|split]].
  - eexists. split; [vm_compute; reflexivity|]. by vm_compute.
  - intros obj path n Hp.
    apply parseNode_inv in Hp
      as (obj' & [= <-] & _ & _ & HK & HS & HC & HM & HL & HV & HR).
    repeat split; intros;
      match goal with
      | Hk : obj !! _ = Some JNull |- _ =>
          first [ by rewrite HR, Hk
                | by rewrite ?HK, ?HS, ?HC, ?HM, ?HL, ?HV, Hk ]
      end.
  - intros obj path s Hp.
    apply parseSpan_inv in Hp as (obj' & [= <-] & _ & _ & HX & HM & HR).
    repeat split; intros;
      match goal with
      | Hk : obj !! _ = Some JNull |- _ =>
          first [ by rewrite HR, Hk | by rewrite ?HX, ?HM, Hk ]
      end.
  - intros obj path md Hp Hk.
    apply parseMarkDef_inv in Hp as (obj' & [= <-] & _ & _ & HK & HR).
    split; [by rewrite HR, Hk | by rewrite HK, Hk].
Qed.

Lemma explicit_null_preserved_witness :
  ∃ n, parseNode (JObject (list_to_map
                    [("_type", JString "block"); ("style", JNull)])) "[0]"
       = Ok n
       ∧ node_Raw n !! "style" = Some JNull ∧ node_Style n = None.
Proof.
  destruct (parseNode (JObject (list_to_map
                         [("_type", JString "block"); ("style", JNull)])) "[0]")
    as [n|e] eqn:Hp; [|by vm_compute in Hp].
  exists n. split; [done|].
  destruct explicit_null_preserved as (_ & Hnode & _).
  destruct (Hnode _ _ _ Hp) as (_ & Hstyle & _).
  by apply Hstyle.
Defined.

(** ** Empty keys *)

(** C10.  A node or mark definition whose [Key] is the empty string and
    whose raw store has no ["_key"] entry is encoded without a [_key]
    member.  An incoming [_key] that is the empty string is stored in the
    typed slot and not in the raw store, so it is one of these: it is gone
    after an encode. *)
Theorem empty_key_erased :
  (∀ n, node_Key n = "" → node_Raw n !! "_key" = None →
        ∃ m, Node_MarshalJSON n = JObject m ∧ m !! "_key" = None)
  ∧ (∀ md, md_Key md = "" → md_Raw md !! "_key" = None →
        ∃ m, MarkDef_MarshalJSON md = JObject m ∧ m !! "_key" = None)
  ∧ (∀ obj path n, parseNode (JObject obj) path = Ok n →
        obj !! "_key" = Some (JString "") →
        node_Key n = "" ∧ node_Raw n !! "_key" = None
        ∧ ∃ m, Node_MarshalJSON n = JObject m ∧ m !! "_key" = None)
  ∧ (∀ obj path md, parseMarkDef (JObject obj) path = Ok md →
        obj !! "_key" = Some (JString "") →
        md_Key md = "" ∧ md_Raw md !! "_key" = None
        ∧ ∃ m, MarkDef_MarshalJSON md = JObject m ∧ m !! "_key" = None).
Proof.
  assert (Hnode : ∀ n, node_Key n = "" → node_Raw n !! "_key" = None →
            ∃ m, Node_MarshalJSON n = JObject m ∧ m !! "_key" = None).
  { intros n Hk Hr. eexists. split; [reflexivity|].
    unfold Node_members. rewrite Hk. simpl.
    destruct (node_Level n), (node_ListItem n), (node_MarkDefs n),
      (node_Children n), (node_Style n);
      by rewrite ?lookup_insert_ne by done. }
  assert (Hmd : ∀ md, md_Key md = "" → md_Raw md !! "_key" = None →
            ∃ m, MarkDef_MarshalJSON md = JObject m ∧ m !! "_key" = None).
  { intros md Hk Hr. eexists. split; [reflexivity|].
    unfold MarkDef_members. rewrite Hk. simpl.
    by rewrite lookup_insert_ne by done. }
  split; [done|]. split; [done|]. split.
  - intros obj path n Hp Hk.
    apply parseNode_inv in Hp as (obj' & [= <-] & _ & _ & HK & _ & _ & _ & _ & _ & HR).
    rewrite Hk in HK. specialize (HR "_key"). rewrite Hk in HR. simpl in HR.
    split; [done|]. split; [done|]. by apply Hnode.
  - intros obj path md Hp Hk.
    apply parseMarkDef_inv in Hp as (obj' & [= <-] & _ & _ & HK & HR).
    rewrite Hk in HK. specialize (HR "_key"). rewrite Hk in HR. simpl in HR.
    split; [done|]. split; [done|]. by apply Hmd.
Qed.

Lemma empty_key_erased_witness :
  ∃ m, Node_MarshalJSON (mkNode "block" "" None None None None None ∅) = JObject m
       ∧ m !! "_key" = None.
Proof.
  destruct empty_key_erased as (Hnode & _).
  apply Hnode; reflexivity.
Defined.

(** ** Members of the wrong shape *)

Lemma parseMarks_strings ms acc :
  parseMarks (JString <$> ms) acc = Some (acc ++ ms).
Proof.
  revert acc. induction ms as [|m ms IH]; intros acc; simpl.
  - by rewrite app_nil_r.
  - rewrite IH. by rewrite <-app_assoc.
Qed.

Lemma parseMarks_non_string a acc :
  Exists (λ it, is_JString it = false) a → parseMarks a acc = None.
Proof.
  intros Hex. revert acc. induction Hex as [it a Hit|it a _ IH]; intros acc.
  - by destruct it.
  - destruct it; simpl; first [done | apply IH].
Qed.

Lemma parseNode_is_Err obj path ts k v :
  obj !! "_type" = Some (JString ts) → ts ≠ "" →
  obj !! k = Some v →
  (∀ n, is_Err (parseNode_field path k v n)) →
  is_Err (parseNode (JObject obj) path).
Proof.
  intros Hts Hne Hk Hbad. unfold parseNode. simpl.
  destruct (check_type "node" path obj) as [ts'|e] eqn:Hc; [|by eexists].
  simpl. eapply range_obj_is_Err; [|done]. by apply elem_of_map_to_list.
Qed.

Lemma parseNode_Err_unique obj path ts k v e :
  obj !! "_type" = Some (JString ts) → ts ≠ "" →
  obj !! k = Some v →
  (∀ n, parseNode_field path k v n = Err e) →
  (∀ k' v' n, obj !! k' = Some v' → k' ≠ k → is_Ok (parseNode_field path k' v' n)) →
  parseNode (JObject obj) path = Err e.
Proof.
  intros Hts Hne Hk Hbad Hothers. unfold parseNode. simpl.
  assert (check_type "node" path obj = Ok ts) as -> by by apply check_type_Ok.
  simpl. eapply range_obj_Err_unique; [apply NoDup_fst_map_to_list| |done|].
  - by apply elem_of_map_to_list.
  - intros k' v' n Hin Hne'. apply Hothers; [|done]. by apply elem_of_map_to_list.
Qed.

(** C2, as stated, fails: a [children] or [markDefs] member that is not
    an array is not copied to the raw store; the decode fails with
    [ErrExpectedArray]. *)
Lemma non_array_children_fails :
  Decode (JArray [JObject (list_to_map
                    [("_type", JString "block"); ("children", JString "x")])])
    = Err (wrap "node" "[0].children" ErrExpectedArray)
  ∧ Decode (JArray [JObject (list_to_map
                      [("_type", JString "block"); ("markDefs", JNumber "1")])])
    = Err (wrap "node" "[0].markDefs" ErrExpectedArray)
  ∧ ¬ (∀ obj path v, obj !! "_type" = Some (JString "block") →
         obj !! "children" = Some v → is_JArray v = false →
         ∃ n, parseNode (JObject obj) path = Ok n
              ∧ node_Raw n !! "children" = Some v).
Proof.
  split; [by vm_compute|]. split; [by vm_compute|].
  intros H.
  destruct (H (list_to_map [("_type", JString "block"); ("children", JString "x")])
              "[0]" (JString "x")) as (n & Hn & _); [by vm_compute..|].
  vm_compute in Hn. discriminate Hn.
Qed.

(** C2, amended.  A present value of the wrong shape is copied into the
    raw store, and does not make the parse fail, for [_key], [style] and
    [listItem] (anything but a string), for [level] (anything but a
    number), for a span's [text] and for a mark definition's [_key].  The
    hard failures are: [children] or [markDefs] holding a non-null value
    that is not an array ([ErrExpectedArray]); a span's [marks] that is
    not an array or holds an element that is not a string
    ([ErrInvalidMarks]); and a [level] number that does not parse as an
    integer ([ErrInvalidNumber]).  The kind is the stated one whenever no
    other member of the same node fails. *)
Theorem wrong_shape_routing :
  (∀ obj path n k v,
     parseNode (JObject obj) path = Ok n → obj !! k = Some v →
     (k ∈ ["_key"; "style"; "listItem"] ∧ is_JString v = false)
     ∨ (k = "level" ∧ is_JNumber v = false) →
     node_Raw n !! k = Some v)
  ∧ (∀ path k v n,
       (k ∈ ["_key"; "style"; "listItem"] ∧ is_JString v = false)
       ∨ (k = "level" ∧ is_JNumber v = false) →
       is_Ok (parseNode_field path k v n))
  ∧ (∀ obj path s v,
       parseSpan (JObject obj) path = Ok s → obj !! "text" = Some v →
       is_JString v = false → span_Raw s !! "text" = Some v)
  ∧ (∀ path v s, is_JString v = false → is_Ok (parseSpan_field path "text" v s))
  ∧ (∀ obj path md v,
       parseMarkDef (JObject obj) path = Ok md → obj !! "_key" = Some v →
       is_JString v = false → md_Raw md !! "_key" = Some v)
  ∧ (∀ obj path ts k v,
       obj !! "_type" = Some (JString ts) → ts ≠ "" →
       k ∈ ["children"; "markDefs"] → obj !! k = Some v →
       is_JNull v = false → is_JArray v = false →
       is_Err (parseNode (JObject obj) path)
       ∧ ((∀ k' v' n, obj !! k' = Some v' → k' ≠ k →
                      is_Ok (parseNode_field path k' v' n)) →
          parseNode (JObject obj) path
          = Err (wrap "node" (path +:+ "." +:+ k) ErrExpectedArray)))
  ∧ (∀ obj path ts v,
       obj !! "_type" = Some (JString ts) → ts ≠ "" →
       obj !! "marks" = Some v → is_JNull v = false →
       is_JArray v = false
       ∨ (∃ a, v = JArray a ∧ Exists (λ it, is_JString it = false) a) →
       parseSpan (JObject obj) path
       = Err (wrap "span" (path +:+ ".marks") ErrInvalidMarks))
  ∧ (∀ obj path ts lit,
       obj !! "_type" = Some (JString ts) → ts ≠ "" →
       obj !! "level" = Some (JNumber lit) → Number_Int64 lit = None →
       is_Err (parseNode (JObject obj) path)
       ∧ ((∀ k' v' n, obj !! k' = Some v' → k' ≠ "level" →
                      is_Ok (parseNode_field path k' v' n)) →
          parseNode (JObject obj) path
          = Err (wrap "node" (path +:+ ".level") ErrInvalidNumber))).
Proof.
  repeat apply conj.
  - intros obj path n k v Hp Hk Hcase.
    apply parseNode_inv in Hp as (obj' & [= <-] & _ & _ & _ & _ & _ & _ & _ & _ & HR).
    rewrite HR, Hk. unfold node_to_raw.
    destruct Hcase as [[Hin Hs]|[-> Hn]].
    + repeat (apply elem_of_cons in Hin as [->|Hin]); simpl; rewrite ?Hs; try done.
      by apply elem_of_nil in Hin.
    + simpl. by rewrite Hn.
  - intros path k v n Hcase. unfold parseNode_field.
    destruct Hcase as [[Hin Hs]|[-> Hn]].
    + repeat (apply elem_of_cons in Hin as [->|Hin]); simpl;
        try (destruct v; try done; by eexists).
      by apply elem_of_nil in Hin.
    + simpl. destruct v; try done; by eexists.
  - intros obj path s v Hp Hk Hs.
    apply parseSpan_inv in Hp as (obj' & [= <-] & _ & _ & _ & _ & HR).
    rewrite HR, Hk. unfold span_to_raw. simpl. by rewrite Hs.
  - intros path v s Hs. unfold parseSpan_field. simpl.
    destruct v; try done; by eexists.
  - intros obj path md v Hp Hk Hs.
    apply parseMarkDef_inv in Hp as (obj' & [= <-] & _ & _ & _ & HR).
    rewrite HR, Hk. unfold md_to_raw. simpl. by rewrite Hs.
  - intros obj path ts k v Hts Hne Hin Hk Hnull Harr.
    assert (∀ n, parseNode_field path k v n
                 = Err (wrap "node" (path +:+ "." +:+ k) ErrExpectedArray)) as Hbad.
    { intros n. unfold parseNode_field.
      repeat (apply elem_of_cons in Hin as [->|Hin]); simpl;
        try (by destruct v).
      by apply elem_of_nil in Hin. }
    split.
    + eapply parseNode_is_Err; [done..|]. intros n. rewrite Hbad. by eexists.
    + intros Hothers. by eapply parseNode_Err_unique.
  - intros obj path ts v Hts Hne Hk Hnull Hcase.
    unfold parseSpan. simpl.
    assert (check_type "span" path obj = Ok ts) as -> by by apply check_type_Ok.
    simpl. eapply range_obj_Err_unique; [apply NoDup_fst_map_to_list| | |].
    + by apply elem_of_map_to_list.
    + intros s. unfold parseSpan_field. simpl.
      destruct Hcase as [Harr|(a & -> & Hex)].
      * by destruct v.
      * by rewrite parseMarks_non_string.
    + intros k' v' s _ Hne'. unfold parseSpan_field.
      repeat case_decide; try done; try by eexists.
      destruct v'; by eexists.
  - intros obj path ts lit Hts Hne Hk Hint.
    assert (∀ n, parseNode_field path "level" (JNumber lit) n
                 = Err (wrap "node" (path +:+ ".level") ErrInvalidNumber)) as Hbad.
    { intros n. unfold parseNode_field. simpl. by rewrite Hint. }
    split.
    + eapply parseNode_is_Err; [done..|]. intros n. rewrite Hbad. by eexists.
    + intros Hothers. by eapply parseNode_Err_unique.
Qed.

Lemma wrong_shape_routing_witness :
  parseSpan (JObject (list_to_map
               [("_type", JString "span"); ("text", JString "hi");
                ("marks", JArray [JNumber "123"])])) "[0].children[0]"
  = Err (wrap "span" "[0].children[0].marks" ErrInvalidMarks).
Proof.
  destruct wrong_shape_routing as (_ & _ & _ & _ & _ & _ & Hmarks & _).
  apply (Hmarks _ "[0].children[0]" "span" (JArray [JNumber "123"]));
    [reflexivity | done | reflexivity | reflexivity |].
  right. exists [JNumber "123"]. split; [reflexivity|]. by left.
Defined.

(** The two inputs of the marks-strictness scenario, through [Decode]. *)
Example marks_strictness_examples :
  let span marks :=
    JObject (list_to_map [("_type", JString "span"); ("text", JString "hi");
                          ("marks", marks)]) in
  let doc marks :=
    JArray [JObject (list_to_map
                       [("_type", JString "block");
                        ("children", JArray [span marks]);
                        ("markDefs", JArray [])])] in
  Decode (doc (JString "not-array"))
    = Err (wrap "span" "[0].children[0].marks" ErrInvalidMarks)
  ∧ Decode (doc (JArray [JNumber "123"]))
    = Err (wrap "span" "[0].children[0].marks" ErrInvalidMarks).
Proof. by vm_compute. Qed.

(** ** Integers: printing then parsing *)

Lemma string_of_uint_digits d :
  d ≠ Decimal.Nil →
  ∃ c r, NilEmpty.string_of_uint d = String c r
         ∧ c ≠ "-"%char ∧ c ≠ "+"%char.
Proof.
  intros Hd. destruct d; [done|..]; simpl; eexists _, _; done.
Qed.

Lemma ParseInt_digits d :
  d ≠ Decimal.Nil →
  ParseInt (NilEmpty.string_of_uint d)
  = if (min_int64 <=? Z.of_uint d) && (Z.of_uint d <=? max_int64)
    then Some (Z.of_uint d) else None.
Proof.
  intros Hd. destruct (string_of_uint_digits d Hd) as (c & r & Hs & Hm & Hp).
  unfold ParseInt.
  assert (match NilEmpty.string_of_uint d with
          | String "-"%char r0 => (true, r0)
          | String "+"%char r0 => (false, r0)
          | _ => (false, NilEmpty.string_of_uint d)
          end = (false, NilEmpty.string_of_uint d)) as ->.
  { rewrite Hs. destruct c as [[] [] [] [] [] [] [] []]; try done. }
  rewrite NilEmpty.usu. by rewrite Hs.
Qed.

Lemma ParseInt_FormatInt z :
  min_int64 ≤ z ≤ max_int64 → ParseInt (FormatInt z) = Some z.
Proof.
  intros Hz. unfold FormatInt. destruct z as [|p|p]; simpl.
  - done.
  - pose proof (Unsigned.to_uint_nonnil p) as Hnn.
    assert (NilZero.string_of_uint (Pos.to_uint p)
            = NilEmpty.string_of_uint (Pos.to_uint p)) as ->.
    { by destruct (Pos.to_uint p). }
    rewrite ParseInt_digits by done.
    unfold Z.of_uint. rewrite DecimalPos.Unsigned.of_to. simpl.
    by assert ((Z.pos p <=? max_int64) = true) as -> by (apply Z.leb_le; lia).
  - pose proof (Unsigned.to_uint_nonnil p) as Hnn.
    assert (NilZero.string_of_uint (Pos.to_uint p)
            = NilEmpty.string_of_uint (Pos.to_uint p)) as ->.
    { by destruct (Pos.to_uint p). }
    destruct (string_of_uint_digits _ Hnn) as (c & r & Hs & _ & _).
    unfold ParseInt. rewrite NilEmpty.usu, Hs.
    unfold Z.of_uint. rewrite DecimalPos.Unsigned.of_to. simpl.
    change (- Z.pos p) with (Z.neg p).
    assert ((min_int64 <=? Z.neg p) = true) as -> by (apply Z.leb_le; lia).
    by assert ((Z.neg p <=? max_int64) = true) as -> by (apply Z.leb_le; lia).
Qed.

Lemma ParseInt_range s z :
  ParseInt s = Some z → min_int64 ≤ z ≤ max_int64.
Proof.
  unfold ParseInt.
  destruct (match s with
            | String "-"%char r => (true, r)
            | String "+"%char r => (false, r)
            | _ => (false, s)
            end) as [neg ds].
  destruct ds; [done|].
  destruct (NilEmpty.uint_of_string _) as [u|]; [|done].
  set (z' := if neg then _ else _).
  destruct (Z.leb_spec min_int64 z'), (Z.leb_spec z' max_int64); simpl; try done.
  intros [= <-]. lia.
Qed.

(** ** The members an entity is encoded with *)

Lemma lookup_put_some {A} (k0 : string) (f : A → json) (o : option A)
    (m : gmap string json) (k : string) :
  (match o with Some x => <[k0 := f x]> m | None => m end) !! k
  = if decide (k = k0)
    then match o with Some x => Some (f x) | None => m !! k0 end
    else m !! k.
Proof.
  destruct o, (decide (k = k0)) as [->|]; try done.
  - by rewrite lookup_insert_eq.
  - by rewrite lookup_insert_ne.
Qed.

Lemma lookup_put_key (key : string) (m : gmap string json) (k : string) :
  (if decide (key = "") then m else <["_key" := JString key]> m) !! k
  = if decide (k = "_key")
    then (if decide (key = "") then m !! "_key" else Some (JString key))
    else m !! k.
Proof.
  destruct (decide (key = "")), (decide (k = "_key")) as [->|]; try done.
  - by rewrite lookup_insert_eq.
  - by rewrite lookup_insert_ne.
Qed.

Lemma lookup_put_type (ts : string) (m : gmap string json) (k : string) :
  <["_type" := JString ts]> m !! k
  = if decide (k = "_type") then Some (JString ts) else m !! k.
Proof.
  destruct (decide (k = "_type")) as [->|].
  - by rewrite lookup_insert_eq.
  - by rewrite lookup_insert_ne.
Qed.

Local Ltac members_lookup :=
  repeat (first [ rewrite lookup_put_some
                | rewrite lookup_put_key
                | rewrite lookup_put_type
                | rewrite lookup_insert_eq
                | rewrite lookup_insert_ne by done ];
          repeat case_decide; simplify_eq; try done).

Lemma Span_members_lookup s k :
  Span_members s !! k
  = if decide (k = "marks") then
      match span_Marks s with
      | Some ms => Some (JArray (JString <$> ms))
      | None => span_Raw s !! k
      end
    else if decide (k = "text") then
      match span_Text s with
      | Some t => Some (JString t)
      | None => span_Raw s !! k
      end
    else if decide (k = "_type") then Some (JString (span_Type s))
    else span_Raw s !! k.
Proof.
  unfold Span_members. members_lookup.
Qed.

Lemma MarkDef_members_lookup md k :
  MarkDef_members md !! k
  = if decide (k = "_key") then
      (if decide (md_Key md = "") then md_Raw md !! k
       else Some (JString (md_Key md)))
    else if decide (k = "_type") then Some (JString (md_Type md))
    else md_Raw md !! k.
Proof.
  unfold MarkDef_members. members_lookup.
Qed.

Lemma Node_members_lookup n k :
  Node_members n !! k
  = if decide (k = "level") then
      match node_Level n with
      | Some l => Some (JNumber (FormatInt l))
      | None => node_Raw n !! k
      end
    else if decide (k = "listItem") then
      match node_ListItem n with
      | Some s => Some (JString s)
      | None => node_Raw n !! k
      end
    else if decide (k = "markDefs") then
      match node_MarkDefs n with
      | Some mds => Some (JArray (MarkDef_MarshalJSON <$> mds))
      | None => node_Raw n !! k
      end
    else if decide (k = "children") then
      match node_Children n with
      | Some c => Some (JArray (Span_MarshalJSON <$> c))
      | None => node_Raw n !! k
      end
    else if decide (k = "style") then
      match node_Style n with
      | Some s => Some (JString s)
      | None => node_Raw n !! k
      end
    else if decide (k = "_key") then
      (if decide (node_Key n = "") then node_Raw n !! k
       else Some (JString (node_Key n)))
    else if decide (k = "_type") then Some (JString (node_Type n))
    else node_Raw n !! k.
Proof.
  unfold Node_members. members_lookup.
Qed.

(** ** The parsers establish the invariants *)

Lemma parseSpan_ok b path s : parseSpan b path = Ok s → span_ok s.
Proof.
  intros Hp. apply parseSpan_inv in Hp as (obj & _ & _ & Hne & HX & HM & HR).
  split; [done|]. split; [|split].
  - intros k v. rewrite HR. destruct (obj !! k) as [v'|]; [|done].
    destruct (span_to_raw k v') eqn:Hr; [|done]. by intros [= <-].
  - rewrite HX, HR. destruct (obj !! "text") as [[]|]; try done.
    all: by intros [? [=]].
  - rewrite HM, HR. destruct (obj !! "marks") as [[]|]; try done.
    all: by intros [? [=]].
Qed.

Lemma parseMarkDef_ok b path md : parseMarkDef b path = Ok md → md_ok md.
Proof.
  intros Hp. apply parseMarkDef_inv in Hp as (obj & _ & _ & Hne & HK & HR).
  split; [done|]. split.
  - intros k v. rewrite HR. destruct (obj !! k) as [v'|]; [|done].
    destruct (md_to_raw k v') eqn:Hr; [|done]. by intros [= <-].
  - rewrite HK, HR. by destruct (obj !! "_key") as [[]|].
Qed.

Lemma parseSpanArray_loop_ok path arr :
  ∀ i out res,
    parseSpanArray_loop path i arr out = Ok res →
    Forall span_ok out → Forall span_ok res.
Proof.
  induction arr as [|item rest IH]; intros i out res Hl Hout; simpl in Hl.
  - by inversion Hl; subst.
  - destruct (parseSpan item _) as [s|] eqn:Hs; [|done]. simpl in Hl.
    eapply IH; [done|]. apply Forall_app. split; [done|].
    apply Forall_singleton. by eapply parseSpan_ok.
Qed.

Lemma parseSpanArray_ok v path c :
  parseSpanArray v path = Ok c → Forall span_ok c.
Proof.
  unfold parseSpanArray. destruct v; try done. destruct l as [|item rest].
  - by intros [= <-].
  - intros Hl. by eapply parseSpanArray_loop_ok.
Qed.

Lemma parseMarkDefArray_loop_ok path arr :
  ∀ i out res,
    parseMarkDefArray_loop path i arr out = Ok res →
    Forall md_ok out → Forall md_ok res.
Proof.
  induction arr as [|item rest IH]; intros i out res Hl Hout; simpl in Hl.
  - by inversion Hl; subst.
  - destruct (parseMarkDef item _) as [md|] eqn:Hmd; [|done]. simpl in Hl.
    eapply IH; [done|]. apply Forall_app. split; [done|].
    apply Forall_singleton. by eapply parseMarkDef_ok.
Qed.

Lemma parseMarkDefArray_ok v path c :
  parseMarkDefArray v path = Ok c → Forall md_ok c.
Proof.
  unfold parseMarkDefArray. destruct v; try done. destruct l as [|item rest].
  - by intros [= <-].
  - intros Hl. by eapply parseMarkDefArray_loop_ok.
Qed.

Lemma parseNode_ok b path n : parseNode b path = Ok n → node_ok n.
Proof.
  intros Hp.
  apply parseNode_inv in Hp
    as (obj & _ & _ & Hne & HK & HS & HC & HM & HL & HV & HR).
  split; [done|]. repeat apply conj.
  - intros k v. rewrite HR. destruct (obj !! k) as [v'|]; [|done].
    destruct (node_to_raw k v') eqn:Hr; [|done]. by intros [= <-].
  - rewrite HK, HR. by destruct (obj !! "_key") as [[]|].
  - rewrite HS, HR. destruct (obj !! "style") as [[]|]; try done.
    all: by intros [? [=]].
  - rewrite HC, HR. destruct (obj !! "children") as [[]|]; try done.
    all: by intros [? [=]].
  - rewrite HM, HR. destruct (obj !! "markDefs") as [[]|]; try done.
    all: by intros [? [=]].
  - rewrite HL, HR. destruct (obj !! "listItem") as [[]|]; try done.
    all: by intros [? [=]].
  - rewrite HV, HR. destruct (obj !! "level") as [[]|]; try done.
    all: by intros [? [=]].
  - intros l. rewrite HV. destruct (obj !! "level") as [[]|]; try done.
    apply ParseInt_range.
  - rewrite HC. destruct (obj !! "children") as [v|]; [|by constructor].
    destruct v; try by constructor.
    all: match goal with
         | |- context [parseSpanArray ?v ?p] =>
             destruct (parseSpanArray v p) eqn:Hc; [|by constructor];
             by eapply parseSpanArray_ok
         end.
  - rewrite HM. destruct (obj !! "markDefs") as [v|]; [|by constructor].
    destruct v; try by constructor.
    all: match goal with
         | |- context [parseMarkDefArray ?v ?p] =>
             destruct (parseMarkDefArray v p) eqn:Hc; [|by constructor];
             by eapply parseMarkDefArray_ok
         end.
Qed.

(** ** Decoding what was encoded *)

Lemma parseSpan_marshal s path :
  span_ok s → parseSpan (Span_MarshalJSON s) path = Ok s.
Proof.
  intros (Hne & Hraw & Htext & Hmarks).
  assert (is_Ok (parseSpan (Span_MarshalJSON s) path)) as [s' Hs'].
  { unfold parseSpan, Span_MarshalJSON. simpl.
    assert (check_type "span" path (Span_members s) = Ok (span_Type s)) as ->.
    { apply check_type_Ok. by rewrite Span_members_lookup. }
    simpl. apply range_obj_is_Ok. intros k v t Hin.
    apply elem_of_map_to_list in Hin. rewrite Span_members_lookup in Hin.
    unfold parseSpan_field. repeat case_decide; simplify_eq; try by eexists.
    - destruct (span_Marks s) as [ms|]; simplify_eq.
      + rewrite parseMarks_strings. by eexists.
      + apply Hraw in Hin. unfold span_to_raw in Hin. simpl in Hin.
        destruct v; try done. by eexists.
    - destruct v; by eexists. }
  rewrite Hs'. f_equal.
  apply parseSpan_inv in Hs' as (obj & [= <-] & Hts & _ & HX & HM & HR).
  rewrite Span_members_lookup in Hts, HX, HM. simpl in Hts, HX, HM.
  assert (span_Raw s' = span_Raw s) as HRaw.
  { apply map_eq. intros k. rewrite HR, Span_members_lookup. unfold span_to_raw.
    destruct (decide (k = "marks")) as [->|Hk1]; simpl.
    { destruct (span_Marks s) as [ms|] eqn:HMs; simpl.
      - symmetry. apply Hmarks. by eexists.
      - destruct (span_Raw s !! "marks") as [v|] eqn:Hv; [|done].
        apply Hraw in Hv. unfold span_to_raw in Hv. simpl in Hv. by rewrite Hv. }
    destruct (decide (k = "text")) as [->|Hk2]; simpl.
    { destruct (span_Text s) as [t|] eqn:HXs; simpl.
      - symmetry. apply Htext. by eexists.
      - destruct (span_Raw s !! "text") as [v|] eqn:Hv; [|done].
        apply Hraw in Hv. unfold span_to_raw in Hv. simpl in Hv. by rewrite Hv. }
    destruct (decide (k = "_type")) as [->|Hk3]; simpl.
    { destruct (span_Raw s !! "_type") as [v|] eqn:Hv; [|done].
      apply Hraw in Hv. by unfold span_to_raw in Hv. }
    by destruct (span_Raw s !! k). }
  assert (span_Text s' = span_Text s) as HText.
  { rewrite HX. destruct (span_Text s) as [t|]; [done|].
    destruct (span_Raw s !! "text") as [v|] eqn:Hv; [|done].
    apply Hraw in Hv. unfold span_to_raw in Hv. simpl in Hv. by destruct v. }
  assert (span_Marks s' = span_Marks s) as HMarks.
  { rewrite HM. destruct (span_Marks s) as [ms|].
    - by rewrite parseMarks_strings.
    - destruct (span_Raw s !! "marks") as [v|] eqn:Hv; [|done].
      apply Hraw in Hv. unfold span_to_raw in Hv. simpl in Hv. by destruct v. }
  clear -Hts HRaw HText HMarks. destruct s, s'; simpl in *. congruence.
Qed.

Lemma parseMarkDef_marshal md path :
  md_ok md → parseMarkDef (MarkDef_MarshalJSON md) path = Ok md.
Proof.
  intros (Hne & Hraw & Hkey).
  assert (is_Ok (parseMarkDef (MarkDef_MarshalJSON md) path)) as [md' Hmd'].
  { unfold parseMarkDef, MarkDef_MarshalJSON. simpl.
    assert (check_type "markDef" path (MarkDef_members md) = Ok (md_Type md)) as ->.
    { apply check_type_Ok. by rewrite MarkDef_members_lookup. }
    simpl. apply parseMarkDef_loop_total. }
  rewrite Hmd'. f_equal.
  apply parseMarkDef_inv in Hmd' as (obj & [= <-] & Hts & _ & HK & HR).
  rewrite MarkDef_members_lookup in Hts, HK. simpl in Hts, HK.
  assert (md_Raw md' = md_Raw md) as HRaw.
  { apply map_eq. intros k. rewrite HR, MarkDef_members_lookup. unfold md_to_raw.
    destruct (decide (k = "_key")) as [->|Hk1]; simpl.
    - destruct (decide (md_Key md = "")) as [Hk|Hk]; simpl.
      + destruct (md_Raw md !! "_key") as [v|] eqn:Hv; [|done].
        apply Hraw in Hv. unfold md_to_raw in Hv. simpl in Hv. by rewrite Hv.
      + symmetry. by apply Hkey.
    - destruct (decide (k = "_type")) as [->|Hk2]; simpl.
      + destruct (md_Raw md !! "_type") as [v|] eqn:Hv; [|done].
        apply Hraw in Hv. by unfold md_to_raw in Hv.
      + by destruct (md_Raw md !! k). }
  assert (md_Key md' = md_Key md) as HKey.
  { rewrite HK. case_decide as Hk; [|done]. rewrite Hk.
    destruct (md_Raw md !! "_key") as [v|] eqn:Hv; [|done].
    apply Hraw in Hv. unfold md_to_raw in Hv. simpl in Hv. by destruct v. }
  clear -Hts HRaw HKey. destruct md, md'; simpl in *. congruence.
Qed.

Lemma parseSpanArray_loop_marshal path c :
  ∀ i out, Forall span_ok c →
    parseSpanArray_loop path i (Span_MarshalJSON <$> c) out = Ok (out ++ c).
Proof.
  induction c as [|s c IH]; intros i out Hok; simpl.
  - by rewrite app_nil_r.
  - apply Forall_cons in Hok as [Hs Hc].
    rewrite parseSpan_marshal by done. simpl.
    rewrite IH by done. by rewrite <-app_assoc.
Qed.

Lemma parseSpanArray_marshal path c :
  Forall span_ok c →
  parseSpanArray (JArray (Span_MarshalJSON <$> c)) path = Ok c.
Proof.
  intros Hok. unfold parseSpanArray. destruct c as [|s c]; [done|].
  rewrite fmap_cons. by rewrite <-fmap_cons, parseSpanArray_loop_marshal.
Qed.

Lemma parseMarkDefArray_loop_marshal path c :
  ∀ i out, Forall md_ok c →
    parseMarkDefArray_loop path i (MarkDef_MarshalJSON <$> c) out = Ok (out ++ c).
Proof.
  induction c as [|md c IH]; intros i out Hok; simpl.
  - by rewrite app_nil_r.
  - apply Forall_cons in Hok as [Hmd Hc].
    rewrite parseMarkDef_marshal by done. simpl.
    rewrite IH by done. by rewrite <-app_assoc.
Qed.

Lemma parseMarkDefArray_marshal path c :
  Forall md_ok c →
  parseMarkDefArray (JArray (MarkDef_MarshalJSON <$> c)) path = Ok c.
Proof.
  intros Hok. unfold parseMarkDefArray. destruct c as [|md c]; [done|].
  rewrite fmap_cons. by rewrite <-fmap_cons, parseMarkDefArray_loop_marshal.
Qed.

Local Ltac raw_member Hraw Hv :=
  apply Hraw in Hv; unfold node_to_raw in Hv; simpl in Hv.

Lemma parseNode_field_marshal n path k v t :
  node_ok n → Node_members n !! k = Some v →
  is_Ok (parseNode_field path k v t).
Proof.
  intros (Hne & Hraw & _ & _ & _ & _ & _ & _ & Hlvl & Hcs & Hmds) Hin.
  rewrite Node_members_lookup in Hin. unfold parseNode_field.
  destruct (decide (k = "_type")) as [->|?]; [by eexists|].
  destruct (decide (k = "_key")) as [->|?]; [destruct v; by eexists|].
  destruct (decide (k = "style")) as [->|?]; [destruct v; by eexists|].
  destruct (decide (k = "children")) as [->|?].
  { simpl in Hin. destruct (node_Children n) as [c|]; simpl in Hcs.
    - simplify_eq. rewrite parseSpanArray_marshal by done. by eexists.
    - raw_member Hraw Hin. destruct v; try done. by eexists. }
  destruct (decide (k = "markDefs")) as [->|?].
  { simpl in Hin. destruct (node_MarkDefs n) as [c|]; simpl in Hmds.
    - simplify_eq. rewrite parseMarkDefArray_marshal by done. by eexists.
    - raw_member Hraw Hin. destruct v; try done. by eexists. }
  destruct (decide (k = "listItem")) as [->|?]; [destruct v; by eexists|].
  destruct (decide (k = "level")) as [->|?]; [|by eexists].
  simpl in Hin. destruct (node_Level n) as [l|].
  - simplify_eq. unfold Number_Int64. rewrite ParseInt_FormatInt by by apply Hlvl.
    by eexists.
  - raw_member Hraw Hin. destruct v; try done; by eexists.
Qed.

Lemma parseNode_marshal n path :
  node_ok n → parseNode (Node_MarshalJSON n) path = Ok n.
Proof.
  intros Hok.
  assert (is_Ok (parseNode (Node_MarshalJSON n) path)) as [n' Hn'].
  { unfold parseNode, Node_MarshalJSON. simpl.
    assert (check_type "node" path (Node_members n) = Ok (node_Type n)) as ->.
    { apply check_type_Ok. rewrite Node_members_lookup. split; [done|apply Hok]. }
    simpl. apply range_obj_is_Ok. intros k v t Hin.
    apply elem_of_map_to_list in Hin. by eapply parseNode_field_marshal. }
  rewrite Hn'. f_equal.
  destruct Hok as (Hne & Hraw & Hkey & Hstyle & Hchildren & Hmarkdefs & Hlist
                   & Hlevel & Hlvl & Hcs & Hmds).
  apply parseNode_inv in Hn'
    as (obj & [= <-] & Hts & _ & HK & HS & HC & HM & HL & HV & HR).
  rewrite Node_members_lookup in Hts, HK, HS, HC, HM, HL, HV.
  simpl in Hts, HK, HS, HC, HM, HL, HV.
  assert (node_Raw n' = node_Raw n) as HRaw.
  { apply map_eq. intros k. rewrite HR, Node_members_lookup. unfold node_to_raw.
    destruct (decide (k = "level")) as [->|?]; simpl.
    { destruct (node_Level n) as [l|] eqn:E; simpl.
      - symmetry. apply Hlevel. by eexists.
      - destruct (node_Raw n !! "level") as [v|] eqn:Hv; [|done].
        raw_member Hraw Hv. by rewrite Hv. }
    destruct (decide (k = "listItem")) as [->|?]; simpl.
    { destruct (node_ListItem n) as [l|] eqn:E; simpl.
      - symmetry. apply Hlist. by eexists.
      - destruct (node_Raw n !! "listItem") as [v|] eqn:Hv; [|done].
        raw_member Hraw Hv. by rewrite Hv. }
    destruct (decide (k = "markDefs")) as [->|?]; simpl.
    { destruct (node_MarkDefs n) as [l|] eqn:E; simpl.
      - symmetry. apply Hmarkdefs. by eexists.
      - destruct (node_Raw n !! "markDefs") as [v|] eqn:Hv; [|done].
        raw_member Hraw Hv. by rewrite Hv. }
    destruct (decide (k = "children")) as [->|?]; simpl.
    { destruct (node_Children n) as [l|] eqn:E; simpl.
      - symmetry. apply Hchildren. by eexists.
      - destruct (node_Raw n !! "children") as [v|] eqn:Hv; [|done].
        raw_member Hraw Hv. by rewrite Hv. }
    destruct (decide (k = "style")) as [->|?]; simpl.
    { destruct (node_Style n) as [l|] eqn:E; simpl.
      - symmetry. apply Hstyle. by eexists.
      - destruct (node_Raw n !! "style") as [v|] eqn:Hv; [|done].
        raw_member Hraw Hv. by rewrite Hv. }
    destruct (decide (k = "_key")) as [->|?]; simpl.
    { destruct (decide (node_Key n = "")) as [E|E]; simpl.
      - destruct (node_Raw n !! "_key") as [v|] eqn:Hv; [|done].
        raw_member Hraw Hv. by rewrite Hv.
      - symmetry. by apply Hkey. }
    destruct (decide (k = "_type")) as [->|?]; simpl.
    { destruct (node_Raw n !! "_type") as [v|] eqn:Hv; [|done].
      by raw_member Hraw Hv. }
    by destruct (node_Raw n !! k). }
  assert (node_Key n' = node_Key n) as HKey.
  { rewrite HK. case_decide as E; [|done]. rewrite E.
    destruct (node_Raw n !! "_key") as [v|] eqn:Hv; [|done].
    raw_member Hraw Hv. by destruct v. }
  assert (node_Style n' = node_Style n) as HStyle.
  { rewrite HS. destruct (node_Style n); [done|].
    destruct (node_Raw n !! "style") as [v|] eqn:Hv; [|done].
    raw_member Hraw Hv. by destruct v. }
  assert (node_ListItem n' = node_ListItem n) as HList.
  { rewrite HL. destruct (node_ListItem n); [done|].
    destruct (node_Raw n !! "listItem") as [v|] eqn:Hv; [|done].
    raw_member Hraw Hv. by destruct v. }
  assert (node_Level n' = node_Level n) as HLevel.
  { rewrite HV. destruct (node_Level n) as [l|].
    - unfold Number_Int64. by rewrite ParseInt_FormatInt by by apply Hlvl.
    - destruct (node_Raw n !! "level") as [v|] eqn:Hv; [|done].
      raw_member Hraw Hv. by destruct v. }
  assert (node_Children n' = node_Children n) as HChildren.
  { rewrite HC. destruct (node_Children n) as [c|]; simpl in Hcs.
    - by rewrite parseSpanArray_marshal.
    - destruct (node_Raw n !! "children") as [v|] eqn:Hv; [|done].
      raw_member Hraw Hv. by destruct v. }
  assert (node_MarkDefs n' = node_MarkDefs n) as HMarkDefs.
  { rewrite HM. destruct (node_MarkDefs n) as [c|]; simpl in Hmds.
    - by rewrite parseMarkDefArray_marshal.
    - destruct (node_Raw n !! "markDefs") as [v|] eqn:Hv; [|done].
      raw_member Hraw Hv. by destruct v. }
  clear -Hts HRaw HKey HStyle HList HLevel HChildren HMarkDefs.
  destruct n, n'; simpl in *. congruence.
Qed.

(** ** The round trip *)

Lemma Decode_loop_decoded items :
  ∀ i doc D, Decode_loop i items doc = Ok D → decoded doc → decoded D.
Proof.
  induction items as [|rm rest IH]; intros i doc D Hl Hdoc; simpl in Hl.
  - by inversion Hl; subst.
  - destruct (parseNode rm _) as [n|] eqn:Hn; [|done]. simpl in Hl.
    eapply IH; [done|]. unfold append. split.
    + by destruct (elems doc).
    + apply Forall_app. split.
      * destruct doc as [ns|]; [apply Hdoc|by constructor].
      * apply Forall_singleton. by eapply parseNode_ok.
Qed.

Lemma Decode_decoded r D : Decode r = Ok D → decoded D.
Proof.
  unfold Decode. destruct r; try done. intros Hl.
  by eapply Decode_loop_decoded.
Qed.

Lemma Decode_loop_marshal ns :
  ∀ i doc, Forall node_ok ns → ns ≠ [] →
    Decode_loop i (Node_MarshalJSON <$> ns) doc = Ok (Some (elems doc ++ ns)).
Proof.
  induction ns as [|n ns IH]; intros i doc Hok Hne; [done|].
  apply Forall_cons in Hok as [Hn Hns]. simpl.
  rewrite parseNode_marshal by done. simpl.
  destruct ns as [|n2 ns].
  - done.
  - rewrite IH by done. simpl. by rewrite <-app_assoc.
Qed.

(** X1.  The round trip holds for every decoded document that is not the
    nil slice: decoding its encoding gives it back, raw members, explicit
    nulls and empty keys included. *)
Theorem roundtrip_nonempty (r : json) (ns : list Node) :
  Decode r = Ok (Some ns) → Decode (Encode (Some ns)) = Ok (Some ns).
Proof.
  intros Hd. apply Decode_decoded in Hd as [Hne Hok].
  unfold Encode, Decode. by rewrite Decode_loop_marshal.
Qed.

Lemma roundtrip_nonempty_witness :
  let r := JArray [JObject (list_to_map
                      [("_type", JString "block"); ("_key", JString "");
                       ("style", JNull); ("level", JNumber "-3");
                       ("href", JString "x")])] in
  ∃ ns, Decode r = Ok (Some ns) ∧ Decode (Encode (Some ns)) = Ok (Some ns).
Proof.
  intros r. eexists. split; [by vm_compute|].
  apply (roundtrip_nonempty r). by vm_compute.
Defined.

(** C1 on the empty document: [Decode] of [[]] succeeds with the nil
    slice, [Encode] writes the nil slice as [null], and [Decode] refuses
    [null]: the round trip fails. *)
Theorem roundtrip_empty_document_fails :
  Decode (JArray []) = Ok None
  ∧ Encode None = JNull
  ∧ Decode (Encode None) = Err (wrap "decode" "" ErrUnexpectedToken)
  ∧ ¬ (∀ r D, Decode r = Ok D → Decode (Encode D) = Ok D).
Proof.
  repeat split. intros H. specialize (H (JArray []) None eq_refl). discriminate H.
Qed.

(** The nil-ness of [Marks] is visible on the wire: the empty slice is
    written as ["marks":[]], the nil slice is not written. *)
Lemma empty_marks_are_encoded (ty : string) (text : option string) :
  Span_members (mkSpan ty text (Some []) ∅) !! "marks" = Some (JArray [])
  ∧ Span_members (mkSpan ty text None ∅) !! "marks" = None.
Proof. by rewrite !Span_members_lookup. Qed.

(** ** Clone and Filter on the store *)

Module MemFacts.
Import Mem.

Lemma bind_Some {A B} (m : M A) (k : A → M B) h b h' :
  bind m k h = Some (b, h') ↔ ∃ a h1, m h = Some (a, h1) ∧ k a h1 = Some (b, h').
Proof.
  unfold bind. destruct (m h) as [[a h1]|]; split.
  - intros Hk. by exists a, h1.
  - by intros (a' & h1' & [= <- <-] & Hk).
  - done.
  - by intros (a' & h1' & [=] & _).
Qed.

Lemma ret_Some {A} (a : A) h b h' : ret a h = Some (b, h') ↔ b = a ∧ h' = h.
Proof. unfold ret. split; [by intros [= <- <-]|by intros [-> ->]]. Qed.

Lemma alloc_Some c h l h' :
  alloc c h = Some (l, h') ↔ l = fresh (dom h) ∧ h' = <[l := c]> h.
Proof.
  unfold alloc. split; [by intros [= <- <-]|]. by intros [-> ->].
Qed.

Lemma alloc_fresh c h l h' : alloc c h = Some (l, h') → h !! l = None.
Proof.
  intros [-> _]%alloc_Some. apply not_elem_of_dom, is_fresh.
Qed.

Lemma read_Some l h c h' : read l h = Some (c, h') ↔ h !! l = Some c ∧ h' = h.
Proof.
  unfold read. destruct (h !! l) as [c'|]; split; try done.
  - by intros [= <- <-].
  - by intros [[= <-] ->].
  - by intros [[=] _].
Qed.

(** Reading leaves the heap as it is. *)
Local Ltac solve_read :=
  intros; unfold read_string, read_int, read_strings, read_bytes, read_anys,
    read_map, read_spans, read_markDefs, read_nodes, bind, read, ret, fail;
  match goal with
  | |- context [?h !! ?l] => destruct (h !! l) as [[]|]
  end;
  (split; [intros ?; simplify_eq; done | intros [? ?]; simplify_eq; done]).

Lemma read_string_Some l h x h' :
  read_string l h = Some (x, h') ↔ h' = h ∧ h !! l = Some (CString x).
Proof. solve_read. Qed.
Lemma read_int_Some l h x h' :
  read_int l h = Some (x, h') ↔ h' = h ∧ h !! l = Some (CInt x).
Proof. solve_read. Qed.
Lemma read_strings_Some l h x h' :
  read_strings l h = Some (x, h') ↔ h' = h ∧ h !! l = Some (CStrings x).
Proof. solve_read. Qed.
Lemma read_bytes_Some l h x h' :
  read_bytes l h = Some (x, h') ↔ h' = h ∧ h !! l = Some (CBytes x).
Proof. solve_read. Qed.
Lemma read_anys_Some l h x h' :
  read_anys l h = Some (x, h') ↔ h' = h ∧ h !! l = Some (CAnys x).
Proof. solve_read. Qed.
Lemma read_map_Some l h x h' :
  read_map l h = Some (x, h') ↔ h' = h ∧ h !! l = Some (CMap x).
Proof. solve_read. Qed.
Lemma read_spans_Some l h x h' :
  read_spans l h = Some (x, h') ↔ h' = h ∧ h !! l = Some (CSpans x).
Proof. solve_read. Qed.
Lemma read_markDefs_Some l h x h' :
  read_markDefs l h = Some (x, h') ↔ h' = h ∧ h !! l = Some (CMarkDefs x).
Proof. solve_read. Qed.
Lemma read_nodes_Some l h x h' :
  read_nodes l h = Some (x, h') ↔ h' = h ∧ h !! l = Some (CNodes x).
Proof. solve_read. Qed.

Lemma extends_refl h : extends h h.
Proof.
  split; [done|]. intros l c Hl Hn. congruence.
Qed.

Lemma extends_alloc h0 h c l h' :
  extends h0 h → locs_cell c ⊆ dom h ∖ dom h0 →
  alloc c h = Some (l, h') →
  extends h0 h' ∧ h ⊆ h' ∧ l ∈ dom h' ∖ dom h0.
Proof.
  intros [Hsub Hnew] Hc Ha.
  pose proof (alloc_fresh _ _ _ _ Ha) as Hl.
  apply alloc_Some in Ha as [_ ->].
  assert (h ⊆ <[l:=c]> h) as Hgrow by by apply insert_subseteq.
  assert (h0 !! l = None) as Hl0.
  { apply eq_None_not_Some. intros [c1 E].
    pose proof (lookup_weaken _ _ _ _ E Hsub) as H. congruence. }
  split; [|split; [done|]].
  - split; [by etrans|]. intros p c' Hp Hp0. rewrite dom_insert_L.
    destruct (decide (p = l)) as [->|Hne].
    + rewrite lookup_insert_eq in Hp. simplify_eq. set_solver.
    + rewrite lookup_insert_ne in Hp by done.
      specialize (Hnew p c' Hp Hp0). set_solver.
  - rewrite dom_insert_L. apply not_elem_of_dom in Hl0. set_solver.
Qed.

Lemma locs_list_subseteq {A} (f : A → gset loc) xs (X : gset loc) :
  locs_list f xs ⊆ X ↔ Forall (λ x, f x ⊆ X) xs.
Proof.
  unfold locs_list. induction xs as [|x xs IH]; simpl.
  - split; [by constructor|set_solver].
  - rewrite Forall_cons, <-IH. set_solver.
Qed.

Lemma locs_map_subseteq (m : gmap string any) (X : gset loc) :
  locs_cell (CMap m) ⊆ X ↔ ∀ k v, m !! k = Some v → locs_any v ⊆ X.
Proof.
  simpl. rewrite locs_list_subseteq, Forall_fmap, Forall_forall. split.
  - intros H k v Hk. apply (H (k, v)). by apply elem_of_map_to_list.
  - intros H [k v] Hin. apply (H k v). by apply elem_of_map_to_list.
Qed.

Lemma dom_diff_mono (h0 h h' : heap) :
  h ⊆ h' → dom h ∖ dom h0 ⊆ dom h' ∖ dom h0.
Proof. intros Hs%subseteq_dom. set_solver. Qed.

Lemma copies_for_each {A B} (locs : B → gset loc) (f : A → M B) xs :
  (∀ x, copies locs (f x)) → copies (locs_list locs) (for_each f xs).
Proof.
  intros Hf. induction xs as [|x xs IH]; intros h0 h ys h' Hext Hrun; simpl in Hrun.
  - apply ret_Some in Hrun as [-> ->]. split; [done|]. split; [done|].
    unfold locs_list. simpl. set_solver.
  - apply bind_Some in Hrun as (y & h1 & Hy & Hrun).
    apply bind_Some in Hrun as (ys' & h2 & Hys & Hrun).
    apply ret_Some in Hrun as [-> ->].
    destruct (Hf x h0 h y h1 Hext Hy) as (Hext1 & Hsub1 & Hly).
    destruct (IH h0 h1 ys' h2 Hext1 Hys) as (Hext2 & Hsub2 & Hlys).
    split; [done|]. split; [by etrans|].
    unfold locs_list in *. simpl.
    pose proof (dom_diff_mono h0 _ _ Hsub2). set_solver.
Qed.

Lemma copies_for_each_entry (f : any → M any) kvs :
  (∀ v, copies locs_any (f v)) →
  ∀ out h0 h res h', extends h0 h →
    (∀ k v, out !! k = Some v → locs_any v ⊆ dom h ∖ dom h0) →
    for_each_entry f kvs out h = Some (res, h') →
    extends h0 h' ∧ h ⊆ h'
    ∧ ∀ k v, res !! k = Some v → locs_any v ⊆ dom h' ∖ dom h0.
Proof.
  intros Hf. induction kvs as [|[k v] kvs IH]; intros out h0 h res h' Hext Hout Hrun;
    simpl in Hrun.
  - apply ret_Some in Hrun as [-> ->]. done.
  - apply bind_Some in Hrun as (v' & h1 & Hv & Hrun).
    destruct (Hf v h0 h v' h1 Hext Hv) as (Hext1 & Hsub1 & Hlv).
    assert (∀ k' w, <[k:=v']> out !! k' = Some w →
                    locs_any w ⊆ dom h1 ∖ dom h0) as Hout1.
    { intros k' w Hk'. destruct (decide (k' = k)) as [->|Hne].
      - rewrite lookup_insert_eq in Hk'. by simplify_eq.
      - rewrite lookup_insert_ne in Hk' by done.
        pose proof (dom_diff_mono h0 _ _ Hsub1). specialize (Hout _ _ Hk').
        set_solver. }
    destruct (IH _ h0 h1 res h' Hext1 Hout1 Hrun) as (Hext2 & Hsub2 & Hres).
    split; [done|]. split; [by etrans|done].
Qed.

Lemma copies_deepCopyMap_with (f : any → M any) p :
  (∀ v, copies locs_any (f v)) → copies locs_ref (deepCopyMap_with f p).
Proof.
  intros Hf h0 h a h' Hext Hrun. destruct p as [l|]; simpl in Hrun.
  - apply bind_Some in Hrun as (x & h1 & Hx & Hrun).
    apply read_map_Some in Hx as [-> _].
    apply bind_Some in Hrun as (out & h2 & Hout & Hrun).
    apply bind_Some in Hrun as (q & h3 & Hq & Hrun).
    apply ret_Some in Hrun as [-> ->].
    assert (∀ k v, (∅ : gmap string any) !! k = Some v →
                   locs_any v ⊆ dom h ∖ dom h0) as Hempty.
    { intros k v Hk. by rewrite lookup_empty in Hk. }
    destruct (copies_for_each_entry f _ Hf ∅ h0 h out h2 Hext Hempty Hout)
      as (Hext2 & Hsub2 & Hlocs).
    destruct (extends_alloc h0 h2 (CMap out) q h3 Hext2) as (Hext3 & Hsub3 & Hq3);
      [by apply locs_map_subseteq|done|].
    split; [done|]. split; [by etrans|]. simpl. set_solver.
  - apply ret_Some in Hrun as [-> ->]. split; [done|]. split; [done|].
    simpl. set_solver.
Qed.

Lemma slice_elems_heap {A} (rd : loc → M (list A)) p h xs h' :
  (∀ l h1 x h2, rd l h1 = Some (x, h2) → h2 = h1) →
  slice_elems rd p h = Some (xs, h') → h' = h.
Proof.
  intros Hrd. destruct p as [l|]; simpl.
  - apply Hrd.
  - by intros [_ ->]%ret_Some.
Qed.

Lemma copies_alloc_plain {A} (c : cell) (mk : option loc → A)
    (locs : A → gset loc) :
  locs_cell c = ∅ → (∀ q, locs (mk (Some q)) = {[ q ]}) →
  copies locs (let* q := alloc c in ret (mk (Some q))).
Proof.
  intros Hc Hmk h0 h a h' Hext Hrun.
  apply bind_Some in Hrun as (q & h1 & Hq & Hrun).
  apply ret_Some in Hrun as [-> ->].
  destruct (extends_alloc h0 h c q h1 Hext) as (Hext1 & Hsub1 & Hq1);
    [rewrite Hc; set_solver|done|].
  split; [done|]. split; [done|]. rewrite Hmk. set_solver.
Qed.

Lemma copies_deepCopyAny fuel v : copies locs_any (deepCopyAny fuel v).
Proof.
  revert v. induction fuel as [|fuel IH]; intros v h0 h a h' Hext Hrun; [done|].
  simpl in Hrun. destruct v as [| | | |x|x|x|x].
  1-4: apply ret_Some in Hrun as [-> ->]; split; [done|]; split; [done|];
       simpl; set_solver.
  - apply bind_Some in Hrun as (xs & h1 & Hxs & Hrun).
    apply slice_elems_heap in Hxs as ->;
      [|by intros ? ? ? ? [-> _]%read_anys_Some].
    apply bind_Some in Hrun as (out & h2 & Hout & Hrun).
    apply bind_Some in Hrun as (q & h3 & Hq & Hrun).
    apply ret_Some in Hrun as [-> ->].
    destruct (copies_for_each locs_any _ xs IH h0 h out h2 Hext Hout)
      as (Hext2 & Hsub2 & Hlocs).
    destruct (extends_alloc h0 h2 (CAnys out) q h3 Hext2) as (Hext3 & Hsub3 & Hq3);
      [done..|].
    split; [done|]. split; [by etrans|]. simpl. set_solver.
  - apply bind_Some in Hrun as (q & h1 & Hq & Hrun).
    apply ret_Some in Hrun as [-> ->].
    by apply (copies_deepCopyMap_with _ x IH h0 h q h1).
  - apply bind_Some in Hrun as (bs & h1 & Hbs & Hrun).
    apply slice_elems_heap in Hbs as ->;
      [|by intros ? ? ? ? [-> _]%read_bytes_Some].
    by apply (copies_alloc_plain (CBytes bs) ARawMessage locs_any eq_refl (λ _, eq_refl)
                h0 h a h' Hext Hrun).
  - apply bind_Some in Hrun as (bs & h1 & Hbs & Hrun).
    apply slice_elems_heap in Hbs as ->;
      [|by intros ? ? ? ? [-> _]%read_bytes_Some].
    by apply (copies_alloc_plain (CBytes bs) ABytes locs_any eq_refl (λ _, eq_refl)
                h0 h a h' Hext Hrun).
Qed.

Lemma copies_deepCopyMap fuel p : copies locs_ref (deepCopyMap fuel p).
Proof.
  apply copies_deepCopyMap_with. intros v. apply copies_deepCopyAny.
Qed.

Lemma copies_copy_string_ptr p : copies locs_ref (copy_string_ptr p).
Proof.
  intros h0 h a h' Hext Hrun. destruct p as [l|]; simpl in Hrun.
  - apply bind_Some in Hrun as (s & h1 & [-> _]%read_string_Some & Hrun).
    by apply (copies_alloc_plain (CString s) id locs_ref eq_refl (λ _, eq_refl)
                h0 h a h' Hext Hrun).
  - apply ret_Some in Hrun as [-> ->]. split; [done|]. split; [done|].
    simpl. set_solver.
Qed.

Lemma copies_copy_int_ptr p : copies locs_ref (copy_int_ptr p).
Proof.
  intros h0 h a h' Hext Hrun. destruct p as [l|]; simpl in Hrun.
  - apply bind_Some in Hrun as (z & h1 & [-> _]%read_int_Some & Hrun).
    by apply (copies_alloc_plain (CInt z) id locs_ref eq_refl (λ _, eq_refl)
                h0 h a h' Hext Hrun).
  - apply ret_Some in Hrun as [-> ->]. split; [done|]. split; [done|].
    simpl. set_solver.
Qed.

Lemma copies_append_to_nil marks : copies locs_ref (append_to_nil marks).
Proof.
  intros h0 h a h' Hext Hrun. destruct marks as [|m ms]; simpl in Hrun.
  - apply ret_Some in Hrun as [-> ->]. split; [done|]. split; [done|].
    simpl. set_solver.
  - by apply (copies_alloc_plain (CStrings (m :: ms)) id locs_ref eq_refl
                (λ _, eq_refl) h0 h a h' Hext Hrun).
Qed.

Lemma copies_cloneSpan fuel s : copies locs_span (cloneSpan fuel s).
Proof.
  intros h0 h a h' Hext Hrun. unfold cloneSpan in Hrun.
  apply bind_Some in Hrun as (text & h1 & Htext & Hrun).
  apply bind_Some in Hrun as (marks & h2 & Hmarks & Hrun).
  apply bind_Some in Hrun as (raw & h3 & Hraw & Hrun).
  apply ret_Some in Hrun as [-> ->].
  destruct (copies_copy_string_ptr _ h0 h text h1 Hext Htext)
    as (Hext1 & Hsub1 & Hl1).
  assert (extends h0 h2 ∧ h1 ⊆ h2 ∧ locs_ref marks ⊆ dom h2 ∖ dom h0)
    as (Hext2 & Hsub2 & Hl2).
  { destruct (span_Marks s) as [l|].
    - apply bind_Some in Hmarks as (ms & h1' & [-> _]%read_strings_Some & Hmarks).
      by apply (copies_append_to_nil ms h0 h1 marks h2).
    - apply ret_Some in Hmarks as [-> ->]. split; [done|]. split; [done|].
      simpl. set_solver. }
  destruct (copies_deepCopyMap fuel _ h0 h2 raw h3 Hext2 Hraw)
    as (Hext3 & Hsub3 & Hl3).
  split; [done|]. split; [by do 2 (etrans; [done|])|].
  unfold locs_span. simpl.
  pose proof (dom_diff_mono h0 _ _ Hsub2).
  pose proof (dom_diff_mono h0 _ _ Hsub3). set_solver.
Qed.

Lemma copies_cloneSpans fuel p : copies locs_ref (cloneSpans fuel p).
Proof.
  intros h0 h a h' Hext Hrun. destruct p as [l|]; simpl in Hrun.
  - apply bind_Some in Hrun as (xs & h1 & [-> _]%read_spans_Some & Hrun).
    apply bind_Some in Hrun as (out & h2 & Hout & Hrun).
    apply bind_Some in Hrun as (q & h3 & Hq & Hrun).
    apply ret_Some in Hrun as [-> ->].
    destruct (copies_for_each locs_span _ xs (copies_cloneSpan fuel)
                h0 h out h2 Hext Hout) as (Hext2 & Hsub2 & Hlocs).
    destruct (extends_alloc h0 h2 (CSpans out) q h3 Hext2) as (Hext3 & Hsub3 & Hq3);
      [done..|].
    split; [done|]. split; [by etrans|]. simpl. set_solver.
  - apply ret_Some in Hrun as [-> ->]. split; [done|]. split; [done|].
    simpl. set_solver.
Qed.

Lemma copies_cloneMarkDef fuel md : copies locs_markDef (cloneMarkDef fuel md).
Proof.
  intros h0 h a h' Hext Hrun. unfold cloneMarkDef in Hrun.
  apply bind_Some in Hrun as (raw & h1 & Hraw & Hrun).
  apply ret_Some in Hrun as [-> ->].
  by apply (copies_deepCopyMap fuel (md_Raw md) h0 h raw h1).
Qed.

Lemma copies_cloneMarkDefs fuel p : copies locs_ref (cloneMarkDefs fuel p).
Proof.
  intros h0 h a h' Hext Hrun. destruct p as [l|]; simpl in Hrun.
  - apply bind_Some in Hrun as (xs & h1 & [-> _]%read_markDefs_Some & Hrun).
    apply bind_Some in Hrun as (out & h2 & Hout & Hrun).
    apply bind_Some in Hrun as (q & h3 & Hq & Hrun).
    apply ret_Some in Hrun as [-> ->].
    destruct (copies_for_each locs_markDef _ xs (copies_cloneMarkDef fuel)
                h0 h out h2 Hext Hout) as (Hext2 & Hsub2 & Hlocs).
    destruct (extends_alloc h0 h2 (CMarkDefs out) q h3 Hext2)
      as (Hext3 & Hsub3 & Hq3); [done..|].
    split; [done|]. split; [by etrans|]. simpl. set_solver.
  - apply ret_Some in Hrun as [-> ->]. split; [done|]. split; [done|].
    simpl. set_solver.
Qed.

Lemma copies_Clone fuel n : copies locs_node (Clone fuel n).
Proof.
  intros h0 h a h' Hext Hrun. unfold Clone in Hrun.
  apply bind_Some in Hrun as (style & h1 & H1 & Hrun).
  apply bind_Some in Hrun as (listItem & h2 & H2 & Hrun).
  apply bind_Some in Hrun as (level & h3 & H3 & Hrun).
  apply bind_Some in Hrun as (children & h4 & H4 & Hrun).
  apply bind_Some in Hrun as (markDefs & h5 & H5 & Hrun).
  apply bind_Some in Hrun as (raw & h6 & H6 & Hrun).
  apply ret_Some in Hrun as [-> ->].
  destruct (copies_copy_string_ptr _ h0 h _ h1 Hext H1) as (E1 & S1 & L1).
  destruct (copies_copy_string_ptr _ h0 h1 _ h2 E1 H2) as (E2 & S2 & L2).
  destruct (copies_copy_int_ptr _ h0 h2 _ h3 E2 H3) as (E3 & S3 & L3).
  destruct (copies_cloneSpans fuel _ h0 h3 _ h4 E3 H4) as (E4 & S4 & L4).
  destruct (copies_cloneMarkDefs fuel _ h0 h4 _ h5 E4 H5) as (E5 & S5 & L5).
  destruct (copies_deepCopyMap fuel _ h0 h5 _ h6 E5 H6) as (E6 & S6 & L6).
  split; [done|]. split; [by do 5 (etrans; [done|])|].
  unfold locs_node. simpl.
  pose proof (dom_diff_mono h0 _ _ S2). pose proof (dom_diff_mono h0 _ _ S3).
  pose proof (dom_diff_mono h0 _ _ S4). pose proof (dom_diff_mono h0 _ _ S5).
  pose proof (dom_diff_mono h0 _ _ S6). set_solver.
Qed.

Lemma copies_Filter_loop fuel pred ns :
  ∀ result h0 h res h', extends h0 h →
    locs_list locs_node result ⊆ dom h ∖ dom h0 →
    Filter_loop fuel pred ns result h = Some (res, h') →
    extends h0 h' ∧ h ⊆ h' ∧ locs_list locs_node res ⊆ dom h' ∖ dom h0.
Proof.
  induction ns as [|n ns IH]; intros result h0 h res h' Hext Hres Hrun;
    simpl in Hrun.
  - by apply ret_Some in Hrun as [-> ->].
  - destruct (pred h n); [|by eapply IH].
    apply bind_Some in Hrun as (c & h1 & Hc & Hrun).
    destruct (copies_Clone fuel n h0 h c h1 Hext Hc) as (E1 & S1 & L1).
    destruct (IH (result ++ [c]) h0 h1 res h' E1) as (E2 & S2 & L2); [|done|].
    + pose proof (dom_diff_mono h0 _ _ S1).
      unfold locs_list in *. rewrite fmap_app, union_list_app. simpl. set_solver.
    + split; [done|]. split; [by etrans|done].
Qed.

Lemma copies_Filter fuel doc pred : copies locs_ref (Filter fuel doc pred).
Proof.
  intros h0 h a h' Hext Hrun. unfold Filter in Hrun.
  apply bind_Some in Hrun as (ns & h1 & Hns & Hrun).
  apply slice_elems_heap in Hns as ->;
    [|by intros ? ? ? ? [-> _]%read_nodes_Some].
  apply bind_Some in Hrun as (res & h2 & Hres & Hrun).
  apply bind_Some in Hrun as (q & h3 & Hq & Hrun).
  apply ret_Some in Hrun as [-> ->].
  destruct (copies_Filter_loop fuel pred ns [] h0 h res h2 Hext) as (E2 & S2 & L2);
    [unfold locs_list; simpl; set_solver|done|].
  destruct (extends_alloc h0 h2 (CNodes res) q h3 E2) as (E3 & S3 & L3); [done..|].
  split; [done|]. split; [by etrans|]. simpl. set_solver.
Qed.

(** Everything reachable from roots added since [h0] was added since
    [h0]. *)
Lemma reach_new h0 h (X : gset loc) l :
  extends h0 h → X ⊆ dom h ∖ dom h0 → reach h X l → l ∈ dom h ∖ dom h0.
Proof.
  intros [Hsub Hnew] HX Hr. induction Hr as [l Hl|l0 c l _ IH Hc Hl].
  - set_solver.
  - apply (Hnew l0 c Hc); [|done].
    apply not_elem_of_dom. set_solver.
Qed.

(** A copying computation only adds cells. *)
Lemma copies_grows {A} (locs : A → gset loc) (m : M A) h a h' :
  copies locs m → m h = Some (a, h') → h ⊆ h'.
Proof.
  intros Hm Hrun. by destruct (Hm h h a h' (extends_refl h) Hrun) as (_ & ? & _).
Qed.

(** *** Termination on well-typed heaps *)

Lemma bind_is_Some {A B} (m : M A) (k : A → M B) h a h1 :
  m h = Some (a, h1) → is_Some (k a h1) → is_Some (bind m k h).
Proof. intros Hm Hk. unfold bind. by rewrite Hm. Qed.

Lemma typed_any_mono d h h' v : h ⊆ h' → typed_any d h v → typed_any d h' v.
Proof.
  intros Hsub. revert v. induction d as [|d IH]; intros v; [done|]. simpl.
  destruct v as [| | | |[l|]|[l|]|[l|]|[l|]]; try done.
  - intros (xs & Hl & Hxs). exists xs. split; [by eapply lookup_weaken|].
    eapply Forall_impl; [done|]. intros x. apply IH.
  - intros (m & Hl & Hm). exists m. split; [by eapply lookup_weaken|].
    eapply Forall_impl; [done|]. intros x. apply IH.
  - intros (bs & Hl). exists bs. by eapply lookup_weaken.
  - intros (bs & Hl). exists bs. by eapply lookup_weaken.
Qed.

Lemma for_each_total {A B} (P : heap → A → Prop) (locs : B → gset loc)
    (f : A → M B) xs :
  (∀ h1 h2 x, h1 ⊆ h2 → P h1 x → P h2 x) →
  (∀ x, copies locs (f x)) →
  (∀ x h, P h x → is_Some (f x h)) →
  ∀ h, Forall (P h) xs → is_Some (for_each f xs h).
Proof.
  intros Hmono Hcopies Hf. induction xs as [|x xs IH]; intros h Hall; simpl.
  - by eexists.
  - apply Forall_cons in Hall as [Hx Hxs].
    destruct (Hf x h Hx) as [[y h1] Hy].
    eapply bind_is_Some; [done|].
    assert (h ⊆ h1) as Hsub by by eapply copies_grows.
    destruct (IH h1) as [[ys h2] Hys].
    { eapply Forall_impl; [done|]. intros z. by apply Hmono. }
    eapply bind_is_Some; [done|]. by eexists.
Qed.

Lemma for_each_entry_total (P : heap → any → Prop) (f : any → M any) kvs :
  (∀ h1 h2 x, h1 ⊆ h2 → P h1 x → P h2 x) →
  (∀ v, copies locs_any (f v)) →
  (∀ v h, P h v → is_Some (f v h)) →
  ∀ out h, Forall (P h) (snd <$> kvs) → is_Some (for_each_entry f kvs out h).
Proof.
  intros Hmono Hcopies Hf. induction kvs as [|[k v] kvs IH]; intros out h Hall;
    simpl.
  - by eexists.
  - rewrite fmap_cons in Hall. apply Forall_cons in Hall as [Hx Hxs].
    destruct (Hf v h Hx) as [[y h1] Hy].
    eapply bind_is_Some; [done|].
    assert (h ⊆ h1) as Hsub by by eapply copies_grows.
    apply IH. eapply Forall_impl; [done|]. intros z. by apply Hmono.
Qed.

Lemma deepCopyAny_total d v h : typed_any d h v → is_Some (deepCopyAny d v h).
Proof.
  revert v h. induction d as [|d IH]; intros v h Hv; [done|]. simpl in *.
  destruct v as [| | | |[l|]|[l|]|[l|]|[l|]]; try by eexists.
  - destruct Hv as (xs & Hl & Hxs).
    eapply bind_is_Some; [by apply read_anys_Some|].
    destruct (for_each_total (typed_any d) locs_any (deepCopyAny d) xs) with (h := h)
      as [[out h1] Hout]; [apply typed_any_mono|apply copies_deepCopyAny|done..|].
    eapply bind_is_Some; [done|]. by eexists.
  - destruct Hv as (m & Hl & Hm).
    destruct (for_each_entry_total (typed_any d) (deepCopyAny d) (map_to_list m))
      with (out := (∅ : gmap string any)) (h := h)
      as [[out h1] Hout]; [apply typed_any_mono|apply copies_deepCopyAny|done..|].
    eapply bind_is_Some; [|by eexists].
    eapply bind_Some. eexists _, _. split; [by apply read_map_Some|].
    eapply bind_Some. eexists _, _. split; [done|].
    eapply bind_Some. eexists _, _. split; [by apply alloc_Some|]. by apply ret_Some.
  - destruct Hv as (bs & Hl).
    eapply bind_is_Some; [by apply read_bytes_Some|]. by eexists.
  - destruct Hv as (bs & Hl).
    eapply bind_is_Some; [by apply read_bytes_Some|]. by eexists.
Qed.

Lemma deepCopyMap_total d p h : typed_raw d h p → is_Some (deepCopyMap d p h).
Proof.
  unfold typed_raw, deepCopyMap. destruct p as [l|]; [|by eexists]. simpl.
  intros (m & Hl & Hm).
  destruct (for_each_entry_total (typed_any d) (deepCopyAny d) (map_to_list m))
    with (out := (∅ : gmap string any)) (h := h)
    as [[out h1] Hout];
    [apply typed_any_mono|apply copies_deepCopyAny|apply deepCopyAny_total|done|].
  eapply bind_is_Some; [by apply read_map_Some|].
  eapply bind_is_Some; [done|]. by eexists.
Qed.

Lemma typed_string_ptr_mono h h' p :
  h ⊆ h' → typed_string_ptr h p → typed_string_ptr h' p.
Proof.
  intros Hsub. destruct p as [l|]; [|done]. intros [s Hs]. exists s.
  by eapply lookup_weaken.
Qed.

Lemma typed_int_ptr_mono h h' p :
  h ⊆ h' → typed_int_ptr h p → typed_int_ptr h' p.
Proof.
  intros Hsub. destruct p as [l|]; [|done]. intros [z Hz]. exists z.
  by eapply lookup_weaken.
Qed.

Lemma typed_raw_mono d h h' p : h ⊆ h' → typed_raw d h p → typed_raw d h' p.
Proof. apply typed_any_mono. Qed.

Lemma typed_span_mono d h h' s : h ⊆ h' → typed_span d h s → typed_span d h' s.
Proof.
  intros Hsub (Ht & Hm & Hr). split; [by eapply typed_string_ptr_mono|].
  split; [|by eapply typed_raw_mono].
  destruct (span_Marks s) as [l|]; [|done]. destruct Hm as [ms Hms].
  exists ms. by eapply lookup_weaken.
Qed.

Lemma typed_markDef_mono d h h' md :
  h ⊆ h' → typed_markDef d h md → typed_markDef d h' md.
Proof. apply typed_raw_mono. Qed.

Lemma typed_node_mono d h h' n : h ⊆ h' → typed_node d h n → typed_node d h' n.
Proof.
  intros Hsub (Hs & Hl & Hv & Hc & Hm & Hr).
  split; [by eapply typed_string_ptr_mono|].
  split; [by eapply typed_string_ptr_mono|].
  split; [by eapply typed_int_ptr_mono|].
  split; [|split; [|by eapply typed_raw_mono]].
  - destruct (node_Children n) as [l|]; [|done]. destruct Hc as (xs & Hxs & Hall).
    exists xs. split; [by eapply lookup_weaken|].
    eapply Forall_impl; [done|]. intros x. by apply typed_span_mono.
  - destruct (node_MarkDefs n) as [l|]; [|done]. destruct Hm as (xs & Hxs & Hall).
    exists xs. split; [by eapply lookup_weaken|].
    eapply Forall_impl; [done|]. intros x. by apply typed_markDef_mono.
Qed.

Lemma copy_string_ptr_total h p :
  typed_string_ptr h p → is_Some (copy_string_ptr p h).
Proof.
  destruct p as [l|]; [|by eexists]. intros [s Hs]. simpl.
  eapply bind_is_Some; [by apply read_string_Some|]. by eexists.
Qed.

Lemma copy_int_ptr_total h p : typed_int_ptr h p → is_Some (copy_int_ptr p h).
Proof.
  destruct p as [l|]; [|by eexists]. intros [z Hz]. simpl.
  eapply bind_is_Some; [by apply read_int_Some|]. by eexists.
Qed.

Lemma cloneSpan_total d s h : typed_span d h s → is_Some (cloneSpan d s h).
Proof.
  intros (Ht & Hm & Hr). unfold cloneSpan.
  destruct (copy_string_ptr_total h _ Ht) as [[text h1] H1].
  eapply bind_is_Some; [done|].
  pose proof (copies_grows _ _ _ _ _ (copies_copy_string_ptr _) H1) as S1.
  assert (∃ marks h2,
            match span_Marks s with
            | Some l => let* ms := read_strings l in append_to_nil ms
            | None => ret None
            end h1 = Some (marks, h2) ∧ h1 ⊆ h2) as (marks & h2 & H2 & S2).
  { destruct (span_Marks s) as [l|]; [|by eexists _, _].
    destruct Hm as [ms Hms]. eapply lookup_weaken in Hms; [|done].
    destruct (append_to_nil ms h1) as [[marks h2]|] eqn:Ha.
    - exists marks, h2. split.
      + apply bind_Some. eexists _, _. split; [by apply read_strings_Some|done].
      + by eapply copies_grows; [apply copies_append_to_nil|].
    - by destruct ms. }
  eapply bind_is_Some; [done|].
  destruct (deepCopyMap_total d (span_Raw s) h2) as [[raw h3] H3].
  { eapply typed_raw_mono; [|done]. by etrans. }
  eapply bind_is_Some; [done|]. by eexists.
Qed.

Lemma cloneSpans_total d p h :
  match p with
  | None => True
  | Some l => ∃ xs, h !! l = Some (CSpans xs) ∧ Forall (typed_span d h) xs
  end → is_Some (cloneSpans d p h).
Proof.
  destruct p as [l|]; [|by eexists]. intros (xs & Hxs & Hall). simpl.
  eapply bind_is_Some; [by apply read_spans_Some|].
  destruct (for_each_total (typed_span d) locs_span (cloneSpan d) xs) with (h := h)
    as [[out h1] Hout];
    [apply typed_span_mono|apply copies_cloneSpan|apply cloneSpan_total|done|].
  eapply bind_is_Some; [done|]. by eexists.
Qed.

Lemma cloneMarkDef_total d md h :
  typed_markDef d h md → is_Some (cloneMarkDef d md h).
Proof.
  intros Hr. unfold cloneMarkDef.
  destruct (deepCopyMap_total d (md_Raw md) h Hr) as [[raw h1] H1].
  eapply bind_is_Some; [done|]. by eexists.
Qed.

Lemma cloneMarkDefs_total d p h :
  match p with
  | None => True
  | Some l => ∃ xs, h !! l = Some (CMarkDefs xs) ∧ Forall (typed_markDef d h) xs
  end → is_Some (cloneMarkDefs d p h).
Proof.
  destruct p as [l|]; [|by eexists]. intros (xs & Hxs & Hall). simpl.
  eapply bind_is_Some; [by apply read_markDefs_Some|].
  destruct (for_each_total (typed_markDef d) locs_markDef (cloneMarkDef d) xs)
    with (h := h) as [[out h1] Hout];
    [apply typed_markDef_mono|apply copies_cloneMarkDef
    |apply cloneMarkDef_total|done|].
  eapply bind_is_Some; [done|]. by eexists.
Qed.

Lemma Clone_total d n h : typed_node d h n → is_Some (Clone d n h).
Proof.
  intros Hn. unfold Clone.
  destruct (copy_string_ptr_total h (node_Style n)) as [[a1 h1] H1]; [apply Hn|].
  eapply bind_is_Some; [done|].
  pose proof (copies_grows _ _ _ _ _ (copies_copy_string_ptr _) H1) as S1.
  apply (typed_node_mono d h h1 n S1) in Hn.
  destruct (copy_string_ptr_total h1 (node_ListItem n)) as [[a2 h2] H2]; [apply Hn|].
  eapply bind_is_Some; [done|].
  pose proof (copies_grows _ _ _ _ _ (copies_copy_string_ptr _) H2) as S2.
  apply (typed_node_mono d h1 h2 n S2) in Hn.
  destruct (copy_int_ptr_total h2 (node_Level n)) as [[a3 h3] H3]; [apply Hn|].
  eapply bind_is_Some; [done|].
  pose proof (copies_grows _ _ _ _ _ (copies_copy_int_ptr _) H3) as S3.
  apply (typed_node_mono d h2 h3 n S3) in Hn.
  destruct (cloneSpans_total d (node_Children n) h3) as [[a4 h4] H4]; [apply Hn|].
  eapply bind_is_Some; [done|].
  pose proof (copies_grows _ _ _ _ _ (copies_cloneSpans _ _) H4) as S4.
  apply (typed_node_mono d h3 h4 n S4) in Hn.
  destruct (cloneMarkDefs_total d (node_MarkDefs n) h4) as [[a5 h5] H5]; [apply Hn|].
  eapply bind_is_Some; [done|].
  pose proof (copies_grows _ _ _ _ _ (copies_cloneMarkDefs _ _) H5) as S5.
  apply (typed_node_mono d h4 h5 n S5) in Hn.
  destruct (deepCopyMap_total d (node_Raw n) h5) as [[a6 h6] H6]; [apply Hn|].
  eapply bind_is_Some; [done|]. by eexists.
Qed.

(** The typed fields a clone shares with its original by value. *)
Lemma Clone_head d n h c h' :
  Clone d n h = Some (c, h') →
  node_Type c = node_Type n ∧ node_Key c = node_Key n.
Proof.
  unfold Clone. intros Hrun.
  repeat (apply bind_Some in Hrun as (? & ? & _ & Hrun)).
  by apply ret_Some in Hrun as [-> _].
Qed.

Lemma Filter_loop_total d pred ns :
  (∀ h1 h2 n, h1 ⊆ h2 → pred h2 n = pred h1 n) →
  ∀ result h, Forall (typed_node d h) ns →
    ∃ (h' : heap) (picked : list Node),
      Filter_loop d pred ns result h = Some (result ++ picked, h')
      ∧ Forall2 (λ n c, node_Type c = node_Type n ∧ node_Key c = node_Key n)
          (List.filter (pred h) ns) picked.
Proof.
  intros Hpred. induction ns as [|n ns IH]; intros result h Hall; simpl.
  - exists h, []. split; [by rewrite app_nil_r|constructor].
  - apply Forall_cons in Hall as [Hn Hns]. destruct (pred h n) eqn:Hp.
    + destruct (Clone_total d n h Hn) as [[c h1] Hc].
      pose proof (copies_grows _ _ _ _ _ (copies_Clone _ _) Hc) as S1.
      destruct (IH (result ++ [c]) h1) as (h' & picked & Hrun & Hsel).
      { eapply Forall_impl; [done|]. intros x. by apply typed_node_mono. }
      exists h', (c :: picked). split.
      * unfold bind. rewrite Hc, Hrun. by rewrite <-app_assoc.
      * constructor; [by eapply Clone_head|].
        erewrite List.filter_ext; [done|]. intros x. simpl. symmetry. by apply Hpred.
    + destruct (IH result h Hns) as (h' & picked & Hrun & Hsel).
      by exists h', picked.
Qed.

(** *** Filter: a new document, independent of the input *)



(** C8 on a span whose [Marks] is the empty, non-nil slice (what
    ["marks":[]] decodes to): [Filter] with the always-true predicate
    returns a node whose span has [Marks] nil.  The copy is independent
    of its original but is not equal to it. *)
Theorem Filter_drops_empty_marks :
  let h : heap :=
    list_to_map
      [(1%positive, CStrings []);
       (2%positive, CSpans [mkSpan "span" None (Some 1%positive) None]);
       (3%positive, CNodes [mkNode "block" "" None (Some 2%positive) None
                              None None None])] in
  ∃ q h' c s,
    Filter 0 (Some 3%positive) (λ _ _, true) h = Some (Some q, h')
    ∧ h' !! q = Some (CNodes [mkNode "block" "" None (Some c) None None None None])
    ∧ h' !! c = Some (CSpans [s])
    ∧ span_Marks s = None
    ∧ h' !! 2%positive = Some (CSpans [mkSpan "span" None (Some 1%positive) None])
    ∧ h' !! 1%positive = Some (CStrings []).
Proof.
  intros h. eexists _, _, _, _.
  split; [vm_compute; reflexivity|]. by vm_compute.
Qed.

End MemFacts.

(* ====================================================================== *)
(** * Further properties of the package *)
(* ====================================================================== *)

(** ** Decode, element by element *)

Lemma Decode_loop_Ok items :
  ∀ i doc D,
    Decode_loop i items doc = Ok D →
    ∃ ns, D = (match items with [] => doc | _ => Some (elems doc ++ ns) end)
      ∧ length ns = length items
      ∧ ∀ j item, items !! j = Some item →
          ∃ n, ns !! j = Some n
               ∧ parseNode item ("[" +:+ itoa (i + j) +:+ "]") = Ok n.
Proof.
  induction items as [|rm rest IH]; intros i doc D Hl; simpl in Hl.
  - inversion Hl; subst. exists []. split; [done|]. split; [done|].
    intros j item Hj. by rewrite lookup_nil in Hj.
  - destruct (parseNode rm _) as [n|] eqn:Hn; [|done]. simpl in Hl.
    apply IH in Hl as (ns & -> & Hlen & Hall). exists (n :: ns).
    split.
    { unfold append. simpl. destruct rest; simpl.
      - destruct ns; [done|discriminate Hlen].
      - by rewrite <-app_assoc. }
    split; [simpl; by rewrite Hlen|].
    intros [|j] item Hj; simpl in *.
    + inversion Hj; subst. exists n. by rewrite Nat.add_0_r.
    + destruct (Hall j item Hj) as (n' & Hn' & Hp). exists n'.
      split; [done|]. by replace (i + S j)%nat with (S i + j)%nat by lia.
Qed.

(** X3.  A successful [Decode] returns one node per array element, in
    order: the node at index [j] is what [parseNode] makes of element [j]
    under the path ["[j]"]. *)
Theorem Decode_elementwise (items : list json) (D : Document) :
  Decode (JArray items) = Ok D →
  length (elems D) = length items
  ∧ ∀ j item, items !! j = Some item →
      ∃ n, elems D !! j = Some n
           ∧ parseNode item ("[" +:+ itoa j +:+ "]") = Ok n.
Proof.
  unfold Decode. intros Hl.
  apply Decode_loop_Ok in Hl as (ns & -> & Hlen & Hall).
  destruct items as [|rm rest].
  - destruct ns; [|discriminate Hlen]. split; [done|].
    intros j item Hj. by rewrite lookup_nil in Hj.
  - simpl elems. split; [done|]. apply Hall.
Qed.

Lemma Decode_elementwise_witness :
  ∃ D, Decode (JArray [JObject (list_to_map [("_type", JString "a")]);
                       JObject (list_to_map [("_type", JString "b")])]) = Ok D
       ∧ length (elems D) = 2%nat.
Proof.
  destruct (Decode (JArray [JObject (list_to_map [("_type", JString "a")]);
                            JObject (list_to_map [("_type", JString "b")])]))
    as [D|e] eqn:HD; [|by vm_compute in HD].
  exists D. split; [done|]. by apply Decode_elementwise in HD as [-> _].
Defined.

Lemma Decode_loop_Err items :
  ∀ i doc e,
    Decode_loop i items doc = Err e →
    ∃ j item, items !! j = Some item
      ∧ parseNode item ("[" +:+ itoa (i + j) +:+ "]") = Err e
      ∧ ∀ j' item', (j' < j)%nat → items !! j' = Some item' →
          is_Ok (parseNode item' ("[" +:+ itoa (i + j') +:+ "]")).
Proof.
  induction items as [|rm rest IH]; intros i doc e Hl; simpl in Hl; [done|].
  destruct (parseNode rm _) as [n|e'] eqn:Hn; simpl in Hl.
  - apply IH in Hl as (j & item & Hj & Hp & Hbefore).
    exists (S j), item. split; [done|].
    split; [by replace (i + S j)%nat with (S i + j)%nat by lia|].
    intros [|j'] item' Hlt Hj'; simpl in Hj'.
    + inversion Hj'; subst. rewrite Nat.add_0_r. by eexists.
    + replace (i + S j')%nat with (S i + j')%nat by lia.
      apply (Hbefore j' item'); [lia|done].
  - inversion Hl; subst. exists 0%nat, rm. split; [done|].
    rewrite Nat.add_0_r. split; [done|]. intros j' item' Hlt. lia.
Qed.

(** The errors of the parsers are located: the path of an error extends
    the path the parser was called with. *)
Lemma range_obj_Err_inv {T} (body : string → json → T → result Error T)
    kvs t e :
  range_obj body kvs t = Err e →
  ∃ k v t0, (k, v) ∈ kvs ∧ body k v t0 = Err e.
Proof.
  revert t. induction kvs as [|[k v] rest IH]; intros t Hr; simpl in Hr; [done|].
  destruct (body k v t) as [t1|e1] eqn:Hb; simpl in Hr.
  - destruct (IH _ Hr) as (k' & v' & t0 & Hin & Hb'). exists k', v', t0.
    split; [by right|done].
  - inversion Hr; subst. exists k, v, t. split; [by left|done].
Qed.

Lemma append_assoc_s (a b c : string) : (a +:+ b) +:+ c = a +:+ (b +:+ c).
Proof.
  induction a as [|x a IH]; [done|].
  change (String x ((a +:+ b) +:+ c) = String x (a +:+ (b +:+ c))).
  by rewrite IH.
Qed.

Lemma check_type_Err op path obj e :
  check_type op path obj = Err e →
  Op e = op ∧ Path e = path
  ∧ (Err_ e = ErrMissingType ∨ Err_ e = ErrInvalidType).
Proof.
  unfold check_type. destruct (obj !! "_type") as [[]|]; try case_decide;
    intros [= <-]; simpl; auto.
Qed.

Lemma parseSpan_Err b path e :
  parseSpan b path = Err e →
  Op e = "span" ∧ (Path e = path ∨ Path e = path +:+ ".marks").
Proof.
  unfold parseSpan. destruct (decodeObjectUseNumber b) as [obj|k] eqn:Hd.
  - destruct (check_type "span" path obj) as [ts|e'] eqn:Hc; simpl.
    + intros (k & v & s & _ & Hb)%range_obj_Err_inv.
      unfold parseSpan_field in Hb.
      repeat case_decide; try done; destruct v; try done;
        try destruct (parseMarks _ _); try done; inversion Hb; subst; simpl; auto.
    + intros [= <-]. apply check_type_Err in Hc as (? & ? & _). auto.
  - intros [= <-]. simpl. auto.
Qed.

Lemma parseMarkDef_Err b path e :
  parseMarkDef b path = Err e → Op e = "markDef" ∧ Path e = path.
Proof.
  unfold parseMarkDef. destruct (decodeObjectUseNumber b) as [obj|k] eqn:Hd.
  - destruct (check_type "markDef" path obj) as [ts|e'] eqn:Hc; simpl.
    + intros He. destruct (parseMarkDef_loop_total obj
                             (parseMarkDef_key obj (mkMarkDef "" ts ∅))) as [md Hmd].
      congruence.
    + intros [= <-]. apply check_type_Err in Hc as (? & ? & _). auto.
  - intros [= <-]. simpl. auto.
Qed.

Lemma parseSpanArray_loop_Err path arr :
  ∀ i out e, parseSpanArray_loop path i arr out = Err e →
    Op e = "span" ∧ ∃ suf, Path e = path +:+ suf.
Proof.
  induction arr as [|item rest IH]; intros i out e Hl; simpl in Hl; [done|].
  destruct (parseSpan item _) as [s|e'] eqn:Hs; simpl in Hl; [by eapply IH|].
  inversion Hl; subst. apply parseSpan_Err in Hs as [Hop [Hp|Hp]].
  - split; [done|]. eexists. by rewrite Hp.
  - split; [done|]. eexists. rewrite Hp. by rewrite append_assoc_s.
Qed.

Lemma parseMarkDefArray_loop_Err path arr :
  ∀ i out e, parseMarkDefArray_loop path i arr out = Err e →
    Op e = "markDef" ∧ ∃ suf, Path e = path +:+ suf.
Proof.
  induction arr as [|item rest IH]; intros i out e Hl; simpl in Hl; [done|].
  destruct (parseMarkDef item _) as [s|e'] eqn:Hs; simpl in Hl; [by eapply IH|].
  inversion Hl; subst. apply parseMarkDef_Err in Hs as [Hop Hp].
  split; [done|]. eexists. by rewrite Hp.
Qed.

Lemma append_empty_r (s : string) : s +:+ "" = s.
Proof.
  induction s as [|c s IH]; [done|].
  change (String c (s +:+ "") = String c s). by rewrite IH.
Qed.

Local Ltac op_elem := repeat first [by left | right].

Lemma parseNode_Err b path e :
  parseNode b path = Err e →
  Op e ∈ ["node"; "span"; "markDef"] ∧ ∃ suf, Path e = path +:+ suf.
Proof.
  assert (Hhere : ∀ p : string, ∃ suf, p = p +:+ suf).
  { intros p. exists "". by rewrite append_empty_r. }
  unfold parseNode. destruct (decodeObjectUseNumber b) as [obj|k] eqn:Hd.
  - destruct (check_type "node" path obj) as [ts|e'] eqn:Hc; simpl.
    + intros (k & v & n & _ & Hb)%range_obj_Err_inv.
      unfold parseNode_field in Hb.
      destruct (decide (k = "_type")); [done|].
      destruct (decide (k = "_key")); [by destruct v|].
      destruct (decide (k = "style")); [by destruct v|].
      destruct (decide (k = "children")).
      { assert (parseSpanArray v (path +:+ ".children") = Err e) as Ha.
        { destruct v; try done;
            (destruct (parseSpanArray _ _) as [?|?] eqn:Ha in Hb; [done|];
             simpl in Hb; by inversion Hb; subst). }
        unfold parseSpanArray in Ha. destruct v; try (inversion Ha; subst; simpl;
          split; [op_elem|by eexists]).
        destruct l; [done|].
        apply parseSpanArray_loop_Err in Ha as (Hop & suf & Hp).
        split; [rewrite Hop; op_elem|].
        eexists. rewrite Hp. by rewrite append_assoc_s. }
      destruct (decide (k = "markDefs")).
      { assert (parseMarkDefArray v (path +:+ ".markDefs") = Err e) as Ha.
        { destruct v; try done;
            (destruct (parseMarkDefArray _ _) as [?|?] eqn:Ha in Hb; [done|];
             simpl in Hb; by inversion Hb; subst). }
        unfold parseMarkDefArray in Ha. destruct v; try (inversion Ha; subst; simpl;
          split; [op_elem|by eexists]).
        destruct l; [done|].
        apply parseMarkDefArray_loop_Err in Ha as (Hop & suf & Hp).
        split; [rewrite Hop; op_elem|].
        eexists. rewrite Hp. by rewrite append_assoc_s. }
      destruct (decide (k = "listItem")); [by destruct v|].
      destruct (decide (k = "level")); [|done].
      destruct v; try done. destruct (Number_Int64 lit); [done|].
      inversion Hb; subst; simpl. split; [op_elem|by eexists].
    + intros [= <-]. apply check_type_Err in Hc as (-> & -> & _).
      split; [op_elem|apply Hhere].
  - intros [= <-]. simpl. split; [op_elem|apply Hhere].
Qed.



(** X5.  The elements after the first one that fails play no part: with a
    prefix that parses and an element that fails with [e], [Decode]
    returns [e] whatever follows. *)
Theorem Decode_fail_fast (pre post : list json) (bad : json) (e : Error) :
  (∀ j item, pre !! j = Some item →
             is_Ok (parseNode item ("[" +:+ itoa j +:+ "]"))) →
  parseNode bad ("[" +:+ itoa (length pre) +:+ "]") = Err e →
  Decode (JArray (pre ++ bad :: post)) = Err e.
Proof.
  intros Hpre Hbad. unfold Decode.
  assert (∀ i doc,
            (∀ j item, pre !! j = Some item →
                       is_Ok (parseNode item ("[" +:+ itoa (i + j) +:+ "]"))) →
            parseNode bad ("[" +:+ itoa (i + length pre) +:+ "]") = Err e →
            Decode_loop i (pre ++ bad :: post) doc = Err e) as Hgen.
  { clear Hpre Hbad. induction pre as [|p pre IH]; intros i doc Hpre Hbad; simpl.
    - simpl in Hbad. rewrite Nat.add_0_r in Hbad. by rewrite Hbad.
    - destruct (Hpre 0%nat p eq_refl) as [n Hn]. rewrite Nat.add_0_r in Hn.
      rewrite Hn. simpl. apply IH.
      + intros j item Hj. replace (S i + j)%nat with (i + S j)%nat by lia.
        by apply Hpre.
      + by replace (S i + length pre)%nat with (i + length (p :: pre))%nat
          by (simpl; lia). }
  by apply Hgen.
Qed.

Lemma Decode_fail_fast_witness :
  Decode (JArray ([JObject (list_to_map [("_type", JString "a")])]
                  ++ JNull :: [JBool true; JNumber "1"]))
  = Err (wrap "node" "[1]" ErrExpectedObject).
Proof.
  apply Decode_fail_fast.
  - intros [|j] item Hj; simpl in Hj; [|by rewrite lookup_nil in Hj].
    inversion Hj; subst.
    destruct (parseNode _ _) as [n|e] eqn:Hp; [by eexists|by vm_compute in Hp].
  - vm_compute. reflexivity.
Defined.

(** ** Which input is accepted *)

Lemma range_obj_accepts {T} (body : string → json → T → result Error T)
    (ok : string → json → bool) kvs t :
  (∀ k v t0, is_Ok (body k v t0) ↔ ok k v = true) →
  is_Ok (range_obj body kvs t) ↔ ∀ k v, (k, v) ∈ kvs → ok k v = true.
Proof.
  intros Hok. split.
  - revert t. induction kvs as [|[k v] rest IH]; intros t Hrun k' v' Hin.
    + by apply elem_of_nil in Hin.
    + simpl in Hrun. destruct (body k v t) as [t1|e] eqn:Hb;
        [|by destruct Hrun]. simpl in Hrun.
      apply elem_of_cons in Hin as [[= -> ->]|Hin].
      * apply (Hok k v t). by eexists.
      * by apply (IH t1).
  - intros Hall. apply range_obj_is_Ok. intros k v t0 Hin.
    apply Hok. by apply Hall.
Qed.

Local Ltac ok_iff :=
  split; intros ?H; first [done | by eexists | by destruct H].

Lemma check_type_accepts op path obj :
  is_Ok (check_type op path obj) ↔ accepts_type obj = true.
Proof.
  unfold check_type, accepts_type.
  destruct (obj !! "_type") as [[]|]; try (split; [by intros [? ?]|done]).
  case_decide; subst.
  - split; [by intros [? ?]|]. by rewrite bool_decide_eq_true.
  - split; [|by eexists]. intros _. by apply bool_decide_eq_true.
Qed.

Lemma parseMarks_accepts a :
  ∀ acc, is_Some (parseMarks a acc) ↔ forallb is_JString a = true.
Proof.
  induction a as [|it a IH]; intros acc; simpl; [by split; [|eexists]|].
  destruct it; simpl; try (split; [by intros [? ?]|done]). apply IH.
Qed.

Lemma parseSpan_field_accepts path k v s :
  is_Ok (parseSpan_field path k v s) ↔ span_field_ok k v = true.
Proof.
  unfold parseSpan_field, span_field_ok.
  destruct (decide (k = "_type")) as [->|?]; [ok_iff|].
  destruct (decide (k = "text")) as [->|?]; [destruct v; ok_iff|].
  destruct (decide (k = "marks")) as [->|?]; [|ok_iff].
  destruct v; simpl; try ok_iff.
  rewrite <-(parseMarks_accepts l []).
  destruct (parseMarks l []); ok_iff.
Qed.

Lemma fields_ok_at {ok : string → json → bool} (obj : gmap string json)
    (k0 : string) (f : option json → bool) :
  (∀ k v, k ≠ k0 → ok k v = true) →
  (∀ v, ok k0 v = f (Some v)) → f None = true →
  (∀ k v, (k, v) ∈ map_to_list obj → ok k v = true) ↔ f (obj !! k0) = true.
Proof.
  intros Hother Hat Hnone. split.
  - intros Hall. destruct (obj !! k0) as [v|] eqn:Hk; [|done].
    rewrite <-Hat. apply Hall. by apply elem_of_map_to_list.
  - intros Hf k v Hin%elem_of_map_to_list.
    destruct (decide (k = k0)) as [->|?]; [|by apply Hother].
    rewrite Hat. by rewrite <-Hin.
Qed.

Lemma parseSpan_is_Ok_iff (b : json) (path : string) :
  is_Ok (parseSpan b path) ↔ accepts_span b = true.
Proof.
  unfold parseSpan, accepts_span.
  destruct b; simpl; try (split; [by intros [? ?]|done]).
  rewrite andb_true_iff, <-(check_type_accepts "span" path).
  destruct (check_type "span" path m) as [ts|e]; simpl.
  - rewrite (range_obj_accepts _ span_field_ok)
      by (intros; apply parseSpan_field_accepts).
    rewrite (fields_ok_at m "marks" accepts_marks); first last.
    + done.
    + intros v. unfold span_field_ok. by rewrite decide_True.
    + intros k v Hne. unfold span_field_ok. by rewrite decide_False.
    + split; [intros ?; split; [by eexists|done]|by intros [_ ?]].
  - split; [by intros [? ?]|]. by intros [[? ?] _].
Qed.

Lemma parseMarkDef_is_Ok_iff (b : json) (path : string) :
  is_Ok (parseMarkDef b path) ↔ accepts_markDef b = true.
Proof.
  unfold parseMarkDef, accepts_markDef.
  destruct b; simpl; try (split; [by intros [? ?]|done]).
  rewrite <-(check_type_accepts "markDef" path).
  destruct (check_type "markDef" path m) as [ts|e]; simpl.
  - split; [by eexists|]. intros _. apply parseMarkDef_loop_total.
  - split; by intros [? ?].
Qed.

Lemma parseSpanArray_loop_accepts path arr :
  ∀ i out, is_Ok (parseSpanArray_loop path i arr out)
           ↔ forallb accepts_span arr = true.
Proof.
  induction arr as [|item rest IH]; intros i out; simpl; [by split; [|eexists]|].
  rewrite andb_true_iff, <-(parseSpan_is_Ok_iff item (path +:+ "[" +:+ itoa i +:+ "]")).
  destruct (parseSpan item _) as [s|e]; simpl.
  - rewrite IH. split; [by split; [eexists|]|by intros [_ ?]].
  - split; [by intros [? ?]|]. by intros [[? ?] _].
Qed.

Lemma parseMarkDefArray_loop_accepts path arr :
  ∀ i out, is_Ok (parseMarkDefArray_loop path i arr out)
           ↔ forallb accepts_markDef arr = true.
Proof.
  induction arr as [|item rest IH]; intros i out; simpl; [by split; [|eexists]|].
  rewrite andb_true_iff,
    <-(parseMarkDef_is_Ok_iff item (path +:+ "[" +:+ itoa i +:+ "]")).
  destruct (parseMarkDef item _) as [s|e]; simpl.
  - rewrite IH. split; [by split; [eexists|]|by intros [_ ?]].
  - split; [by intros [? ?]|]. by intros [[? ?] _].
Qed.

Lemma parseNode_field_accepts path k v n :
  is_Ok (parseNode_field path k v n) ↔ node_field_ok k v = true.
Proof.
  unfold parseNode_field, node_field_ok.
  destruct (decide (k = "_type")) as [->|?]; [ok_iff|].
  destruct (decide (k = "_key")) as [->|?]; [destruct v; ok_iff|].
  destruct (decide (k = "style")) as [->|?]; [destruct v; ok_iff|].
  destruct (decide (k = "children")) as [->|?].
  { destruct v; simpl; try ok_iff.
    destruct l as [|it l]; [ok_iff|].
    rewrite <-(parseSpanArray_loop_accepts (path +:+ ".children") (it :: l) 0 []).
    destruct (parseSpanArray_loop _ _ _ _); simpl; ok_iff. }
  destruct (decide (k = "markDefs")) as [->|?].
  { destruct v; simpl; try ok_iff.
    destruct l as [|it l]; [ok_iff|].
    rewrite <-(parseMarkDefArray_loop_accepts (path +:+ ".markDefs") (it :: l) 0 []).
    destruct (parseMarkDefArray_loop _ _ _ _); simpl; ok_iff. }
  destruct (decide (k = "listItem")) as [->|?]; [destruct v; ok_iff|].
  destruct (decide (k = "level")) as [->|?]; [|ok_iff].
  destruct v; simpl; try ok_iff.
  rewrite bool_decide_eq_true.
  destruct (Number_Int64 lit); simpl; ok_iff.
Qed.

Lemma node_fields_ok (obj : gmap string json) :
  (∀ k v, (k, v) ∈ map_to_list obj → node_field_ok k v = true)
  ↔ accepts_array accepts_span (obj !! "children") = true
    ∧ accepts_array accepts_markDef (obj !! "markDefs") = true
    ∧ accepts_level (obj !! "level") = true.
Proof.
  split.
  - intros Hall. repeat split;
      match goal with
      | |- _ (obj !! ?k) = true =>
          destruct (obj !! k) as [v|] eqn:Hk; [|done];
          apply elem_of_map_to_list in Hk; apply Hall in Hk;
          unfold node_field_ok in Hk; by repeat (case_decide; try done)
      end.
  - intros (Hc & Hm & Hl) k v Hin%elem_of_map_to_list. unfold node_field_ok.
    repeat case_decide; subst; try done; by rewrite <-Hin.
Qed.

Lemma parseNode_is_Ok_iff (b : json) (path : string) :
  is_Ok (parseNode b path) ↔ accepts_node b = true.
Proof.
  unfold parseNode, accepts_node.
  destruct b; simpl; try (split; [by intros [? ?]|done]).
  rewrite !andb_true_iff, <-(check_type_accepts "node" path).
  destruct (check_type "node" path m) as [ts|e]; simpl.
  - rewrite (range_obj_accepts _ node_field_ok)
      by (intros; apply parseNode_field_accepts).
    rewrite node_fields_ok.
    split; [intros (? & ? & ?); repeat split; [by eexists|done..]|].
    by intros [[[_ ?] ?] ?].
  - split; [by intros [? ?]|]. by intros [[[[? ?] _] _] _].
Qed.

Lemma Decode_loop_accepts items :
  ∀ i doc, is_Ok (Decode_loop i items doc) ↔ forallb accepts_node items = true.
Proof.
  induction items as [|rm rest IH]; intros i doc; simpl; [by split; [|eexists]|].
  rewrite andb_true_iff, <-(parseNode_is_Ok_iff rm ("[" +:+ itoa i +:+ "]")).
  destruct (parseNode rm _) as [n|e]; simpl.
  - rewrite IH. split; [by split; [eexists|]|by intros [_ ?]].
  - split; [by intros [? ?]|]. by intros [[? ?] _].
Qed.

(** X6.  [Decode] succeeds exactly on the arrays whose elements are all
    accepted nodes. *)
Theorem Decode_accepts (r : json) :
  is_Ok (Decode r) ↔ accepts_document r = true.
Proof.
  unfold Decode, accepts_document.
  destruct r; try (split; [by intros [? ?]|done]).
  apply Decode_loop_accepts.
Qed.

(** X7.  [parseSpan] accepts exactly the objects with a non-empty string
    [_type] whose [marks] member, when present, is [null] or an array of
    strings; the shape of [text] and of every other member is never a
    reason to fail, and the path plays no part. *)
Theorem parseSpan_accepts (b : json) (path : string) :
  is_Ok (parseSpan b path) ↔ accepts_span b = true.
Proof. apply parseSpan_is_Ok_iff. Qed.

(** X8.  [parseMarkDef] accepts exactly the objects with a non-empty
    string [_type]: no other member can make it fail. *)
Theorem parseMarkDef_accepts (b : json) (path : string) :
  is_Ok (parseMarkDef b path) ↔ accepts_markDef b = true.
Proof. apply parseMarkDef_is_Ok_iff. Qed.

(** X9.  [parseNode] accepts exactly the objects with a non-empty string
    [_type] whose [children] and [markDefs] members, when present, are
    [null] or arrays of accepted spans and mark definitions, and whose
    [level] member, when a number, is an integer in the [int64] range.
    The members [_key], [style] and [listItem] and every unknown member
    never make it fail. *)
Theorem parseNode_accepts (b : json) (path : string) :
  is_Ok (parseNode b path) ↔ accepts_node b = true.
Proof. apply parseNode_is_Ok_iff. Qed.

(** ** The wire format of a node *)

(** X10.  What [Node.MarshalJSON] writes under each name: [_type] is always
    the typed discriminator; a typed slot that is set is written under
    its name whatever the raw store holds there; a typed slot that is
    unset (and an empty key) lets the raw entry of that name through;
    every other name is written from the raw store unchanged. *)
Theorem MarshalJSON_typed_members_win (n : Node) :
  Node_members n !! "_type" = Some (JString (node_Type n))
  ∧ (node_Key n ≠ "" → Node_members n !! "_key" = Some (JString (node_Key n)))
  ∧ (∀ s, node_Style n = Some s → Node_members n !! "style" = Some (JString s))
  ∧ (∀ c, node_Children n = Some c →
       Node_members n !! "children" = Some (JArray (Span_MarshalJSON <$> c)))
  ∧ (∀ mds, node_MarkDefs n = Some mds →
       Node_members n !! "markDefs" = Some (JArray (MarkDef_MarshalJSON <$> mds)))
  ∧ (∀ s, node_ListItem n = Some s →
       Node_members n !! "listItem" = Some (JString s))
  ∧ (∀ l, node_Level n = Some l →
       Node_members n !! "level" = Some (JNumber (FormatInt l)))
  ∧ (node_Key n = "" → Node_members n !! "_key" = node_Raw n !! "_key")
  ∧ (node_Style n = None → Node_members n !! "style" = node_Raw n !! "style")
  ∧ (node_Children n = None →
       Node_members n !! "children" = node_Raw n !! "children")
  ∧ (node_MarkDefs n = None →
       Node_members n !! "markDefs" = node_Raw n !! "markDefs")
  ∧ (node_ListItem n = None →
       Node_members n !! "listItem" = node_Raw n !! "listItem")
  ∧ (node_Level n = None → Node_members n !! "level" = node_Raw n !! "level")
  ∧ (∀ k, k ∉ ["_type"; "_key"; "style"; "children"; "markDefs"; "listItem";
               "level"] →
       Node_members n !! k = node_Raw n !! k).
Proof.
  repeat split; intros; rewrite Node_members_lookup;
    repeat (case_decide; try discriminate);
    repeat match goal with
           | H : _ = _ |- _ => rewrite H
           end;
    try done; subst;
    match goal with
    | H : _ ∉ _ |- _ => exfalso; apply H; repeat first [by left | right]
    end.
Qed.

(** X11.  Decoding a node and encoding it again writes, under every name
    but [children], [markDefs] and [level] (whose values are rebuilt from
    the parsed entities) the member the input had: unknown members,
    explicit nulls and members of the wrong shape are kept verbatim.  The
    one exception is a [_key] that is the empty string, which is not
    written. *)
Theorem decode_encode_members (obj : gmap string json) (path : string)
    (n : Node) (k : string) :
  parseNode (JObject obj) path = Ok n →
  k ∉ ["children"; "markDefs"; "level"] →
  (k = "_key" → obj !! "_key" ≠ Some (JString "")) →
  Node_members n !! k = obj !! k.
Proof.
  intros Hp Hk Hkey.
  apply parseNode_inv in Hp
    as (obj' & [= <-] & Hty & _ & HK & HS & _ & _ & HL & _ & HR).
  rewrite Node_members_lookup.
  destruct (decide (k = "level")) as [->|?]; [exfalso; apply Hk; set_solver|].
  destruct (decide (k = "listItem")) as [->|?].
  { rewrite HL, HR. unfold node_to_raw. simpl.
    by destruct (obj !! "listItem") as [[]|]. }
  destruct (decide (k = "markDefs")) as [->|?]; [exfalso; apply Hk; set_solver|].
  destruct (decide (k = "children")) as [->|?]; [exfalso; apply Hk; set_solver|].
  destruct (decide (k = "style")) as [->|?].
  { rewrite HS, HR. unfold node_to_raw. simpl.
    by destruct (obj !! "style") as [[]|]. }
  destruct (decide (k = "_key")) as [->|?].
  { specialize (Hkey eq_refl). rewrite HK, HR. unfold node_to_raw. simpl.
    destruct (obj !! "_key") as [[| | |s| |]|]; simpl; try done.
    destruct (decide (s = "")) as [->|?]; [by destruct Hkey|done]. }
  destruct (decide (k = "_type")) as [->|?]; [done|].
  rewrite HR. unfold node_to_raw. destruct (obj !! k) as [v|]; [|done].
  by repeat (case_decide; [done|]).
Qed.

Lemma decode_encode_members_witness :
  ∃ n, parseNode (JObject (list_to_map [("_type", JString "image");
                                        ("style", JNull);
                                        ("url", JString "x")])) "[0]" = Ok n
       ∧ Node_members n !! "style"
         = (list_to_map [("_type", JString "image"); ("style", JNull);
                         ("url", JString "x")] : gmap string json) !! "style".
Proof.
  destruct (parseNode (JObject (list_to_map [("_type", JString "image");
                                             ("style", JNull);
                                             ("url", JString "x")])) "[0]")
    as [n|] eqn:Hp; [|by vm_compute in Hp].
  exists n. split; [done|].
  apply (decode_encode_members _ "[0]" n "style" Hp).
  - intros Hin. repeat (apply elem_of_cons in Hin as [Hin|Hin]; [done|]).
    by apply elem_of_nil in Hin.
  - done.
Defined.

(** X12.  What [Decode] guarantees of its result: it is never the empty
    non-nil slice, and every node is in the state the parsers leave it
    in: non-empty discriminators on the node, its children and its mark
    definitions, no member both in a typed slot and in the raw store, the
    raw store holding only what has no typed slot or came with the wrong
    shape, and a level within the [int64] range. *)
Theorem Decode_invariants (r : json) (D : Document) :
  Decode r = Ok D → D ≠ Some [] ∧ Forall node_ok (elems D).
Proof.
  intros Hd%Decode_decoded. destruct D as [ns|]; simpl in *.
  - destruct Hd as [Hne Hok]. split; [|done]. by intros [= ->].
  - split; [done|constructor].
Qed.

Lemma Decode_invariants_witness :
  ∃ D, Decode (JArray [JObject (list_to_map [("_type", JString "block");
                                             ("level", JNumber "3")])]) = Ok D
       ∧ D ≠ Some [] ∧ Forall node_ok (elems D).
Proof.
  destruct (Decode (JArray [JObject (list_to_map [("_type", JString "block");
                                                  ("level", JNumber "3")])]))
    as [D|] eqn:HD; [|by vm_compute in HD].
  exists D. split; [done|]. exact (Decode_invariants _ _ HD).
Defined.

(** X13.  With a callback that never returns an error, [Walk] hands it
    every node exactly once, in document order, and returns nil. *)
Theorem Walk_visits_all {St E} (fn : @callback St E) (doc : Document) (s s' : St)
    (doc' log : list Node) (err : option E) :
  (∀ n s0, (fn n s0).2 = None) →
  Walk doc (traced fn) (s, []) = (doc', (s', log), err) →
  err = None ∧ log = elems doc.
Proof.
  intros Hfn Hw. unfold Walk in Hw.
  apply Walk_loop_traced in Hw as (k & Hk & Hlog & _ & Herr).
  destruct err as [e|].
  - destruct Herr as (n & sb & n' & _ & _ & Hcall).
    specialize (Hfn n sb). rewrite Hcall in Hfn. done.
  - split; [done|]. subst k. by rewrite Hlog, firstn_all.
Qed.

Lemma Walk_visits_all_witness :
  let fn : @callback nat string := λ n count, (n, S count, None) in
  None = (None : option string)
  ∧ [NewBlock "h1"; NewNode "image"] = elems (Some [NewBlock "h1"; NewNode "image"]).
Proof.
  intros fn.
  apply (Walk_visits_all fn (Some [NewBlock "h1"; NewNode "image"]) 0%nat 2%nat
           [NewBlock "h1"; NewNode "image"]).
  - done.
  - reflexivity.
Defined.

(** ** Validation: what is reported, and when nothing is *)

Lemma markDefMap_get_build (mds : list MarkDef) (mark : string) :
  markDefMap_get (build_markDefMap mds) mark = true ↔ mark ∈ md_Key <$> mds.
Proof.
  unfold build_markDefMap.
  assert (∀ m0 : gmap string bool,
            markDefMap_get (foldl (λ m md, <[md_Key md := true]> m) m0 mds) mark = true
            ↔ markDefMap_get m0 mark = true ∨ mark ∈ md_Key <$> mds) as Hgen.
  { induction mds as [|md mds IH]; intros m0; simpl.
    - rewrite elem_of_nil. tauto.
    - rewrite IH, elem_of_cons. unfold markDefMap_get at 1.
      destruct (decide (mark = md_Key md)) as [->|Hne].
      + rewrite lookup_insert_eq. simpl. tauto.
      + rewrite lookup_insert_ne by done. fold (markDefMap_get m0 mark). tauto. }
  rewrite Hgen. unfold markDefMap_get. rewrite lookup_empty. simpl.
  split; [by intros [?|?]|by right].
Qed.

(** X14.  With [CheckMarkDefRefs] on, a span's marks give one diagnostic
    for each occurrence of a mark that is the key of no mark definition of
    the block, in the order of the marks, and nothing else. *)
Theorem validate_marks_unresolved (cpath : string) (i : nat)
    (mds : list MarkDef) (marks : list string) :
  validate_marks cpath i (build_markDefMap mds) marks []
  = mark_not_found cpath i <$> filter (λ mark, mark ∉ md_Key <$> mds) marks.
Proof.
  induction marks as [|mark rest IH]; simpl; [done|].
  destruct (markDefMap_get (build_markDefMap mds) mark) eqn:Hget.
  - apply markDefMap_get_build in Hget.
    rewrite filter_cons_False by (intros Hn; by apply Hn). apply IH.
  - assert (mark ∉ md_Key <$> mds) as Hnot.
    { intros Hin%markDefMap_get_build. congruence. }
    rewrite filter_cons_True by done.
    rewrite validate_marks_acc, IH. done.
Qed.

Lemma validate_marks_nil cpath i m marks :
  validate_marks cpath i m marks [] = []
  ↔ ∀ mark, mark ∈ marks → markDefMap_get m mark = true.
Proof.
  induction marks as [|mark rest IH]; simpl.
  - split; [|done]. intros _ mark Hin. by apply elem_of_nil in Hin.
  - destruct (markDefMap_get m mark) eqn:Hget.
    + rewrite IH. split.
      * intros Hall mk [->|Hin]%elem_of_cons; [done|by apply Hall].
      * intros Hall mk Hin. apply Hall. by right.
    + rewrite validate_marks_acc. split; [done|].
      intros Hall. specialize (Hall mark). rewrite Hget in Hall. assert (false = true) as Hf by (apply Hall; by left). done.
Qed.

Lemma app_nil_iff {A} (xs ys : list A) : xs ++ ys = [] ↔ xs = [] ∧ ys = [].
Proof. split; [apply app_eq_nil|by intros [-> ->]]. Qed.

Lemma validate_child_nil opts path i mds j c :
  validate_child opts path i
    (if CheckMarkDefRefs opts then build_markDefMap mds else ∅) j c [] = []
  ↔ child_valid opts mds c.
Proof.
  unfold validate_child, child_valid.
  destruct (decide (span_Type c = "")) as [He|Hne].
  { split; [done|]. by intros [? _]. }
  destruct (decide (span_Type c = "span")) as [Hs|Hns]; [|by split].
  destruct (span_Text c) as [t|].
  - destruct (AllowEmptyText opts); simpl.
    + destruct (CheckMarkDefRefs opts).
      * rewrite validate_marks_nil. split.
        -- intros Hall. split; [done|]. intros _. split; [by exists t|].
           intros _ mark Hin. by apply markDefMap_get_build, Hall.
        -- intros (_ & Hv). destruct (Hv Hs) as [_ Hm]. intros mark Hin.
           by apply markDefMap_get_build, Hm.
      * split; [|done]. intros _. split; [done|]. intros _.
        split; [by exists t|done].
    + destruct (decide (t = "")) as [->|Ht].
      * rewrite bool_decide_eq_true_2 by done. split.
        -- destruct (CheckMarkDefRefs opts); [|done].
           rewrite validate_marks_acc. done.
        -- intros (_ & Hv). destruct (Hv Hs) as [(t' & [= <-] & Ht') _].
           by destruct Ht'.
      * rewrite bool_decide_eq_false_2 by done.
        destruct (CheckMarkDefRefs opts).
        -- rewrite validate_marks_nil. split.
           ++ intros Hall. split; [done|]. intros _. split; [by exists t|].
              intros _ mark Hin. by apply markDefMap_get_build, Hall.
           ++ intros (_ & Hv). destruct (Hv Hs) as [_ Hm]. intros mark Hin.
              by apply markDefMap_get_build, Hm.
        -- split; [|done]. intros _. split; [done|]. intros _.
           split; [by exists t|done].
  - split.
    + destruct (CheckMarkDefRefs opts); [|done]. rewrite validate_marks_acc. done.
    + intros (_ & Hv). by destruct (Hv Hs) as [(t' & ? & _) _].
Qed.

Lemma validate_children_nil opts path i mds cs :
  ∀ j, validate_children opts path i
         (if CheckMarkDefRefs opts then build_markDefMap mds else ∅) j cs [] = []
       ↔ Forall (child_valid opts mds) cs.
Proof.
  induction cs as [|c rest IH]; intros j; simpl.
  - split; [by constructor|done].
  - rewrite validate_children_acc, app_nil_iff, validate_child_nil, IH,
      Forall_cons. done.
Qed.

Lemma validate_markDef_nil path i j md :
  validate_markDef path i j md [] = [] ↔ markDef_valid md.
Proof.
  unfold validate_markDef, markDef_valid.
  destruct (decide (md_Type md = "")), (decide (md_Key md = "")); simpl;
    split; try done; by intros [? ?].
Qed.

Lemma validate_markDefs_nil path i mds :
  ∀ j, validate_markDefs path i j mds [] = [] ↔ Forall markDef_valid mds.
Proof.
  induction mds as [|md rest IH]; intros j; simpl.
  - split; [by constructor|done].
  - rewrite validate_markDefs_acc, app_nil_iff, validate_markDef_nil, IH,
      Forall_cons. done.
Qed.

Lemma validate_node_nil opts i n :
  validate_node opts i n [] = [] ↔ node_valid opts n.
Proof.
  unfold validate_node, node_valid.
  destruct (decide (node_Type n = "")) as [He|Hne].
  { split; [done|]. by intros [? _]. }
  destruct (RequireKeys opts) eqn:Hrk; simpl.
  - destruct (decide (node_Key n = "")) as [Hk|Hk].
    + rewrite bool_decide_eq_true_2 by done. split.
      * destruct (decide (node_Type n = "block")); [|done].
        rewrite validate_markDefs_acc, validate_children_acc.
        intros [[[=] _]%app_nil_iff _]%app_nil_iff.
      * intros (_ & Hreq & _). by destruct Hreq.
    + rewrite bool_decide_eq_false_2 by done.
      destruct (decide (node_Type n = "block")) as [Hb|Hb].
      * rewrite validate_markDefs_acc, app_nil_iff, validate_children_nil,
          validate_markDefs_nil. split.
        -- intros [? ?]. split; [done|]. split; done.
        -- intros (_ & _ & Hv). by apply Hv.
      * split; [|done]. intros _. split; [done|]. split; done.
  - destruct (decide (node_Type n = "block")) as [Hb|Hb].
    + rewrite validate_markDefs_acc, app_nil_iff, validate_children_nil,
        validate_markDefs_nil. split.
      * intros [? ?]. split; [done|]. split; done.
      * intros (_ & _ & Hv). by apply Hv.
    + split; [|done]. intros _. split; [done|]. split; done.
Qed.

Lemma validate_nodes_nil opts ns :
  ∀ i, validate_nodes opts i ns [] = [] ↔ Forall (node_valid opts) ns.
Proof.
  induction ns as [|n rest IH]; intros i; simpl.
  - split; [by constructor|done].
  - rewrite validate_nodes_acc, app_nil_iff, validate_node_nil, IH, Forall_cons.
    done.
Qed.

(** X15.  [ValidateWithOptions] returns no diagnostic exactly when every
    node passes every check the options switch on: a non-empty type, a
    key when keys are required and, for a block, children with a
    non-empty type, spans with a text (non-empty unless empty text is
    allowed) and, when references are checked, marks that are keys of the
    block's mark definitions, and mark definitions with a type and a key.
    Nodes of another type are not looked into. *)
Theorem ValidateWithOptions_clean_iff (doc : Document) (opts : ValidationOptions) :
  ValidateWithOptions doc opts = [] ↔ Forall (node_valid opts) (elems doc).
Proof. apply validate_nodes_nil. Qed.

(** ** Validation across options and releases *)

Section Stricter.
Context (o o' : ValidationOptions).
Hypothesis Hkeys : RequireKeys o = true → RequireKeys o' = true.
Hypothesis Hrefs : CheckMarkDefRefs o = true → CheckMarkDefRefs o' = true.
Hypothesis Hempty : AllowEmptyText o' = true → AllowEmptyText o = true.

Local Ltac sub_solve :=
  first [ reflexivity
        | apply sublist_nil_l
        | apply sublist_inserts_r; reflexivity
        | apply sublist_inserts_l; reflexivity ].

Lemma validate_child_stricter path i mds j c :
  validate_child o path i
    (if CheckMarkDefRefs o then build_markDefMap mds else ∅) j c []
  `sublist_of`
  validate_child o' path i
    (if CheckMarkDefRefs o' then build_markDefMap mds else ∅) j c [].
Proof.
  unfold validate_child.
  destruct (decide (span_Type c = "")); [done|].
  destruct (decide (span_Type c = "span")); [|done].
  destruct (span_Text c) as [t|];
    destruct (AllowEmptyText o) eqn:Ho, (AllowEmptyText o') eqn:Ho',
      (CheckMarkDefRefs o) eqn:Hco, (CheckMarkDefRefs o') eqn:Hco';
    try (by specialize (Hempty eq_refl));
    try (by specialize (Hrefs eq_refl));
    try destruct (bool_decide (t = "")); simpl;
    rewrite ?(validate_marks_acc _ _ _ _ [_]); sub_solve.
Qed.

Lemma validate_children_stricter path i mds cs :
  ∀ j, validate_children o path i
         (if CheckMarkDefRefs o then build_markDefMap mds else ∅) j cs []
       `sublist_of`
       validate_children o' path i
         (if CheckMarkDefRefs o' then build_markDefMap mds else ∅) j cs [].
Proof.
  induction cs as [|c rest IH]; intros j; simpl; [done|].
  rewrite validate_children_acc.
  rewrite (validate_children_acc o'). apply sublist_app; [|apply IH].
  apply validate_child_stricter.
Qed.

Lemma validate_node_stricter i n :
  validate_node o i n [] `sublist_of` validate_node o' i n [].
Proof.
  unfold validate_node.
  destruct (decide (node_Type n = "")); [done|].
  assert (Hk :
    (if RequireKeys o && bool_decide (node_Key n = "")
     then [] ++ [mkVErr ("[" +:+ itoa i +:+ "]") "missing _key" i] else [])
    `sublist_of`
    (if RequireKeys o' && bool_decide (node_Key n = "")
     then [] ++ [mkVErr ("[" +:+ itoa i +:+ "]") "missing _key" i] else [])).
  { destruct (RequireKeys o) eqn:Hr, (RequireKeys o') eqn:Hr'; simpl;
      try done; try (by specialize (Hkeys eq_refl)).
    destruct (bool_decide (node_Key n = "")); [apply sublist_nil_l|done]. }
  destruct (decide (node_Type n = "block")); [|done].
  rewrite validate_markDefs_acc, validate_children_acc.
  rewrite (validate_markDefs_acc _ _ _ _ (validate_children o' _ _ _ _ _ _)),
    (validate_children_acc o').
  apply sublist_app; [|done]. apply sublist_app; [done|].
  apply validate_children_stricter.
Qed.

Lemma validate_nodes_stricter ns :
  ∀ i, validate_nodes o i ns [] `sublist_of` validate_nodes o' i ns [].
Proof.
  induction ns as [|n rest IH]; intros i; simpl; [done|].
  rewrite validate_nodes_acc, (validate_nodes_acc o').
  apply sublist_app; [apply validate_node_stricter|apply IH].
Qed.
End Stricter.

(** X16.  Validation is monotone in the strictness of the options: turning
    [RequireKeys] or [CheckMarkDefRefs] on, or [AllowEmptyText] off, only
    adds diagnostics; those of the laxer run all remain, in the same
    order. *)
Theorem ValidateWithOptions_stricter (doc : Document)
    (o o' : ValidationOptions) :
  (RequireKeys o = true → RequireKeys o' = true) →
  (CheckMarkDefRefs o = true → CheckMarkDefRefs o' = true) →
  (AllowEmptyText o' = true → AllowEmptyText o = true) →
  ValidateWithOptions doc o `sublist_of` ValidateWithOptions doc o'.
Proof. intros. by apply validate_nodes_stricter. Qed.

Lemma ValidateWithOptions_stricter_witness :
  Validate (Some [mkNode "block" "" None
                    (Some [mkSpan "span" None (Some ["a"]) ∅]) None None None ∅])
  `sublist_of`
  ValidateWithOptions
    (Some [mkNode "block" "" None
             (Some [mkSpan "span" None (Some ["a"]) ∅]) None None None ∅])
    (mkOpts true true false).
Proof.
  apply (ValidateWithOptions_stricter _ zero_options (mkOpts true true false));
    simpl; intros; done.
Defined.

(** The validator of release 0.1.0 against the current one. *)
Section Release.
Local Abbreviation permissive := (mkOpts false false true).
Local Abbreviation fmt := ValidationError_Error.

Lemma V010_validate_children path i cs :
  ∀ j errs,
    V010.validate_children path j cs (fmt <$> errs)
    = fmt <$> validate_children permissive path i ∅ j cs errs.
Proof.
  induction cs as [|c rest IH]; intros j errs; simpl; [done|].
  rewrite <-IH. f_equal.
  unfold V010.validate_child, validate_child.
  destruct (decide (span_Type c = "")); [by rewrite fmap_app|].
  destruct (decide (span_Type c = "span")); [|done].
  destruct (span_Text c); simpl; [done|by rewrite fmap_app].
Qed.

Lemma V010_validate_markDefs path i mds :
  ∀ j errs,
    V010.validate_markDefs path j mds (fmt <$> errs)
    = fmt <$> validate_markDefs path i j mds errs.
Proof.
  induction mds as [|md rest IH]; intros j errs; simpl; [done|].
  rewrite <-IH. f_equal.
  unfold V010.validate_markDef, validate_markDef.
  destruct (decide (md_Type md = "")), (decide (md_Key md = ""));
    by rewrite ?fmap_app.
Qed.

Lemma V010_validate_nodes ns :
  ∀ i errs,
    V010.validate_nodes i (to_V010 <$> ns) (fmt <$> errs)
    = fmt <$> validate_nodes permissive i ns errs.
Proof.
  induction ns as [|n rest IH]; intros i errs; simpl; [done|].
  rewrite <-IH. f_equal.
  unfold V010.validate_node, validate_node. simpl.
  destruct (decide (node_Type n = "")); [by rewrite fmap_app|].
  destruct (decide (node_Type n = "block")); [|done].
  by rewrite <-V010_validate_markDefs, <-V010_validate_children.
Qed.
End Release.

(** X17.  The validator of release 0.1.0 is the current one at the options
    [RequireKeys = false], [CheckMarkDefRefs = false],
    [AllowEmptyText = true]: on the same nodes it returns the formatted
    text ([Path: Message]) of the same diagnostics, in the same order.
    It is not the current [Validate], whose options have [AllowEmptyText]
    off. *)
Theorem V010_Validate_is_permissive (doc : Document) :
  V010.Validate (doc_to_V010 doc)
  = ValidationError_Error <$> ValidateWithOptions doc (mkOpts false false true).
Proof.
  unfold V010.Validate, ValidateWithOptions.
  rewrite <-(V010_validate_nodes (elems doc) 0 []). by destruct doc.
Qed.

(** ** Where a diagnostic comes from *)

Lemma elem_of_validate_marks e cpath i m marks :
  e ∈ validate_marks cpath i m marks [] →
  ∃ mark, mark ∈ marks ∧ markDefMap_get m mark = false
          ∧ e = mark_not_found cpath i mark.
Proof.
  induction marks as [|mark rest IH]; simpl; [by intros ?%elem_of_nil|].
  destruct (markDefMap_get m mark) eqn:Hget.
  - intros (mk & Hin & ? & ?)%IH. exists mk. split; [by right|done].
  - rewrite validate_marks_acc. intros [Hin|Hin]%elem_of_app.
    + apply list_elem_of_singleton in Hin. exists mark. split; [by left|done].
    + destruct (IH Hin) as (mk & Hin' & ? & ?). exists mk. split; [by right|done].
Qed.

Lemma elem_of_validate_child e opts path i m j c :
  e ∈ validate_child opts path i m j c [] →
  ve_Path e = path +:+ ".children[" +:+ itoa j +:+ "]" ∧ ve_Node e = i
  ∧ ((ve_Message e = "missing _type" ∧ span_Type c = "")
     ∨ (ve_Message e = "span missing text" ∧ span_Type c = "span"
        ∧ span_Text c = None)
     ∨ (ve_Message e = "span has empty text" ∧ span_Type c = "span"
        ∧ span_Text c = Some "" ∧ AllowEmptyText opts = false)
     ∨ (∃ mark, ve_Message e = "mark '" +:+ mark +:+ "' not found in markDefs"
          ∧ span_Type c = "span" ∧ CheckMarkDefRefs opts = true
          ∧ mark ∈ elems (span_Marks c) ∧ markDefMap_get m mark = false)).
Proof.
  unfold validate_child.
  destruct (decide (span_Type c = "")) as [Ht|Ht].
  { intros ->%list_elem_of_singleton. simpl. auto. }
  destruct (decide (span_Type c = "span")) as [Hs|Hs]; [|by intros ?%elem_of_nil].
  assert (Hmarks : e ∈ (if CheckMarkDefRefs opts
                        then validate_marks (path +:+ ".children[" +:+ itoa j +:+ "]")
                               i m (elems (span_Marks c)) []
                        else []) →
    ve_Path e = path +:+ ".children[" +:+ itoa j +:+ "]" ∧ ve_Node e = i
    ∧ ∃ mark, ve_Message e = "mark '" +:+ mark +:+ "' not found in markDefs"
          ∧ span_Type c = "span" ∧ CheckMarkDefRefs opts = true
          ∧ mark ∈ elems (span_Marks c) ∧ markDefMap_get m mark = false).
  { destruct (CheckMarkDefRefs opts); [|by intros ?%elem_of_nil].
    intros (mark & Hin & Hget & ->)%elem_of_validate_marks. simpl.
    split; [done|]. split; [done|]. by exists mark. }
  intros Hin.
  assert (e ∈ (match span_Text c with
               | Some t => if negb (AllowEmptyText opts) && bool_decide (t = "")
                           then [mkVErr (path +:+ ".children[" +:+ itoa j +:+ "]")
                                   "span has empty text" i] else []
               | None => [mkVErr (path +:+ ".children[" +:+ itoa j +:+ "]")
                            "span missing text" i]
               end)
          ∨ e ∈ (if CheckMarkDefRefs opts
                 then validate_marks (path +:+ ".children[" +:+ itoa j +:+ "]")
                        i m (elems (span_Marks c)) []
                 else [])) as [Htext|Hm].
  { destruct (CheckMarkDefRefs opts).
    - rewrite validate_marks_acc in Hin. apply elem_of_app in Hin as [Hin|Hin];
        [left|by right].
      destruct (span_Text c) as [t|]; [|done].
      by destruct (negb (AllowEmptyText opts) && bool_decide (t = "")).
    - left. destruct (span_Text c) as [t|]; [|done].
      by destruct (negb (AllowEmptyText opts) && bool_decide (t = "")). }
  - destruct (span_Text c) as [t|] eqn:Htx.
    + destruct (AllowEmptyText opts) eqn:Ha; simpl in Htext;
        [by apply elem_of_nil in Htext|].
      destruct (decide (t = "")) as [->|Hne].
      * rewrite bool_decide_eq_true_2 in Htext by done.
        apply list_elem_of_singleton in Htext as ->. simpl. auto 10.
      * rewrite bool_decide_eq_false_2 in Htext by done.
        by apply elem_of_nil in Htext.
    + apply list_elem_of_singleton in Htext as ->. simpl. auto 10.
  - destruct (Hmarks Hm) as (? & ? & ?). auto 10.
Qed.

Lemma elem_of_validate_children e opts path i m cs :
  ∀ j, e ∈ validate_children opts path i m j cs [] →
       ∃ k c, cs !! k = Some c ∧ e ∈ validate_child opts path i m (j + k) c [].
Proof.
  induction cs as [|c rest IH]; intros j; simpl; [by intros ?%elem_of_nil|].
  rewrite validate_children_acc. intros [Hin|Hin]%elem_of_app.
  - exists 0%nat, c. by rewrite Nat.add_0_r.
  - destruct (IH _ Hin) as (k & c' & Hk & He). exists (S k), c'.
    split; [done|]. by replace (j + S k)%nat with (S j + k)%nat by lia.
Qed.

Lemma elem_of_validate_markDefs e path i mds :
  ∀ j, e ∈ validate_markDefs path i j mds [] →
       ∃ k md, mds !! k = Some md
         ∧ ve_Path e = path +:+ ".markDefs[" +:+ itoa (j + k) +:+ "]"
         ∧ ve_Node e = i
         ∧ ((ve_Message e = "markDef missing _type" ∧ md_Type md = "")
            ∨ (ve_Message e = "markDef missing _key" ∧ md_Key md = "")).
Proof.
  induction mds as [|md rest IH]; intros j; simpl; [by intros ?%elem_of_nil|].
  rewrite validate_markDefs_acc. intros [Hin|Hin]%elem_of_app.
  - exists 0%nat, md. rewrite Nat.add_0_r. split; [done|].
    unfold validate_markDef in Hin.
    destruct (decide (md_Type md = "")), (decide (md_Key md = ""));
      simpl in Hin; set_solver.
  - destruct (IH _ Hin) as (k & md' & Hk & He). exists (S k), md'.
    split; [done|]. by replace (j + S k)%nat with (S j + k)%nat by lia.
Qed.

Lemma elem_of_validate_nodes e opts ns :
  ∀ i, e ∈ validate_nodes opts i ns [] →
       ∃ k n, ns !! k = Some n ∧ e ∈ validate_node opts (i + k) n [].
Proof.
  induction ns as [|n rest IH]; intros i; simpl; [by intros ?%elem_of_nil|].
  rewrite validate_nodes_acc. intros [Hin|Hin]%elem_of_app.
  - exists 0%nat, n. by rewrite Nat.add_0_r.
  - destruct (IH _ Hin) as (k & n' & Hk & He). exists (S k), n'.
    split; [done|]. by replace (i + S k)%nat with (S i + k)%nat by lia.
Qed.

(** The three places a diagnostic of one node can come from. *)
Lemma elem_of_validate_node e opts i n :
  e ∈ validate_node opts i n [] →
  ve_Node e = i
  ∧ ((ve_Path e = "[" +:+ itoa i +:+ "]"
      ∧ ((ve_Message e = "missing _type" ∧ node_Type n = "")
         ∨ (ve_Message e = "missing _key" ∧ node_Type n ≠ ""
            ∧ node_Key n = "" ∧ RequireKeys opts = true)))
     ∨ (node_Type n = "block"
        ∧ ∃ k c, elems (node_Children n) !! k = Some c
            ∧ e ∈ validate_child opts ("[" +:+ itoa i +:+ "]") i
                    (if CheckMarkDefRefs opts
                     then build_markDefMap (elems (node_MarkDefs n)) else ∅) k c [])
     ∨ (node_Type n = "block"
        ∧ ∃ k md, elems (node_MarkDefs n) !! k = Some md
            ∧ ve_Path e = ("[" +:+ itoa i +:+ "]") +:+ ".markDefs[" +:+ itoa k +:+ "]"
            ∧ ((ve_Message e = "markDef missing _type" ∧ md_Type md = "")
               ∨ (ve_Message e = "markDef missing _key" ∧ md_Key md = "")))).
Proof.
  unfold validate_node.
  destruct (decide (node_Type n = "")) as [Ht|Ht].
  { intros ->%list_elem_of_singleton. simpl. auto 10. }
  assert (Hkey : e ∈ (if RequireKeys opts && bool_decide (node_Key n = "")
                      then [] ++ [mkVErr ("[" +:+ itoa i +:+ "]") "missing _key" i]
                      else []) →
    ve_Node e = i ∧ ve_Path e = "[" +:+ itoa i +:+ "]"
    ∧ ve_Message e = "missing _key" ∧ node_Type n ≠ ""
    ∧ node_Key n = "" ∧ RequireKeys opts = true).
  { destruct (RequireKeys opts); simpl; [|by intros ?%elem_of_nil].
    destruct (decide (node_Key n = "")) as [Hk|Hk].
    - rewrite bool_decide_eq_true_2 by done.
      by intros ->%list_elem_of_singleton.
    - rewrite bool_decide_eq_false_2 by done. by intros ?%elem_of_nil. }
  destruct (decide (node_Type n = "block")) as [Hb|Hb].
  - rewrite validate_markDefs_acc, validate_children_acc.
    intros [[Hin|Hin]%elem_of_app|Hin]%elem_of_app.
    + destruct (Hkey Hin) as (? & ? & ? & ? & ? & ?). auto 10.
    + apply elem_of_validate_children in Hin as (k & c & Hk & Hin).
      pose proof (elem_of_validate_child _ _ _ _ _ _ _ Hin) as (_ & Hn & _).
      split; [done|]. right. left. split; [done|]. by exists k, c.
    + apply elem_of_validate_markDefs in Hin as (k & md & Hk & Hp & Hn & Hm).
      split; [done|]. right. right. split; [done|]. by exists k, md.
  - intros Hin. destruct (Hkey Hin) as (? & ? & ? & ? & ? & ?). auto 10.
Qed.

(** X18.  Every diagnostic is located: its node index is the index of a
    node of the document, and its path starts with that index in
    brackets. *)
Theorem diagnostics_located (doc : Document) (opts : ValidationOptions)
    (e : ValidationError) :
  e ∈ ValidateWithOptions doc opts →
  ∃ n suf, elems doc !! ve_Node e = Some n
           ∧ ve_Path e = ("[" +:+ itoa (ve_Node e) +:+ "]") +:+ suf.
Proof.
  unfold ValidateWithOptions.
  intros (k & n & Hk & Hin)%elem_of_validate_nodes. simpl in Hin.
  apply elem_of_validate_node in Hin
    as (Hn & [(Hp & _)|[(_ & j & c & _ & Hc)|(_ & j & md & _ & Hp & _)]]).
  - exists n, "". rewrite Hn, Hp. split; [done|]. by rewrite append_empty_r.
  - apply elem_of_validate_child in Hc as (Hp & _ & _).
    exists n, (".children[" +:+ itoa j +:+ "]"). by rewrite Hn, Hp.
  - exists n, (".markDefs[" +:+ itoa j +:+ "]"). by rewrite Hn, Hp.
Qed.

Lemma diagnostics_located_witness :
  ∃ n suf,
    elems (Some [NewNode "image"; AddSpan (NewBlock "normal") "" None]) !! 1%nat
      = Some n
    ∧ "[1].children[0]" = ("[" +:+ itoa 1 +:+ "]") +:+ suf.
Proof.
  apply (diagnostics_located
           (Some [NewNode "image"; AddSpan (NewBlock "normal") "" None])
           zero_options (mkVErr "[1].children[0]" "span has empty text" 1)).
  vm_compute. by left.
Defined.

(** X19.  A document that [Decode] returned never has a diagnostic about a
    discriminator: every node, child and mark definition was accepted
    with a non-empty [_type], so what [ValidateWithOptions] can still
    report is a missing key, a span without text or with empty text, an
    unresolved mark, or a mark definition without key. *)
Theorem decoded_never_missing_type (r : json) (D : Document)
    (opts : ValidationOptions) (e : ValidationError) :
  Decode r = Ok D →
  e ∈ ValidateWithOptions D opts →
  ve_Message e ∈ ["missing _key"; "span missing text"; "span has empty text";
                  "markDef missing _key"]
  ∨ ∃ mark, ve_Message e = "mark '" +:+ mark +:+ "' not found in markDefs".
Proof.
  intros Hd He. apply Decode_decoded in Hd.
  assert (Forall node_ok (elems D)) as Hok.
  { destruct D as [ns|]; [apply Hd|constructor]. }
  unfold ValidateWithOptions in He.
  apply elem_of_validate_nodes in He as (k & n & Hk & Hin).
  rewrite Forall_lookup in Hok. specialize (Hok k n Hk).
  destruct Hok as (Hty & _ & _ & _ & _ & _ & _ & _ & _ & Hcs & Hmds).
  apply elem_of_validate_node in Hin
    as (_ & [(_ & [[_ ?]|(-> & _)])
            |[(_ & j & c & Hj & Hc)|(_ & j & md & Hj & _ & Hm)]]).
  - done.
  - left. set_solver.
  - rewrite Forall_lookup in Hcs. destruct (Hcs j c Hj) as (Hcty & _).
    apply elem_of_validate_child in Hc
      as (_ & _ & [[_ ?]|[(-> & _)|[(-> & _)|(mark & -> & _)]]]).
    + done.
    + left. set_solver.
    + left. set_solver.
    + right. by exists mark.
  - rewrite Forall_lookup in Hmds. destruct (Hmds j md Hj) as (Hmty & _).
    destruct Hm as [[_ ?]|[-> _]]; [done|]. left. set_solver.
Qed.

Lemma decoded_never_missing_type_witness :
  let r := JArray [JObject (list_to_map
             [("_type", JString "block");
              ("children", JArray [JObject (list_to_map
                 [("_type", JString "span")])])])] in
  ∃ D, Decode r = Ok D
       ∧ ("span missing text" ∈ ["missing _key"; "span missing text";
                                 "span has empty text"; "markDef missing _key"]
          ∨ ∃ mark, "span missing text"
                    = "mark '" +:+ mark +:+ "' not found in markDefs").
Proof.
  intros r. destruct (Decode r) as [D|] eqn:HD; [|by vm_compute in HD].
  exists D. split; [done|].
  apply (decoded_never_missing_type r D zero_options
           (mkVErr "[0].children[0]" "span missing text" 0) HD).
  vm_compute in HD. injection HD as <-. vm_compute. by left.
Defined.

(** ** Accessors and builders *)

(** X20.  What the accessors return for a decoded node: [GetStyle] is the
    [style] member when it is a string and ["normal"] in every other case
    (absent, [null], another type); [GetListLevel] is the [level] member
    when it is a number and 1 otherwise; [IsBlock] tells whether [_type]
    is ["block"]. *)
Theorem accessors_after_decode (obj : gmap string json) (path : string)
    (n : Node) :
  parseNode (JObject obj) path = Ok n →
  GetStyle n = match obj !! "style" with
               | Some (JString s) => s
               | _ => "normal"
               end
  ∧ Some (GetListLevel n) = match obj !! "level" with
                            | Some (JNumber lit) => Number_Int64 lit
                            | _ => Some 1
                            end
  ∧ (IsBlock (Some n) = true ↔ obj !! "_type" = Some (JString "block")).
Proof.
  intros Hp.
  assert (is_Ok (parseNode (JObject obj) path)) as Hacc by by eexists.
  apply parseNode_is_Ok_iff in Hacc. simpl in Hacc.
  apply andb_true_iff in Hacc as [_ Hlevel].
  apply parseNode_inv in Hp
    as (obj' & [= <-] & Hty & _ & _ & Hst & _ & _ & _ & Hlv & _).
  unfold GetStyle, GetListLevel, IsBlock. rewrite Hst, Hlv, Hty.
  split; [by destruct (obj !! "style") as [[]|]|]. split.
  - destruct (obj !! "level") as [[]|]; try done. simpl in Hlevel.
    apply bool_decide_eq_true in Hlevel as [z Hz]. by rewrite Hz.
  - rewrite bool_decide_eq_true. split; [by intros ->|by intros [= ->]].
Qed.

Lemma accessors_after_decode_witness :
  ∃ n, parseNode (JObject (list_to_map [("_type", JString "block");
                                        ("style", JNumber "4");
                                        ("level", JNumber "2")])) "[0]" = Ok n
       ∧ GetStyle n = "normal" ∧ Some (GetListLevel n) = Some 2.
Proof.
  destruct (parseNode (JObject (list_to_map [("_type", JString "block");
                                             ("style", JNumber "4");
                                             ("level", JNumber "2")])) "[0]")
    as [n|] eqn:Hp; [|by vm_compute in Hp].
  exists n. split; [done|].
  destruct (accessors_after_decode _ _ _ Hp) as (Hs & Hl & _).
  split; [exact Hs|exact Hl].
Defined.

Lemma GetText_loop_app cs :
  ∀ buf, GetText_loop cs buf = buf +:+ GetText_loop cs "".
Proof.
  induction cs as [|c rest IH]; intros buf; simpl; [by rewrite append_empty_r|].
  destruct (span_Text c) as [t|]; [|apply IH].
  change ("" +:+ t) with t.
  rewrite IH, (IH t). by rewrite append_assoc_s.
Qed.

Lemma GetText_loop_snoc cs c buf :
  GetText_loop (cs ++ [c]) buf
  = GetText_loop cs buf +:+ default "" (span_Text c).
Proof.
  revert buf. induction cs as [|c' rest IH]; intros buf; simpl.
  - destruct (span_Text c); simpl; [done|by rewrite append_empty_r].
  - destruct (span_Text c'); apply IH.
Qed.

(** X21.  [GetText] is the concatenation, in order, of the texts of the
    children that have one, whatever their type; a child without text
    contributes nothing.  Hence [AddSpan] appends its text to what
    [GetText] returns. *)
Theorem GetText_AddSpan (n : Node) (text : string)
    (marks : option (list string)) :
  GetText n = foldr String.append "" (omap span_Text (elems (node_Children n)))
  ∧ GetText (AddSpan n text marks) = GetText n +:+ text.
Proof.
  unfold GetText. split.
  - induction (elems (node_Children n)) as [|c rest IH]; simpl; [done|].
    destruct (span_Text c) as [t|]; simpl; [|done].
    by rewrite GetText_loop_app, IH.
  - simpl. by rewrite GetText_loop_snoc.
Qed.

Lemma HasMark_loop_elem ms mark : HasMark_loop ms mark = true ↔ mark ∈ ms.
Proof.
  induction ms as [|m rest IH]; simpl.
  - split; [done|by intros ?%elem_of_nil].
  - rewrite elem_of_cons. destruct (decide (m = mark)) as [->|Hne].
    + split; auto.
    + rewrite IH. split; [auto|]. by intros [->|?].
Qed.

(** X22.  In a document that validates clean with [CheckMarkDefRefs] on,
    every mark that [HasMark] finds on a span of a block is the key of a
    mark definition of that block. *)
Theorem HasMark_defined (doc : Document) (opts : ValidationOptions)
    (i j : nat) (n : Node) (c : Span) (mark : string) :
  ValidateWithOptions doc opts = [] →
  CheckMarkDefRefs opts = true →
  elems doc !! i = Some n → IsBlock (Some n) = true →
  elems (node_Children n) !! j = Some c → span_Type c = "span" →
  HasMark c mark = true →
  ∃ md, md ∈ elems (node_MarkDefs n) ∧ md_Key md = mark.
Proof.
  intros Hclean Hrefs Hi Hb Hj Hs Hm.
  apply validate_nodes_nil in Hclean.
  rewrite Forall_lookup in Hclean. destruct (Hclean i n Hi) as (_ & _ & Hblock).
  apply bool_decide_eq_true in Hb. destruct (Hblock Hb) as [Hcs _].
  rewrite Forall_lookup in Hcs. destruct (Hcs j c Hj) as (_ & Hsp).
  destruct (Hsp Hs) as [_ Hmarks].
  apply HasMark_loop_elem in Hm.
  apply (Hmarks Hrefs) in Hm. apply list_elem_of_fmap in Hm as (md & -> & Hin).
  by exists md.
Qed.

Lemma HasMark_defined_witness :
  ∃ md, md ∈ elems (node_MarkDefs
                      (AddMarkDef (AddSpan (NewBlock "normal") "x" (Some ["k1"]))
                         "k1" "link" ∅))
        ∧ md_Key md = "k1".
Proof.
  apply (HasMark_defined
           (Some [AddMarkDef (AddSpan (NewBlock "normal") "x" (Some ["k1"]))
                    "k1" "link" ∅])
           (mkOpts false true false) 0 0
           (AddMarkDef (AddSpan (NewBlock "normal") "x" (Some ["k1"])) "k1" "link" ∅)
           (mkSpan "span" (Some "x") (Some ["k1"]) ∅) "k1");
    by vm_compute.
Defined.

(** Blocks made with the builders. *)
Lemma fold_AddSpan (spans : list (string * option (list string))) :
  ∀ n, foldl (λ n sp, AddSpan n sp.1 sp.2) n spans
       = mkNode (node_Type n) (node_Key n) (node_Style n)
           (match spans with
            | [] => node_Children n
            | _ => Some (elems (node_Children n)
                         ++ ((λ sp, mkSpan "span" (Some sp.1) sp.2 ∅) <$> spans))
            end)
           (node_MarkDefs n) (node_ListItem n) (node_Level n) (node_Raw n).
Proof.
  induction spans as [|sp rest IH]; intros n; simpl; [by destruct n|].
  rewrite IH. simpl. f_equal. destruct rest; simpl; [done|].
  by rewrite <-app_assoc.
Qed.

Lemma fold_AddMarkDef (mds : list (string * string * gmap string json)) :
  ∀ n, foldl (λ n md, AddMarkDef n md.1.1 md.1.2 md.2) n mds
       = mkNode (node_Type n) (node_Key n) (node_Style n) (node_Children n)
           (match mds with
            | [] => node_MarkDefs n
            | _ => Some (elems (node_MarkDefs n)
                         ++ ((λ md, mkMarkDef md.1.1 md.1.2 md.2) <$> mds))
            end)
           (node_ListItem n) (node_Level n) (node_Raw n).
Proof.
  induction mds as [|md rest IH]; intros n; simpl; [by destruct n|].
  rewrite IH. simpl. f_equal. destruct rest; simpl; [done|].
  by rewrite <-app_assoc.
Qed.

Lemma built_block style spans mds :
  foldl (λ n md, AddMarkDef n md.1.1 md.1.2 md.2)
    (foldl (λ n sp, AddSpan n sp.1 sp.2) (NewBlock style) spans) mds
  = mkNode "block" "" (Some style)
      (Some ((λ sp, mkSpan "span" (Some sp.1) sp.2 ∅) <$> spans))
      (Some ((λ md, mkMarkDef md.1.1 md.1.2 md.2) <$> mds))
      None None ∅.
Proof.
  rewrite fold_AddMarkDef, fold_AddSpan. simpl.
  by destruct spans, mds.
Qed.



Lemma validate_node_missing_key opts i n :
  node_Type n ≠ "" → RequireKeys opts = true → node_Key n = "" →
  mkVErr ("[" +:+ itoa i +:+ "]") "missing _key" i ∈ validate_node opts i n [].
Proof.
  intros Hty Hreq Hkey. unfold validate_node.
  rewrite decide_False by done. rewrite Hreq, Hkey. simpl.
  destruct (decide (node_Type n = "block")); [|by left].
  rewrite validate_markDefs_acc, validate_children_acc.
  apply elem_of_app. left. apply elem_of_app. left. by left.
Qed.

(** X24.  A block made with the builders validates clean, references
    checked, when every text is non-empty, every mark definition has a
    key and a type, and every mark is the key of one of them.  It never
    passes [RequireKeys]: the builders leave the key empty. *)
Theorem builder_valid (style : string)
    (spans : list (string * option (list string)))
    (mds : list (string * string * gmap string json)) (a : bool) :
  Forall (λ sp, sp.1 ≠ "") spans →
  Forall (λ md, md.1.1 ≠ "" ∧ md.1.2 ≠ "") mds →
  (∀ sp mark, sp ∈ spans → mark ∈ elems sp.2 → mark ∈ (λ md, md.1.1) <$> mds) →
  let b := foldl (λ n md, AddMarkDef n md.1.1 md.1.2 md.2)
             (foldl (λ n sp, AddSpan n sp.1 sp.2) (NewBlock style) spans) mds in
  ValidateWithOptions (Some [b]) (mkOpts false true a) = []
  ∧ mkVErr "[0]" "missing _key" 0 ∈ ValidateWithOptions (Some [b]) (mkOpts true true a).
Proof.
  intros Hspans Hmds Hmarks b. unfold b. rewrite built_block. split.
  - apply validate_nodes_nil, Forall_singleton.
    unfold node_valid. simpl. split; [done|]. split; [done|]. intros _. split.
    + apply Forall_fmap, Forall_forall. intros sp Hin. unfold child_valid. simpl.
      split; [done|]. intros _. split.
      * exists sp.1. split; [done|]. intros _.
        rewrite Forall_forall in Hspans. by apply Hspans.
      * intros _ mark Hmark. rewrite <-list_fmap_compose. simpl.
        by apply (Hmarks sp).
    + apply Forall_fmap. eapply Forall_impl; [exact Hmds|].
      intros md [? ?]. by split.
  - apply (validate_node_missing_key (mkOpts true true a) 0); done.
Qed.

Lemma builder_valid_witness :
  let b := foldl (λ n md, AddMarkDef n md.1.1 md.1.2 md.2)
             (foldl (λ n sp, AddSpan n sp.1 sp.2) (NewBlock "normal")
                [("Hello", Some ["k1"])])
             [("k1", "link", ∅)] in
  ValidateWithOptions (Some [b]) (mkOpts false true false) = []
  ∧ mkVErr "[0]" "missing _key" 0
    ∈ ValidateWithOptions (Some [b]) (mkOpts true true false).
Proof.
  apply (builder_valid "normal" [("Hello", Some ["k1"])] [("k1", "link", ∅)] false).
  - apply Forall_singleton. done.
  - apply Forall_singleton. done.
  - intros sp mark ->%list_elem_of_singleton ->%list_elem_of_singleton.
    by left.
Defined.

(** ** Walking with a context *)

Lemma WalkWithContext_loop_Walk {St E} (fn : @callback St E) rest :
  ∀ i bc visited s,
    WalkWithContext_loop (λ n _, fn n) i bc visited rest s
    = Walk_loop fn visited rest s.
Proof.
  induction rest as [|n rest IH]; intros i bc visited s; simpl; [done|].
  destruct (fn n s) as [[n' s'] [e|]]; [done|apply IH].
Qed.

(** X25.  A callback that ignores the context is walked by
    [WalkWithContext] exactly as by [Walk]: same invocations, same early
    exit, same result. *)
Theorem WalkWithContext_is_Walk {St E} (fn : @callback St E) (doc : Document)
    (s : St) :
  WalkWithContext doc (λ n _, fn n) s = Walk doc fn s.
Proof. apply WalkWithContext_loop_Walk. Qed.

Lemma count_blocks_snoc ns n :
  count_blocks (ns ++ [n])
  = (count_blocks ns + if IsBlock (Some n) then 1 else 0)%nat.
Proof.
  unfold count_blocks. rewrite List.filter_app, length_app. simpl.
  by destruct (bool_decide _).
Qed.

Lemma WalkWithContext_loop_traced {St E} (fn : @ctx_callback St E) rest :
  ∀ pre visited s log doc' s' log' err,
    WalkWithContext_loop (traced_ctx fn) (length pre) (count_blocks pre)
      visited rest (s, log) = (doc', (s', log'), err) →
    ∃ k, (k ≤ length rest)%nat
      ∧ log' = log ++ ((λ j, mkWalkContext (length pre + j) None 0
                               (count_blocks (take (length pre + j) (pre ++ rest))))
                       <$> seq 0 k)
      ∧ (err = None → k = length rest).
Proof.
  induction rest as [|n rest IH]; intros pre visited s log doc' s' log' err Hw.
  - simpl in Hw. inversion Hw; subst. exists 0%nat.
    simpl. by rewrite app_nil_r.
  - simpl in Hw. destruct (fn n _ s) as [[n1 s1] [e|]] eqn:Hfn.
    + inversion Hw; subst. exists 1%nat. simpl. split; [lia|].
      split; [|done]. rewrite Nat.add_0_r, take_app_length. done.
    + assert ((if bool_decide (node_Type n = "block")
               then S (count_blocks pre) else count_blocks pre)
              = count_blocks (pre ++ [n])) as Hbc.
      { rewrite count_blocks_snoc. simpl. destruct (bool_decide _); lia. }
      rewrite Hbc in Hw.
      replace (S (length pre)) with (length (pre ++ [n])) in Hw
        by (rewrite length_app; simpl; lia).
      apply IH in Hw as (k & Hk & Hlog & Herr).
      exists (S k). split; [simpl; lia|]. split.
      * rewrite Hlog, <-app_assoc. f_equal. simpl.
        rewrite Nat.add_0_r, take_app_length. f_equal.
        rewrite <-fmap_S_seq, <-list_fmap_compose. apply list_fmap_ext.
        intros _ j _. simpl. rewrite length_app, <-app_assoc. simpl.
        by replace (length pre + 1 + j)%nat with (length pre + S j)%nat by lia.
      * intros ->. simpl. by rewrite Herr.
Qed.

(** X26.  The contexts [WalkWithContext] hands out: the invocation for the
    node at index [j] gets [Index = j], no parent, depth 0 and, as
    [BlockCount], the number of blocks strictly before index [j]; the
    node itself is not counted.  Invocations run from index 0 up to the
    first error, and cover the whole document when there is none. *)
Theorem WalkWithContext_contexts {St E} (fn : @ctx_callback St E)
    (doc : Document) (s s' : St) (doc' : list Node) (log : list WalkContext)
    (err : option E) :
  WalkWithContext doc (traced_ctx fn) (s, []) = (doc', (s', log), err) →
  (length log ≤ length (elems doc))%nat
  ∧ (err = None → length log = length (elems doc))
  ∧ ∀ j ctx, log !! j = Some ctx →
      ctx = mkWalkContext j None 0 (count_blocks (take j (elems doc))).
Proof.
  unfold WalkWithContext. intros Hw.
  apply (WalkWithContext_loop_traced fn (elems doc) []) in Hw
    as (k & Hk & -> & Herr).
  simpl. rewrite length_fmap, length_seq. split; [done|]. split; [done|].
  intros j ctx Hj. rewrite list_lookup_fmap in Hj.
  destruct (seq 0 k !! j) as [j'|] eqn:Hseq; [|done].
  apply lookup_seq in Hseq as [-> _]. simpl in Hj. by inversion Hj.
Qed.

Lemma WalkWithContext_contexts_witness :
  mkWalkContext 2 None 0 1
  = mkWalkContext 2 None 0
      (count_blocks (take 2 (elems (Some [NewBlock "h1"; NewNode "image";
                                          NewBlock "normal"])))).
Proof.
  apply (proj2 (proj2
           (WalkWithContext_contexts
              (λ n _ s, (n, s, None) : Node * unit * option string)
              (Some [NewBlock "h1"; NewNode "image"; NewBlock "normal"]) tt tt
              [NewBlock "h1"; NewNode "image"; NewBlock "normal"]
              [mkWalkContext 0 None 0 0; mkWalkContext 1 None 0 1;
               mkWalkContext 2 None 0 1]
              None eq_refl)) 2%nat).
  reflexivity.
Defined.

(** ** Clone and Transform on the store *)

Module MemMore.
Import Mem MemFacts.

Lemma copy_string_ptr_value p h q h' :
  copy_string_ptr p h = Some (q, h') →
  match p with
  | None => q = None
  | Some l => ∃ l' s, q = Some l' ∧ h !! l = Some (CString s)
                      ∧ h' !! l' = Some (CString s) ∧ l' ≠ l
  end.
Proof.
  destruct p as [l|]; simpl.
  - intros Hrun.
    apply bind_Some in Hrun as (s & h1 & Hs & Hrun).
    apply read_string_Some in Hs as [-> Hs].
    apply bind_Some in Hrun as (l' & h2 & Ha & Hrun).
    apply ret_Some in Hrun as [-> ->].
    pose proof (alloc_fresh _ _ _ _ Ha) as Hfresh.
    apply alloc_Some in Ha as [_ ->].
    exists l', s. split; [done|]. split; [done|].
    split; [by rewrite lookup_insert_eq|]. intros ->.
    rewrite Hs in Hfresh. discriminate Hfresh.
  - by intros [-> _]%ret_Some.
Qed.



Lemma Transform_loop_identity d ns :
  ∀ result h,
    Transform_loop d (λ c, ret (Some c)) ns result h
    = Filter_loop d (λ _ _, true) ns result h.
Proof.
  induction ns as [|n ns IH]; intros result h; simpl; [done|].
  unfold bind at 1 3. destruct (Clone d n h) as [[c h1]|]; [|done].
  simpl. apply IH.
Qed.

(** X28.  [Transform] with the callback that returns its argument is
    [Filter] with the predicate that is always true: the same clones, in
    the same cells. *)
Theorem Transform_identity_is_Filter (d : nat) (doc : option loc) (h : heap) :
  Transform d doc (λ c, ret (Some c)) h = Filter d doc (λ _ _, true) h.
Proof.
  unfold Transform, Filter, bind.
  destruct (slice_elems read_nodes doc h) as [[ns h1]|]; [|done].
  by rewrite Transform_loop_identity.
Qed.

Lemma for_each_entry_None (f : any → M any) kvs :
  (∀ v, copies locs_any (f v)) →
  ∀ out (h : heap) k v,
    (k, v) ∈ kvs → (∀ h' : heap, h ⊆ h' → f v h' = None) →
    for_each_entry f kvs out h = None.
Proof.
  intros Hf. induction kvs as [|[k0 v0] kvs IH]; intros out h k v Hin Hnone.
  - by apply elem_of_nil in Hin.
  - simpl. unfold bind. apply elem_of_cons in Hin as [[= <- <-]|Hin].
    + by rewrite (Hnone h).
    + destruct (f v0 h) as [[v' h1]|] eqn:Hv0; [|done].
      apply (IH _ h1 k v Hin). intros h' Hsub. apply Hnone.
      etrans; [|done]. by eapply copies_grows.
Qed.

Lemma deepCopyAny_cyclic (h : heap) (l : loc) (m : gmap string any) (k : string) :
  h !! l = Some (CMap m) → m !! k = Some (AMap (Some l)) →
  ∀ fuel (h' : heap), h ⊆ h' → deepCopyAny fuel (AMap (Some l)) h' = None.
Proof.
  intros Hl Hk. induction fuel as [|fuel IH]; intros h' Hsub; [done|].
  simpl. unfold bind at 1. unfold deepCopyMap_with, bind at 1.
  assert (read_map l h' = Some (m, h')) as ->.
  { apply read_map_Some. split; [done|]. by eapply lookup_weaken. }
  unfold bind at 1.
  rewrite (for_each_entry_None (deepCopyAny fuel) (map_to_list m)
             (copies_deepCopyAny fuel) ∅ h' k (AMap (Some l))); [done| |].
  - by apply elem_of_map_to_list.
  - intros h'' Hsub'. apply IH. by etrans.
Qed.

(** X29.  The deep copy has no guard against cycles: on a node whose raw
    map holds itself as a value, [Clone] returns for no amount of fuel.
    (A decoded document has no such map; one built by hand can.) *)
Theorem Clone_cyclic_raw (h : heap) (n : Node) (l : loc)
    (m : gmap string any) (k : string) :
  node_Raw n = Some l → h !! l = Some (CMap m) →
  m !! k = Some (AMap (Some l)) →
  ∀ fuel, Clone fuel n h = None.
Proof.
  intros Hraw Hl Hk fuel. unfold Clone.
  unfold bind at 1.
  destruct (copy_string_ptr (node_Style n) h) as [[a1 h1]|] eqn:R1; [|done].
  pose proof (copies_grows _ _ _ _ _ (copies_copy_string_ptr _) R1) as S1.
  unfold bind at 1.
  destruct (copy_string_ptr (node_ListItem n) h1) as [[a2 h2]|] eqn:R2; [|done].
  pose proof (copies_grows _ _ _ _ _ (copies_copy_string_ptr _) R2) as S2.
  unfold bind at 1.
  destruct (copy_int_ptr (node_Level n) h2) as [[a3 h3]|] eqn:R3; [|done].
  pose proof (copies_grows _ _ _ _ _ (copies_copy_int_ptr _) R3) as S3.
  unfold bind at 1.
  destruct (cloneSpans fuel (node_Children n) h3) as [[a4 h4]|] eqn:R4; [|done].
  pose proof (copies_grows _ _ _ _ _ (copies_cloneSpans _ _) R4) as S4.
  unfold bind at 1.
  destruct (cloneMarkDefs fuel (node_MarkDefs n) h4) as [[a5 h5]|] eqn:R5; [|done].
  pose proof (copies_grows _ _ _ _ _ (copies_cloneMarkDefs _ _) R5) as S5.
  assert (h ⊆ h5) as Hsub by (repeat (etrans; [eassumption|]); done).
  unfold bind at 1. rewrite Hraw. unfold deepCopyMap, deepCopyMap_with.
  unfold bind at 1.
  assert (read_map l h5 = Some (m, h5)) as ->.
  { apply read_map_Some. split; [done|]. by eapply lookup_weaken. }
  unfold bind at 1.
  rewrite (for_each_entry_None (deepCopyAny fuel) (map_to_list m)
             (copies_deepCopyAny fuel) ∅ h5 k (AMap (Some l))); [done| |].
  - by apply elem_of_map_to_list.
  - intros h' Hsub'. eapply deepCopyAny_cyclic; [done..|]. by etrans.
Qed.

Lemma Clone_cyclic_raw_witness :
  Clone 3 (mkNode "block" "" None None None None None (Some 1%positive))
    ({[ 1%positive := CMap {[ "self" := AMap (Some 1%positive) ]} ]} : heap)
  = None.
Proof.
  apply (Clone_cyclic_raw _ _ 1%positive {[ "self" := AMap (Some 1%positive) ]}
           "self"); vm_compute; reflexivity.
Defined.

End MemMore.
